(** * A shallow embedding of jedi's fault-tolerant parser (parsing.py)
      and of the import-error helper (api/helpers.py).

    Python objects live in a store addressed by references, because the
    parser links nodes to their parents and mutates them afterwards.
    Exceptions are results of their own: every operation returns either a
    value or a raised exception, together with the store it leaves behind. *)

From Stdlib Require Import ZArith Lia.
From stdpp Require Import base option list gmap strings.

Local Open Scope Z_scope.

Abbreviation ascii := Stdlib.Strings.Ascii.ascii.

(** ** Python values shared by the whole development *)

Definition ref := nat.

(** A position is a [(line, column)] tuple; tuples compare lexicographically. *)
Definition pos := (Z * Z)%type.

Definition pos_lt (a b : pos) : bool :=
  (a.1 <? b.1) || ((a.1 =? b.1) && (a.2 <? b.2)).

Definition pos_le (a b : pos) : bool :=
  (a.1 <? b.1) || ((a.1 =? b.1) && (a.2 <=? b.2)).

(** The exceptions the modelled code can raise.  [OutOfFuel] is not a Python
    exception: it marks a run whose recursion budget was too small, and no
    handler of the program catches it. *)
Inductive exn :=
| StopIteration | MultiLevelStopIteration
| AttributeError | TypeError | IndexError | ValueError | KeyError
| UnboundLocalError | RuntimeError | OutOfFuel.

Global Instance exn_eq_dec : EqDecision exn.
Proof. solve_decision. Defined.

(** ** State and exception monad *)

Inductive outcome (S A : Type) :=
| Ok (a : A) (s : S)
| Raise (e : exn) (s : S).
Arguments Ok {S A} a s.
Arguments Raise {S A} e s.

Definition M (S A : Type) := S -> outcome S A.

Definition ret {S A} (a : A) : M S A := fun s => Ok a s.
Definition raise {S A} (e : exn) : M S A := fun s => Raise e s.
Definition bind {S A B} (m : M S A) (k : A -> M S B) : M S B :=
  fun s => match m s with
           | Ok a s' => k a s'
           | Raise e s' => Raise e s'
           end.
Definition get {S} : M S S := fun s => Ok s s.
Definition gets {S A} (f : S -> A) : M S A := fun s => Ok (f s) s.
Definition put {S} (s : S) : M S unit := fun _ => Ok tt s.
Definition modify {S} (f : S -> S) : M S unit := fun s => Ok tt (f s).

(** [try m handles h]: run [m]; an exception selected by [handles] is passed
    to [h], which starts from the state the exception left. *)
Definition try_catch {S A} (m : M S A) (handles : exn -> bool) (h : exn -> M S A)
  : M S A :=
  fun s => match m s with
           | Ok a s' => Ok a s'
           | Raise e s' => if handles e then h e s' else Raise e s'
           end.

(** Run a computation on a component of the state. *)
Definition zoom {S T A} (prj : S -> T) (upd : T -> S -> S) (m : M T A) : M S A :=
  fun s => match m (prj s) with
           | Ok a t => Ok a (upd t s)
           | Raise e t => Raise e (upd t s)
           end.

Declare Scope monad_scope.
Delimit Scope monad_scope with monad.
Notation "x <- m ;; k" := (bind m (fun x => k))
  (at level 100, m at next level, right associativity) : monad_scope.
Notation "m ;; k" := (bind m (fun _ => k))
  (at level 100, right associativity) : monad_scope.
Local Open Scope monad_scope.

Definition of_option {S A} (e : exn) (o : option A) : M S A :=
  match o with Some a => ret a | None => raise e end.

Definition when {S} (b : bool) (m : M S unit) : M S unit :=
  if b then m else ret tt.

Fixpoint mfor {S A} (l : list A) (body : A -> M S unit) : M S unit :=
  match l with
  | [] => ret tt
  | x :: l' => body x ;; mfor l' body
  end.

(** What a computation leaves of the state, whichever way it ends. *)
Definition final_state {S A} (o : outcome S A) : S :=
  match o with Ok _ s => s | Raise _ s => s end.

(** ** Tokens *)

(** The token kinds of Python's [tokenize] module. *)
Inductive tok_type :=
| NAME | NUMBER | STRING | OP | NEWLINE | NL | INDENT | DEDENT | COMMENT
| ENDMARKER | ERRORTOKEN.

Global Instance tok_type_eq_dec : EqDecision tok_type.
Proof. solve_decision. Defined.

(** The quintuple [(kind, text, start, end, raw_line)] of the token source. *)
Record token := Token {
  tk_type : tok_type;
  tk_text : string;
  tk_start : pos;
  tk_end : pos;
  tk_line : string
}.

(** An entry of a Statement's [token_list]: a raw triple
    [(kind, text, start)], or a Name, ListComprehension or Lambda object. *)
Inductive tok_item :=
| TRaw (ty : tok_type) (text : string) (start : pos)
| TName (r : ref)
| TListComp (r : ref)
| TLambda (r : ref).

(** The value of a literal, as [literal_eval] returns it. *)
Inductive literal :=
| LitInt (z : Z)
| LitStr (s : string)
| LitOther (src : string).

(** What [_parse_dot_name] returns in first position: [None], the empty list
    [[]] (its first early return), or a Name. *)
Inductive pyname :=
| PNone
| PEmpty
| PName (r : ref).

Definition pyname_truthy (n : pyname) : bool :=
  match n with PName _ => true | _ => false end.

(** ** The classes of parsing.py as records *)

(** [Simple]: the slots every node of the tree has.  [use_as_parent] is the
    node itself for every class but the module, see [use_as_parent] below. *)
Record simple := Simple {
  s_parent : option ref;
  s_module : ref;
  s_start_pos : pos;           (* _start_pos *)
  s_end_pos : option pos       (* _end_pos; None is (None, None) *)
}.

Definition set_s_parent (v : option ref) (s : simple) : simple :=
  Simple v (s_module s) (s_start_pos s) (s_end_pos s).
Definition set_s_start_pos (v : pos) (s : simple) : simple :=
  Simple (s_parent s) (s_module s) v (s_end_pos s).
Definition set_s_end_pos (v : option pos) (s : simple) : simple :=
  Simple (s_parent s) (s_module s) (s_start_pos s) v.

(** [Scope]: the lists a scope owns.  [is_generator] is an attribute of
    Function; the parser also assigns it to whatever [get_parent_until]
    returns, which creates it on other scopes ([None]: not set). *)
Record scope_body := ScopeBody {
  subscopes : list ref;
  imports : list ref;
  statements : list ref;
  docstr : string;
  asserts : list ref;
  is_generator : option bool
}.

Definition empty_scope_body : scope_body := ScopeBody [] [] [] "" [] None.

Definition set_subscopes v (b : scope_body) :=
  ScopeBody v (imports b) (statements b) (docstr b) (asserts b) (is_generator b).
Definition set_imports v (b : scope_body) :=
  ScopeBody (subscopes b) v (statements b) (docstr b) (asserts b) (is_generator b).
Definition set_statements v (b : scope_body) :=
  ScopeBody (subscopes b) (imports b) v (docstr b) (asserts b) (is_generator b).
Definition set_docstr v (b : scope_body) :=
  ScopeBody (subscopes b) (imports b) (statements b) v (asserts b) (is_generator b).
Definition set_asserts v (b : scope_body) :=
  ScopeBody (subscopes b) (imports b) (statements b) (docstr b) v (is_generator b).
Definition set_is_generator v (b : scope_body) :=
  ScopeBody (subscopes b) (imports b) (statements b) (docstr b) (asserts b) v.

(** [SubModule]. *)
Record module_data := ModuleData {
  path : option string;
  global_vars : list ref;
  used_names : gmap string (gset ref);
  temp_used_names : list string;
  line_offset : Z
}.

Definition set_global_vars v (m : module_data) :=
  ModuleData (path m) v (used_names m) (temp_used_names m) (line_offset m).
Definition set_used_names v (m : module_data) :=
  ModuleData (path m) (global_vars m) v (temp_used_names m) (line_offset m).
Definition set_temp_used_names v (m : module_data) :=
  ModuleData (path m) (global_vars m) (used_names m) v (line_offset m).

(** [Class]. *)
Record class_data := ClassData {
  cl_name : ref;
  supers : list ref;
  cl_decorators : list (option ref)
}.

(** [Function] and its subclass [Lambda] ([is_lambda]). *)
Record function_data := FunctionData {
  f_name : option ref;
  params : list ref;
  f_decorators : list (option ref);
  returns : list (option ref);
  annotation : option ref;
  is_lambda : bool
}.

Definition set_f_decorators v (f : function_data) :=
  FunctionData (f_name f) (params f) v (returns f) (annotation f) (is_lambda f).
Definition set_returns v (f : function_data) :=
  FunctionData (f_name f) (params f) (f_decorators f) v (annotation f) (is_lambda f).

(** [Flow] and its subclass [ForFlow] ([for_part]: [set_stmt], [is_list_comp]).
    The [parent] of a Flow is a property over [_parent], kept in [s_parent]. *)
Record flow_data := FlowData {
  fl_next : option ref;
  command : string;
  inits : list ref;
  fl_set_vars : list ref;
  for_part : option (ref * bool)
}.

Definition set_fl_next v (f : flow_data) :=
  FlowData v (command f) (inits f) (fl_set_vars f) (for_part f).

(** [Import]. *)
Record import_data := ImportData {
  namespace : option ref;
  alias : pyname;
  from_ns : option ref;
  star : bool;
  relative_count : Z;
  defunct : bool
}.

(** The slots [Param] adds to [Statement]. *)
Record param_data := ParamData {
  position_nr : option Z;
  is_generated : bool;
  annotation_stmt : option ref;
  parent_function : option ref
}.

(** [Statement]; [st_param] is present for a [Param]. *)
Record stmt_data := StmtData {
  code : string;
  used_funcs : list ref;
  used_vars : list ref;
  token_list : list tok_item;
  set_vars : list ref;
  _assignment_calls : option ref;
  _assignment_details : option (list (string * ref));
  _assignment_calls_calculated : bool;
  st_param : option param_data
}.

Definition set_code v (d : stmt_data) :=
  StmtData v (used_funcs d) (used_vars d) (token_list d) (set_vars d)
    (_assignment_calls d) (_assignment_details d)
    (_assignment_calls_calculated d) (st_param d).
Definition set_set_vars v (d : stmt_data) :=
  StmtData (code d) (used_funcs d) (used_vars d) (token_list d) v
    (_assignment_calls d) (_assignment_details d)
    (_assignment_calls_calculated d) (st_param d).
Definition set_assignment_calls v (d : stmt_data) :=
  StmtData (code d) (used_funcs d) (used_vars d) (token_list d) (set_vars d)
    v (_assignment_details d) (_assignment_calls_calculated d) (st_param d).
Definition set_assignment_details v (d : stmt_data) :=
  StmtData (code d) (used_funcs d) (used_vars d) (token_list d) (set_vars d)
    (_assignment_calls d) v (_assignment_calls_calculated d) (st_param d).
Definition set_assignment_calls_calculated v (d : stmt_data) :=
  StmtData (code d) (used_funcs d) (used_vars d) (token_list d) (set_vars d)
    (_assignment_calls d) (_assignment_details d) v (st_param d).
Definition set_st_param v (d : stmt_data) :=
  StmtData (code d) (used_funcs d) (used_vars d) (token_list d) (set_vars d)
    (_assignment_calls d) (_assignment_details d)
    (_assignment_calls_calculated d) v.

(** [Call.NAME], [Call.NUMBER], [Call.STRING]. *)
Inductive call_type := CNAME | CNUMBER | CSTRING.

(** [Array.NOARRAY] ... [Array.SET]. *)
Inductive array_type := NOARRAY | TUPLE | LIST | DICT | SET.

Global Instance array_type_eq_dec : EqDecision array_type.
Proof. solve_decision. Defined.

(** The [name] of a Call: a Name object, or the value of a literal. *)
Inductive payload :=
| PayName (r : ref)
| PayLit (v : literal).

(** What a field of an Array holds: objects (Call, Array, ListComprehension,
    Lambda) and operator strings. *)
Inductive item :=
| IObj (r : ref)
| IStr (s : string).

(** The attributes of [Call] ([Array] inherits them). [c_end_pos] is
    [_end_pos] of an Array; on a plain Call the closing loop of
    [get_assignment_calls] creates the attribute [end_pos]. *)
Record call_data := CallData {
  c_name : option payload;
  c_parent : option ref;
  c_start_pos : pos;
  c_next : option ref;
  c_execution : option ref;
  c_parent_stmt : option ref;
  c_end_pos : option pos
}.

Definition set_c_parent v (c : call_data) :=
  CallData (c_name c) v (c_start_pos c) (c_next c) (c_execution c)
    (c_parent_stmt c) (c_end_pos c).
Definition set_c_next v (c : call_data) :=
  CallData (c_name c) (c_parent c) (c_start_pos c) v (c_execution c)
    (c_parent_stmt c) (c_end_pos c).
Definition set_c_execution v (c : call_data) :=
  CallData (c_name c) (c_parent c) (c_start_pos c) (c_next c) v
    (c_parent_stmt c) (c_end_pos c).
Definition set_c_end_pos v (c : call_data) :=
  CallData (c_name c) (c_parent c) (c_start_pos c) (c_next c) (c_execution c)
    (c_parent_stmt c) v.

Record array_data := ArrayData {
  a_type : array_type;
  values : list (list item);
  arr_el_pos : list pos;
  keys : list (list item)
}.

Definition set_a_type v (a : array_data) :=
  ArrayData v (values a) (arr_el_pos a) (keys a).
Definition set_values v (a : array_data) :=
  ArrayData (a_type a) v (arr_el_pos a) (keys a).
Definition set_arr_el_pos v (a : array_data) :=
  ArrayData (a_type a) (values a) v (keys a).
Definition set_keys v (a : array_data) :=
  ArrayData (a_type a) (values a) (arr_el_pos a) v.

(** A Python object of one of the classes above.  A NamePart is the pair of
    its text and its [_start_pos]; its [parent] is the Name that holds it. *)
Inductive obj :=
| OModule (s : simple) (b : scope_body) (m : module_data)
| OClass (s : simple) (b : scope_body) (c : class_data)
| OFunction (s : simple) (b : scope_body) (f : function_data)
| OFlow (s : simple) (b : scope_body) (f : flow_data)
| OImport (s : simple) (i : import_data)
| OStatement (s : simple) (d : stmt_data)
| OName (s : simple) (names : list (string * pos))
| OListComp (stmt middle input : ref)
| OCall (c : call_data) (ty : call_type)
| OArray (c : call_data) (a : array_data).

(** The store: object [r] is the [r]-th allocated one. *)
Definition heap := list obj.

Definition alloc (o : obj) : M heap ref :=
  fun h => Ok (length h) (h ++ [o]).

(** Reading through a reference; a dangling reference does not occur in
    Python and is reported as [RuntimeError]. *)
Definition deref (r : ref) : M heap obj :=
  fun h => match h !! r with
           | Some o => Ok o h
           | None => Raise RuntimeError h
           end.

(** Reading an attribute of [None] raises [AttributeError]. *)
Definition deref_opt (r : option ref) : M heap (ref * obj) :=
  match r with
  | Some r => o <- deref r ;; ret (r, o)
  | None => raise AttributeError
  end.

Definition store (r : ref) (o : obj) : M heap unit :=
  fun h => Ok tt (<[r := o]> h).

(** A computation that is given the number of objects in the store; this
    number bounds the loops and recursions that follow references. *)
Definition with_size {A} (m : nat -> M heap A) : M heap A :=
  fun h => m (length h) h.

Definition obj_simple (o : obj) : option simple :=
  match o with
  | OModule s _ _ | OClass s _ _ | OFunction s _ _ | OFlow s _ _
  | OImport s _ | OStatement s _ | OName s _ => Some s
  | _ => None
  end.

Definition obj_with_simple (s : simple) (o : obj) : obj :=
  match o with
  | OModule _ b m => OModule s b m
  | OClass _ b c => OClass s b c
  | OFunction _ b f => OFunction s b f
  | OFlow _ b f => OFlow s b f
  | OImport _ i => OImport s i
  | OStatement _ d => OStatement s d
  | OName _ n => OName s n
  | o => o
  end.

Definition obj_scope (o : obj) : option scope_body :=
  match o with
  | OModule _ b _ | OClass _ b _ | OFunction _ b _ | OFlow _ b _ => Some b
  | _ => None
  end.

Definition obj_with_scope (b : scope_body) (o : obj) : obj :=
  match o with
  | OModule s _ m => OModule s b m
  | OClass s _ c => OClass s b c
  | OFunction s _ f => OFunction s b f
  | OFlow s _ f => OFlow s b f
  | o => o
  end.

Definition obj_call (o : obj) : option call_data :=
  match o with
  | OCall c _ | OArray c _ => Some c
  | _ => None
  end.

Definition obj_with_call (c : call_data) (o : obj) : obj :=
  match o with
  | OCall _ ty => OCall c ty
  | OArray _ a => OArray c a
  | o => o
  end.

(** [x.parent]: every class of the tree and Call have the attribute. *)
Definition obj_parent (o : obj) : option (option ref) :=
  match o with
  | OListComp _ _ _ => None
  | OCall c _ | OArray c _ => Some (c_parent c)
  | _ => s_parent <$> obj_simple o
  end.

Definition get_parent (r : ref) : M heap (option ref) :=
  o <- deref r ;; of_option AttributeError (obj_parent o).

(** ** Strings as the code uses them *)

Definition streq (a b : string) : bool := String.eqb a b.

(** [tok in [...]] for a string [tok]. *)
Definition str_in (s : string) (l : list string) : bool := existsb (streq s) l.

Definition strlen (s : string) : Z := Z.of_nat (String.length s).

(** [s.endswith(suf)]. *)
Definition endswith (s suf : string) : bool :=
  let n := String.length s in
  let k := String.length suf in
  (k <=? n)%nat && streq (String.substring (n - k) k s) suf.

(** [sep.join(l)]. *)
Fixpoint join (sep : string) (l : list string) : string :=
  match l with
  | [] => ""
  | [x] => x
  | x :: l' => x +:+ sep +:+ join sep l'
  end.

(** The line feed character. *)
Definition LF : ascii := Stdlib.Strings.Ascii.ascii_of_nat 10.

(** [s.replace('\n', '')]. *)
Fixpoint remove_newlines (s : string) : string :=
  match s with
  | EmptyString => EmptyString
  | String c s' =>
      if Stdlib.Strings.Ascii.eqb c LF then remove_newlines s'
      else String c (remove_newlines s')
  end.

(** [string[-1]] of a non-empty string. *)
Fixpoint last_char (s : string) : option ascii :=
  match s with
  | EmptyString => None
  | String c EmptyString => Some c
  | String _ s' => last_char s'
  end.

(** The character class of the regular expression in [_parse_statement]:
    a letter, a digit, an underscore, a single or a double quote. *)
Definition is_word_or_quote (c : ascii) : bool :=
  let n := Z.of_nat (Stdlib.Strings.Ascii.nat_of_ascii c) in
  ((48 <=? n) && (n <=? 57)) || ((65 <=? n) && (n <=? 90))
  || ((97 <=? n) && (n <=? 122)) || (n =? 95) || (n =? 39) || (n =? 34).

Definition newline : string := String LF EmptyString.

(** ** Attributes and properties of the tree classes *)

(** [node.use_as_parent].  Simple.__init__ sets it to the node itself and
    SubModule.__init__ to [top_module or self]; the parser is modelled for
    an absent [top_module] (an object of the fast parser, outside this
    file), so it is the node itself everywhere. *)
Definition use_as_parent (r : ref) : ref := r.

Definition get_line_offset (m : ref) : M heap Z :=
  o <- deref m ;;
  match o with
  | OModule _ _ md => ret (line_offset md)
  | _ => raise AttributeError
  end.

Definition get_simple (r : ref) : M heap simple :=
  o <- deref r ;; of_option AttributeError (obj_simple o).

(** The property [Simple.start_pos]. *)
Definition get_start_pos (r : ref) : M heap pos :=
  s <- get_simple r ;;
  off <- get_line_offset (s_module s) ;;
  ret (off + (s_start_pos s).1, (s_start_pos s).2).

(** The property [Simple.end_pos]. *)
Definition get_end_pos (r : ref) : M heap (option pos) :=
  s <- get_simple r ;;
  match s_end_pos s with
  | None => ret None
  | Some e => off <- get_line_offset (s_module s) ;; ret (Some (off + e.1, e.2))
  end.

Definition set_start_pos (r : ref) (v : pos) : M heap unit :=
  o <- deref r ;;
  s <- of_option AttributeError (obj_simple o) ;;
  store r (obj_with_simple (set_s_start_pos v s) o).

Definition set_end_pos (r : ref) (v : option pos) : M heap unit :=
  o <- deref r ;;
  s <- of_option AttributeError (obj_simple o) ;;
  store r (obj_with_simple (set_s_end_pos v s) o).

(** [x.parent = v].  For a Flow this is the property setter, which stores
    [_parent] and, if [self.next], assigns [self.next.parent = value] in
    turn.  [fuel] bounds the depth of that recursion; Python raises
    RuntimeError when its own bound is exceeded. *)
Fixpoint set_parent_fuel (fuel : nat) (r : ref) (v : option ref) : M heap unit :=
  o <- deref r ;;
  match o with
  | OFlow s b f =>
      store r (OFlow (set_s_parent v s) b f) ;;
      match fl_next f with
      | None => ret tt
      | Some n =>
          match fuel with
          | O => raise RuntimeError
          | S fuel' => set_parent_fuel fuel' n v
          end
      end
  | OCall c ty => store r (OCall (set_c_parent v c) ty)
  | OArray c a => store r (OArray (set_c_parent v c) a)
  | OListComp _ _ _ => ret tt
  | _ =>
      match obj_simple o with
      | Some s => store r (obj_with_simple (set_s_parent v s) o)
      | None => raise AttributeError
      end
  end.

Definition set_parent (r : ref) (v : option ref) : M heap unit :=
  with_size (fun n => set_parent_fuel n r v).

(** [x.parent = v] where [x] may be [None]. *)
Definition set_parent_opt (r : option ref) (v : option ref) : M heap unit :=
  match r with
  | Some r => set_parent r v
  | None => raise AttributeError
  end.

(** [Flow.set_next]. *)
Fixpoint set_next_fuel (fuel : nat) (r : ref) (next : ref) : M heap ref :=
  o <- deref r ;;
  match o with
  | OFlow s b f =>
      match fl_next f with
      | Some n =>
          match fuel with
          | O => raise RuntimeError
          | S fuel' => set_next_fuel fuel' n next
          end
      | None =>
          store r (OFlow s b (set_fl_next (Some next) f)) ;;
          set_parent next (s_parent s) ;;
          ret next
      end
  | _ => raise AttributeError
  end.

Definition set_next (r : ref) (next : ref) : M heap ref :=
  with_size (fun n => set_next_fuel n r next).

(** [SubModule.is_builtin]. *)
Definition is_builtin (m : module_data) : bool :=
  negb (match path m with
        | None => true
        | Some p => endswith p ".py"
        end).

(** [Name.get_code]: the parts joined by a dot. *)
Definition name_code (names : list (string * pos)) : string :=
  join "." (fst <$> names).

Definition get_names (r : ref) : M heap (list (string * pos)) :=
  o <- deref r ;;
  match o with
  | OName _ names => ret names
  | _ => raise AttributeError
  end.

Definition get_stmt (r : ref) : M heap (simple * stmt_data) :=
  o <- deref r ;;
  match o with
  | OStatement s d => ret (s, d)
  | _ => raise AttributeError
  end.

Definition update_stmt (r : ref) (f : stmt_data -> stmt_data) : M heap unit :=
  sd <- get_stmt r ;;
  store r (OStatement sd.1 (f sd.2)).

(** ** Call and Array *)

(** [Call(name, type, start_pos, parent=parent)]. *)
Definition new_call (name : payload) (ty : call_type) (start : pos)
    (parent : option ref) : M heap ref :=
  alloc (OCall (CallData (Some name) parent start None None None None) ty).

(** [Array(start_pos, arr_type, parent_stmt, parent)]. *)
Definition new_array (start : pos) (ty : array_type) (parent_stmt : option ref)
    (parent : option ref) : M heap ref :=
  alloc (OArray (CallData None parent start None None parent_stmt None)
                (ArrayData ty [] [] [])).

(** The receiver of an Array method: [None] and a plain Call do not have
    the method. *)
Definition get_array (r : option ref) : M heap (ref * call_data * array_data) :=
  ro <- deref_opt r ;;
  match ro.2 with
  | OArray c a => ret (ro.1, c, a)
  | _ => raise AttributeError
  end.

(** The receiver of a Call method (an Array is a Call too). *)
Definition get_call (r : option ref) : M heap (ref * call_data) :=
  ro <- deref_opt r ;;
  match obj_call ro.2 with
  | Some c => ret (ro.1, c)
  | None => raise AttributeError
  end.

Definition update_call (r : ref) (f : call_data -> call_data) : M heap unit :=
  o <- deref r ;;
  match obj_call o with
  | Some c => store r (obj_with_call (f c) o)
  | None => raise AttributeError
  end.

(** [values[-1].append(x)]. *)
Fixpoint append_to_last {A} (x : A) (vs : list (list A)) : list (list A) :=
  match vs with
  | [] => []
  | [v] => [v ++ [x]]
  | v :: vs' => v :: append_to_last x vs'
  end.

(** [Array.add_to_current_field] on the attributes of the array. *)
Definition add_to_current_field_data (tok : item) (a : array_data) : array_data :=
  let a1 :=
    match values a with
    | [] =>
        let a0 := match a_type a with
                  | TUPLE => set_a_type NOARRAY a
                  | _ => a
                  end in
        set_values [[]] a0
    | _ => a
    end in
  set_values (append_to_last tok (values a1)) a1.

Definition add_to_current_field (r : option ref) (tok : item) : M heap unit :=
  rca <- get_array r ;;
  store rca.1.1 (OArray rca.1.2 (add_to_current_field_data tok rca.2)).

(** [Array.add_field]. *)
Definition add_field (r : option ref) (start : pos) : M heap unit :=
  rca <- get_array r ;;
  let a := rca.2 in
  store rca.1.1
    (OArray rca.1.2
       (set_values (values a ++ [[]]) (set_arr_el_pos (arr_el_pos a ++ [start]) a))).

(** [Array.add_dictionary_key]; [values.pop()] of an empty list raises
    IndexError. *)
Definition add_dictionary_key (r : option ref) : M heap unit :=
  rca <- get_array r ;;
  let a := rca.2 in
  match a_type a with
  | LIST | TUPLE => ret tt
  | ty =>
      match last (values a) with
      | None => raise IndexError
      | Some v =>
          let a1 := set_values (removelast (values a)) (set_keys (keys a ++ [v]) a) in
          let a2 := match ty with SET => set_a_type DICT a1 | _ => a1 end in
          store rca.1.1 (OArray rca.1.2 (set_values (values a2 ++ [[]]) a2))
      end
  end.

(** [Call.set_next_chain_call]. *)
Definition set_next_chain_call (r : option ref) (call : ref) : M heap ref :=
  rc <- get_call r ;;
  update_call rc.1 (set_c_next (Some call)) ;;
  update_call call (set_c_parent (c_parent rc.2)) ;;
  ret call.

(** [Call.add_execution]; [==] on these objects is identity. *)
Definition add_execution (r : option ref) (call : ref) : M heap ref :=
  rc <- get_call r ;;
  update_call rc.1 (set_c_execution (Some call)) ;;
  pc <- get_call (c_parent rc.2) ;;
  (if bool_decide (c_execution pc.2 = Some rc.1)
   then update_call call (set_c_parent (c_parent rc.2))
   else update_call call (set_c_parent (Some rc.1))) ;;
  ret call.

(** [type(result) == Call]: false for an Array and for [None]. *)
Definition is_exact_call (r : option ref) : M heap bool :=
  match r with
  | None => ret false
  | Some r =>
      o <- deref r ;;
      ret (match o with OCall _ _ => true | _ => false end)
  end.

(** [result.parent] for the cursor of the statement parser. *)
Definition result_parent (r : option ref) : M heap (option ref) :=
  rc <- get_call r ;; ret (c_parent rc.2).

(** [while is_call_or_close(): result = result.parent; close_brackets = False]. *)
Fixpoint ascend (fuel : nat) (result : option ref) (close_brackets : bool)
  : M heap (option ref) :=
  c <- is_exact_call result ;;
  if c || close_brackets then
    match fuel with
    | O => raise OutOfFuel
    | S fuel' => p <- result_parent result ;; ascend fuel' p false
    end
  else ret result.

(** ** The statement sub-parser: [Statement.get_assignment_calls] *)

(** The value of the loop variable [tok]: a token text, a Name or a Lambda. *)
Inductive tokval :=
| VStr (s : string)
| VName (r : ref)
| VLambda (r : ref).

(** The local variables of [get_assignment_calls]; [tok] and [start_pos]
    are unbound until the first token that is not a ListComprehension. *)
Record ac_locals := AcLocals {
  ac_top : ref;
  ac_result : option ref;
  ac_level : Z;
  ac_is_chain : bool;
  ac_close_brackets : bool;
  ac_tok : option tokval;
  ac_start_pos : option pos
}.

(** The dictionary [brackets]. *)
Definition brackets (tok : string) : option array_type :=
  if streq tok "(" then Some TUPLE
  else if streq tok "[" then Some LIST
  else if streq tok "{" then Some SET
  else None.

(** [tok.endswith('=') and not tok in ['>=', '<=', '==', '!=']]. *)
Definition is_assignment_op (tok : string) : bool :=
  endswith tok "=" && negb (str_in tok [">="; "<="; "=="; "!="]).

Definition array_type_of (r : option ref) : M heap array_type :=
  rca <- get_array r ;; ret (a_type rca.2).

Definition set_array_type (r : option ref) (ty : array_type) : M heap unit :=
  rca <- get_array r ;;
  store rca.1.1 (OArray rca.1.2 (set_a_type ty rca.2)).

(** [result.end_pos = v]: the property setter of an Array, a new attribute
    on a plain Call. *)
Definition set_call_end_pos (r : option ref) (v : option pos) : M heap unit :=
  rc <- get_call r ;; update_call rc.1 (set_c_end_pos v).

Section with_literal_eval.

(** [literal_eval] of [_compatibility] (Python's [ast.literal_eval]); [None]
    when it raises. *)
Variable literal_eval : string -> option literal.

(** The body of the loop from the comment on the statement creation on, for
    one token.  When a loop [while is_call_or_close()] ends,
    [close_brackets] is false: an iteration clears it, and without an
    iteration the condition was false already. *)
Definition ac_step (fuel : nat) (L : ac_locals) (token_type : option tok_type)
    (tok : tokval) (start_pos : pos) : M heap ac_locals :=
  let top := ac_top L in
  let result := ac_result L in
  let level := ac_level L in
  let is_chain := ac_is_chain L in
  let close_brackets := ac_close_brackets L in
  let keep := AcLocals top in
  let is_literal :=
    bool_decide (token_type = Some STRING) || bool_decide (token_type = Some NUMBER) in
  let name_or_literal :=
    match tok, is_literal with
    | VName r, _ => Some (ret (PayName r, CNAME))
    | VStr s, true =>
        Some (v <- of_option ValueError (literal_eval s) ;;
              ret (PayLit v,
                   if bool_decide (token_type = Some STRING) then CSTRING else CNUMBER))
    | _, _ => None
    end in
  match name_or_literal with
  | Some mk =>
      pc <- mk ;;
      if is_chain then
        call <- new_call pc.1 pc.2 start_pos result ;;
        r <- set_next_chain_call result call ;;
        ret (keep (Some r) level false false (Some tok) (Some start_pos))
      else
        r1 <- (if close_brackets then result_parent result else ret result) ;;
        c <- is_exact_call r1 ;;
        r2 <- (if c then result_parent r1 else ret r1) ;;
        call <- new_call pc.1 pc.2 start_pos r2 ;;
        add_to_current_field r2 (IObj call) ;;
        ret (keep (Some call) level is_chain false (Some tok) (Some start_pos))
  | None =>
      let text := match tok with VStr s => Some s | _ => None end in
      let is_text s := match text with Some t => streq t s | None => false end in
      match text ≫= brackets with
      | Some ty =>
          c <- is_exact_call result ;;
          if c || close_brackets then
            arr <- new_array start_pos ty None result ;;
            p <- result_parent (Some arr) ;;
            r <- add_execution p arr ;;
            ret (keep (Some r) (level + 1) is_chain false (Some tok) (Some start_pos))
          else
            arr <- new_array start_pos ty None result ;;
            p <- result_parent (Some arr) ;;
            add_to_current_field p (IObj arr) ;;
            ret (keep (Some arr) (level + 1) is_chain close_brackets
                   (Some tok) (Some start_pos))
      | None =>
          if is_text ":" then
            r <- ascend fuel result close_brackets ;;
            ty <- array_type_of r ;;
            (if bool_decide (ty = LIST) then add_to_current_field r (IStr ":")
             else add_dictionary_key r) ;;
            ret (keep r level is_chain false (Some tok) (Some start_pos))
          else if is_text "." then
            p <- (if close_brackets then result_parent result else ret None) ;;
            if close_brackets && negb (bool_decide (p = Some top)) then
              ret (keep p level true false (Some tok) (Some start_pos))
            else
              ret (keep result level true close_brackets (Some tok) (Some start_pos))
          else if is_text "," then
            r <- ascend fuel result close_brackets ;;
            add_field r (start_pos.1, start_pos.2 + 1) ;;
            ty <- array_type_of r ;;
            when (bool_decide (ty = NOARRAY)) (set_array_type r TUPLE) ;;
            ret (keep r level is_chain false (Some tok) (Some start_pos))
          else if is_text ")" || is_text "}" || is_text "]" then
            r <- ascend fuel result close_brackets ;;
            (if is_text "}" then
               match r with
               | None => raise TypeError
               | Some _ =>
                   rca <- get_array r ;;
                   when (bool_decide (values rca.2 = []))
                        (set_array_type r DICT)
               end
             else ret tt) ;;
            set_call_end_pos r (Some (start_pos.1, start_pos.2 + 1)) ;;
            ret (keep r (level - 1) is_chain true (Some tok) (Some start_pos))
          else
            r <- ascend fuel result close_brackets ;;
            (if is_text newline then ret tt
             else add_to_current_field r
                    (match tok with
                     | VStr s => IStr s
                     | VName x | VLambda x => IObj x
                     end)) ;;
            ret (keep r level is_chain false (Some tok) (Some start_pos))
      end
  end.

(** The [for] loop over [enumerate(self.token_list)]; after [as] the
    iterator is advanced once more, which skips a token. *)
Fixpoint ac_loop (fuel : nat) (self : ref) (toks : list tok_item) (L : ac_locals)
  : M heap ac_locals :=
  match toks with
  | [] => ret L
  | t :: rest =>
      match t with
      | TListComp r =>
          add_to_current_field (ac_result L) (IObj r) ;;
          ac_loop fuel self rest L
      | TRaw ty text sp =>
          if (ac_level L =? 0) && is_assignment_op text then
            update_stmt self (fun d =>
              set_assignment_details
                (Some (default [] (_assignment_details d) ++ [(text, ac_top L)])) d) ;;
            arr <- new_array (sp.1, sp.2 + strlen text) NOARRAY (Some self) None ;;
            ac_loop fuel self rest
              (AcLocals arr (Some arr) 0 false false (Some (VStr text)) (Some sp))
          else if streq text "as" then
            let L' := AcLocals (ac_top L) (ac_result L) (ac_level L) (ac_is_chain L)
                        (ac_close_brackets L) (Some (VStr text)) (Some sp) in
            match rest with
            | [] => ret L'
            | _ :: rest' => ac_loop fuel self rest' L'
            end
          else
            L' <- ac_step fuel L (Some ty) (VStr text) sp ;;
            ac_loop fuel self rest L'
      | TName r =>
          sp <- get_start_pos r ;;
          L' <- ac_step fuel L None (VName r) sp ;;
          ac_loop fuel self rest L'
      | TLambda r =>
          sp <- get_start_pos r ;;
          L' <- ac_step fuel L None (VLambda r) sp ;;
          ac_loop fuel self rest L'
      end
  end.

(** The closing loop [while result is not None]: every node from the cursor
    up to the root gets the end position of the last token. *)
Fixpoint ac_close (fuel : nat) (result : option ref) (v : option pos) : M heap unit :=
  match result with
  | None => ret tt
  | Some _ =>
      match fuel with
      | O => raise OutOfFuel
      | S fuel' =>
          set_call_end_pos result v ;;
          p <- result_parent result ;;
          ac_close fuel' p v
      end
  end.

(** [start_pos[0], start_pos[1] + len(tok)], and [tok.end_pos] when [len]
    raises TypeError; [len] of a Name is the number of its parts. *)
Definition ac_end_pos (L : ac_locals) : M heap (option pos) :=
  match ac_start_pos L, ac_tok L with
  | Some sp, Some (VStr s) => ret (Some (sp.1, sp.2 + strlen s))
  | Some sp, Some (VName r) =>
      names <- get_names r ;; ret (Some (sp.1, sp.2 + Z.of_nat (length names)))
  | Some sp, Some (VLambda r) => get_end_pos r
  | _, _ => raise UnboundLocalError
  end.

(** [Statement.get_assignment_calls].  The bound of the two parent-chasing
    loops is the number of objects in the store when they start. *)
Definition get_assignment_calls (self : ref) : M heap (option ref) :=
  sd <- get_stmt self ;;
  if _assignment_calls_calculated sd.2 then ret (_assignment_calls sd.2)
  else
    update_stmt self (set_assignment_details (Some [])) ;;
    sp <- get_start_pos self ;;
    top <- new_array sp NOARRAY (Some self) None ;;
    L <- with_size (fun n =>
           ac_loop (n + length (token_list sd.2)) self (token_list sd.2)
             (AcLocals top (Some top) 0 false false None None)) ;;
    match token_list sd.2 with
    | [] =>
        e <- get_end_pos self ;;
        set_call_end_pos (ac_result L) e
    | _ =>
        match ac_result L with
        | None => ret tt
        | Some _ =>
            v <- ac_end_pos L ;;
            with_size (fun n => ac_close n (ac_result L) v)
        end
    end ;;
    update_stmt self (set_assignment_calls_calculated true) ;;
    update_stmt self (set_assignment_calls (Some (ac_top L))) ;;
    ret (Some (ac_top L)).

(** The property [Statement.assignment_details]. *)
Definition assignment_details (self : ref) : M heap (list (string * ref)) :=
  sd <- get_stmt self ;;
  match _assignment_details sd.2 with
  | None =>
      get_assignment_calls self ;;
      sd' <- get_stmt self ;;
      ret (default [] (_assignment_details sd'.2))
  | Some l => ret l
  end.

End with_literal_eval.

(** ** The token source *)

(** Modelled from the spec: the token source [common.NoErrorTokenizer] is not
    part of the files at hand.  By its contract it delivers a finite sequence
    of token quintuples, ends with StopIteration, or with
    MultiLevelStopIteration when it was closed ([gen_multilevel]), and
    supports pushing the token delivered last back, so that the next read
    delivers it again. *)
Record tokenizer := Tokenizer {
  gen_pushes : list token;
  gen_rest : list token;
  gen_current : option token;
  gen_multilevel : bool
}.

Definition gen_next : M tokenizer token :=
  fun g =>
    match gen_pushes g with
    | t :: ps => Ok t (Tokenizer ps (gen_rest g) (Some t) (gen_multilevel g))
    | [] =>
        match gen_rest g with
        | t :: r => Ok t (Tokenizer [] r (Some t) (gen_multilevel g))
        | [] => Raise (if gen_multilevel g then MultiLevelStopIteration
                       else StopIteration) g
        end
    end.

Definition gen_push_last_back : M tokenizer unit :=
  fun g =>
    match gen_current g with
    | Some t => Ok tt (Tokenizer (t :: gen_pushes g) (gen_rest g) (gen_current g)
                         (gen_multilevel g))
    | None => Raise AttributeError g
    end.

(** ** The state of a [Parser] *)

Record parser := Parser {
  p_heap : heap;
  _gen : tokenizer;
  user_position : option pos;
  user_scope : option ref;
  user_stmt : option ref;
  no_docstr : bool;
  p_module : ref;
  scope : option ref;
  current : option (tok_type * string);     (* None stands for (None, None) *)
  last_token : option (tok_type * string);
  start_pos : pos;
  end_pos : pos;
  parserline : string;
  _decorators : list (option ref);
  freshscope : bool
}.

Definition set_p_heap (h : heap) (p : parser) : parser :=
  Parser h (_gen p) (user_position p) (user_scope p) (user_stmt p) (no_docstr p)
    (p_module p) (scope p) (current p) (last_token p) (start_pos p) (end_pos p)
    (parserline p) (_decorators p) (freshscope p).
Definition set_gen (g : tokenizer) (p : parser) : parser :=
  Parser (p_heap p) g (user_position p) (user_scope p) (user_stmt p) (no_docstr p)
    (p_module p) (scope p) (current p) (last_token p) (start_pos p) (end_pos p)
    (parserline p) (_decorators p) (freshscope p).
Definition set_user_scope (v : option ref) (p : parser) : parser :=
  Parser (p_heap p) (_gen p) (user_position p) v (user_stmt p) (no_docstr p)
    (p_module p) (scope p) (current p) (last_token p) (start_pos p) (end_pos p)
    (parserline p) (_decorators p) (freshscope p).
Definition set_user_stmt (v : option ref) (p : parser) : parser :=
  Parser (p_heap p) (_gen p) (user_position p) (user_scope p) v (no_docstr p)
    (p_module p) (scope p) (current p) (last_token p) (start_pos p) (end_pos p)
    (parserline p) (_decorators p) (freshscope p).
Definition set_scope (v : option ref) (p : parser) : parser :=
  Parser (p_heap p) (_gen p) (user_position p) (user_scope p) (user_stmt p)
    (no_docstr p) (p_module p) v (current p) (last_token p) (start_pos p)
    (end_pos p) (parserline p) (_decorators p) (freshscope p).
Definition set_token (t : token) (p : parser) : parser :=
  Parser (p_heap p) (_gen p) (user_position p) (user_scope p) (user_stmt p)
    (no_docstr p) (p_module p) (scope p) (current p) (last_token p) (tk_start t)
    (tk_end t) (tk_line t) (_decorators p) (freshscope p).
Definition set_current (v : tok_type * string) (p : parser) : parser :=
  Parser (p_heap p) (_gen p) (user_position p) (user_scope p) (user_stmt p)
    (no_docstr p) (p_module p) (scope p) (Some v) (current p) (start_pos p)
    (end_pos p) (parserline p) (_decorators p) (freshscope p).
Definition set_start_pos_p (v : pos) (p : parser) : parser :=
  Parser (p_heap p) (_gen p) (user_position p) (user_scope p) (user_stmt p)
    (no_docstr p) (p_module p) (scope p) (current p) (last_token p) v
    (end_pos p) (parserline p) (_decorators p) (freshscope p).
Definition set_decorators (v : list (option ref)) (p : parser) : parser :=
  Parser (p_heap p) (_gen p) (user_position p) (user_scope p) (user_stmt p)
    (no_docstr p) (p_module p) (scope p) (current p) (last_token p) (start_pos p)
    (end_pos p) (parserline p) v (freshscope p).
Definition set_freshscope (v : bool) (p : parser) : parser :=
  Parser (p_heap p) (_gen p) (user_position p) (user_scope p) (user_stmt p)
    (no_docstr p) (p_module p) (scope p) (current p) (last_token p) (start_pos p)
    (end_pos p) (parserline p) (_decorators p) v.

(** An operation on the store, run inside the parser. *)
Definition liftH {A} (m : M heap A) : M parser A := zoom p_heap set_p_heap m.

Definition liftG {A} (m : M tokenizer A) : M parser A := zoom _gen set_gen m.

Definition push_last_back : M parser unit := liftG gen_push_last_back.

(** [except (StopIteration, common.MultiLevelStopIteration)]. *)
Definition is_stop (e : exn) : bool :=
  match e with
  | StopIteration | MultiLevelStopIteration => true
  | _ => false
  end.

Definition is_attribute_error (e : exn) : bool :=
  match e with AttributeError => true | _ => false end.

Definition is_attribute_or_index_error (e : exn) : bool :=
  match e with AttributeError | IndexError => true | _ => false end.

(** The loop of [__next__] that runs when the tokens are exhausted: the
    current scope and all its ancestors end here. *)
Fixpoint close_scopes (fuel : nat) (s : option ref) (e : pos) : M heap unit :=
  match s with
  | None => ret tt
  | Some r =>
      match fuel with
      | O => raise OutOfFuel
      | S fuel' =>
          set_end_pos r (Some e) ;;
          p <- get_parent r ;;
          close_scopes fuel' p e
      end
  end.

(** [Parser.__next__] (and [next]). *)
Definition next : M parser (tok_type * string) :=
  t <- try_catch (liftG gen_next) is_stop
         (fun e =>
            p <- get ;;
            liftH (with_size (fun n => close_scopes n (scope p) (end_pos p))) ;;
            raise e) ;;
  modify (set_token t) ;;
  p <- get ;;
  when (match user_position p with
        | None => false
        | Some up =>
            ((start_pos p).1 =? up.1)
            || (bool_decide (user_scope p = None) && (up.1 <=? (start_pos p).1))
        end)
       (modify (set_user_scope (scope p))) ;;
  modify (set_current (tk_type t, tk_text t)) ;;
  ret (tk_type t, tk_text t).

(** Reading [self.current] after a token was read. *)
Definition get_current : M parser (tok_type * string) :=
  p <- get ;; of_option RuntimeError (current p).

(** ** Constructors of the tree classes *)

Definition update_scope_body (r : ref) (f : scope_body -> scope_body) : M heap unit :=
  o <- deref r ;;
  match obj_scope o with
  | Some b => store r (obj_with_scope (f b) o)
  | None => raise AttributeError
  end.

Definition get_scope_body (r : ref) : M heap scope_body :=
  o <- deref r ;; of_option AttributeError (obj_scope o).

Definition get_module_data (r : ref) : M heap module_data :=
  o <- deref r ;;
  match o with
  | OModule _ _ m => ret m
  | _ => raise AttributeError
  end.

Definition update_module (r : ref) (f : module_data -> module_data) : M heap unit :=
  o <- deref r ;;
  match o with
  | OModule s b m => store r (OModule s b (f m))
  | _ => raise AttributeError
  end.

(** [SubModule(path, start_pos)]; the module is its own [module]. *)
Definition new_module (path : option string) (start : pos) : M heap ref :=
  with_size (fun n =>
    alloc (OModule (Simple None n start None) empty_scope_body
             (ModuleData path [] ∅ [] 0))).

(** [Name(module, names, start_pos, end_pos, parent)]. *)
Definition new_name (module : ref) (names : list (string * pos)) (start : pos)
    (e : option pos) (parent : option ref) : M heap ref :=
  alloc (OName (Simple parent module start e) names).

(** [Statement._remove_executions_from_set_vars]: the loop over the token
    list.  [result] is the set of the names, kept as a list without
    repetition in the order of [set_vars]; the order in which Python lists a
    set is not determined by the program. *)
Fixpoint remove_executions (toks : list tok_item) (result : list ref)
    (last_is_name : bool) (in_execution : Z) : list ref :=
  match toks with
  | [] => result
  | TName r :: rest =>
      if negb (bool_decide (r ∈ result)) then result
      else
        remove_executions rest
          (if in_execution =? 0 then result
           else filter (fun x => x ≠ r) result)
          true in_execution
  | TRaw _ text _ :: rest =>
      if str_in text ["("; "["] && last_is_name then
        remove_executions rest result false (in_execution + 1)
      else if str_in text [")"; "]"] && (0 <? in_execution) then
        remove_executions rest result false (in_execution - 1)
      else remove_executions rest result false in_execution
  | _ :: rest => remove_executions rest result false in_execution
  end.

Definition _remove_executions_from_set_vars (toks : list tok_item)
    (set_vars : list ref) : list ref :=
  match set_vars with
  | [] => []
  | _ => remove_executions toks (remove_dups set_vars) false 0
  end.

(** [Statement(...)], and [Param(...)] when [is_param]. *)
Definition new_statement (is_param : bool) (module : ref) (code : string)
    (set_vars used_funcs used_vars : list ref) (token_list : list tok_item)
    (start : pos) (e : pos) : M heap ref :=
  r <- alloc (OStatement (Simple None module start (Some e))
                (StmtData code used_funcs used_vars token_list
                   (_remove_executions_from_set_vars token_list set_vars)
                   None None false
                   (if is_param then Some (ParamData None false None None)
                    else None))) ;;
  mfor (set_vars ++ used_funcs ++ used_vars)
       (fun s => set_parent s (Some (use_as_parent r))) ;;
  ret r.

(** [Import(...)]. *)
Definition new_import (module : ref) (start : pos) (e : pos)
    (namespace : option ref) (alias : pyname) (from_ns : option ref)
    (star : bool) (relative_count : Z) (defunct : bool) : M heap ref :=
  r <- alloc (OImport (Simple None module start (Some e))
                (ImportData namespace alias from_ns star relative_count defunct)) ;;
  mfor (option_list namespace
          ++ match alias with PName a => [a] | _ => [] end
          ++ option_list from_ns)
       (fun n => set_parent n (Some (use_as_parent r))) ;;
  ret r.

(** [Flow(module, command, inits, start_pos)]. *)
Definition new_flow (module : ref) (command : string) (inits : list ref)
    (start : pos) : M heap ref :=
  r <- alloc (OFlow (Simple None module start None) empty_scope_body
                (FlowData None command inits [] None)) ;;
  mfor inits (fun s => set_parent s (Some (use_as_parent r))) ;;
  ret r.

(** [ForFlow(module, inits, start_pos, set_stmt)]; reading
    [set_stmt.used_vars] comes first and fails on [None]. *)
Definition new_for_flow (module : ref) (inits : list ref) (start : pos)
    (set_stmt : option ref) : M heap ref :=
  ro <- deref_opt set_stmt ;;
  match ro.2 with
  | OStatement _ d =>
      let set_vars := used_vars d in
      r <- alloc (OFlow (Simple None module start None) empty_scope_body
                    (FlowData None "for" inits set_vars (Some (ro.1, false)))) ;;
      mfor inits (fun s => set_parent s (Some (use_as_parent r))) ;;
      mfor set_vars
           (fun s =>
              p <- get_parent s ;;
              set_parent_opt p (Some (use_as_parent r)) ;;
              set_parent s (Some (use_as_parent r))) ;;
      ret r
  | _ => raise AttributeError
  end.

Definition update_param (r : ref) (f : param_data -> param_data) : M heap unit :=
  sd <- get_stmt r ;;
  match st_param sd.2 with
  | Some pd => store r (OStatement sd.1 (set_st_param (Some (f pd)) sd.2))
  | None => raise AttributeError
  end.

(** [Function(module, name, params, start_pos, annotation)], and
    [Lambda(module, params, start_pos)] when [is_lambda]. *)
Definition new_function (lambda : bool) (module : ref) (name : option ref)
    (param_list : list ref) (start : pos) (annot : option ref) : M heap ref :=
  r <- alloc (OFunction (Simple None module start None)
                (set_is_generator (Some false) empty_scope_body)
                (FunctionData name param_list [] [] None lambda)) ;;
  match name with
  | Some n => set_parent n (Some (use_as_parent r))
  | None => ret tt
  end ;;
  mfor param_list
       (fun p =>
          set_parent p (Some (use_as_parent r)) ;;
          update_param p (fun pd =>
            ParamData (position_nr pd) (is_generated pd) (annotation_stmt pd)
              (Some (use_as_parent r)))) ;;
  match annot with
  | Some a =>
      set_parent a (Some (use_as_parent r)) ;;
      o <- deref r ;;
      match o with
      | OFunction s b f =>
          store r (OFunction s b
                     (FunctionData (f_name f) (params f) (f_decorators f)
                        (returns f) (Some a) (is_lambda f)))
      | _ => raise AttributeError
      end
  | None => ret tt
  end ;;
  ret r.

(** [Class(module, name, supers, start_pos)]. *)
Definition new_class (module : ref) (name : ref) (supers : list ref) (start : pos)
  : M heap ref :=
  r <- alloc (OClass (Simple None module start None) empty_scope_body
                (ClassData name supers [])) ;;
  set_parent name (Some (use_as_parent r)) ;;
  mfor supers (fun s => set_parent s (Some (use_as_parent r))) ;;
  ret r.

(** ** Methods of [Scope] and [Import] *)

(** The receiver of a Scope method. *)
Definition get_scope_obj (self : option ref) : M heap ref :=
  ro <- deref_opt self ;;
  match obj_scope ro.2 with
  | Some _ => ret ro.1
  | None => raise AttributeError
  end.

(** [sub.decorators = decorators]. *)
Definition set_obj_decorators (sub : ref) (ds : list (option ref)) : M heap unit :=
  o <- deref sub ;;
  match o with
  | OFunction s b f => store sub (OFunction s b (set_f_decorators ds f))
  | OClass s b c => store sub (OClass s b (ClassData (cl_name c) (supers c) ds))
  | _ => raise AttributeError
  end.

(** [Scope.add_scope]. *)
Definition add_scope (self : option ref) (sub : ref) (decorators : list (option ref))
  : M heap ref :=
  me <- get_scope_obj self ;;
  set_parent sub (Some (use_as_parent me)) ;;
  set_obj_decorators sub decorators ;;
  mfor decorators (fun d => set_parent_opt d (Some (use_as_parent me))) ;;
  update_scope_body me (fun b => set_subscopes (subscopes b ++ [sub]) b) ;;
  ret sub.

(** [Scope.add_statement]. *)
Definition add_statement (self : option ref) (stmt : ref) : M heap ref :=
  me <- get_scope_obj self ;;
  set_parent stmt (Some (use_as_parent me)) ;;
  update_scope_body me (fun b => set_statements (statements b ++ [stmt]) b) ;;
  ret stmt.

(** [Scope.add_import]. *)
Definition add_import (self : option ref) (imp : ref) : M heap unit :=
  me <- get_scope_obj self ;;
  update_scope_body me (fun b => set_imports (imports b ++ [imp]) b) ;;
  set_parent imp (Some (use_as_parent me)).

(** [SubModule.add_global]. *)
Definition add_global (module : ref) (name : ref) : M heap unit :=
  update_module module (fun m => set_global_vars (global_vars m ++ [name]) m).

Definition get_import (r : ref) : M heap (simple * import_data) :=
  o <- deref r ;;
  match o with
  | OImport s i => ret (s, i)
  | _ => raise AttributeError
  end.

(** [Import.get_defined_names]; a dotted namespace yields a fresh Name made
    of its first part. *)
Definition import_get_defined_names (self : ref) : M heap (list ref) :=
  si <- get_import self ;;
  let i := si.2 in
  if defunct i then ret []
  else if star i then ret [self]
  else
    match alias i with
    | PName a => ret [a]
    | _ =>
        match namespace i with
        | None => raise TypeError
        | Some o =>
            names <- get_names o ;;
            if (1 <? Z.of_nat (length names)) then
              sp <- get_start_pos o ;;
              ep <- get_end_pos o ;;
              p <- get_parent o ;;
              n <- new_name (s_module si.1) ((fun n0 => (n0.1, sp)) <$> take 1 names)
                     sp ep p ;;
              ret [n]
            else ret [o]
        end
    end.

(** [simple.get_set_vars()] for what [_check_user_stmt] receives: a
    Statement (or Param) or an Import. *)
Definition simple_get_set_vars (r : ref) : M heap (list ref) :=
  o <- deref r ;;
  match o with
  | OStatement _ d => ret (set_vars d)
  | OImport _ _ => import_get_defined_names r
  | _ => raise AttributeError
  end.

(** The loop of [_check_user_stmt] over [temp_used_names]: the node is
    added to the set of every pending name. *)
Definition add_used_names (simple : ref) (pending : list string)
    (m : gmap string (gset ref)) : gmap string (gset ref) :=
  foldl (fun acc tok_name => <[tok_name := {[simple]} ∪ default ∅ (acc !! tok_name)]> acc)
        m pending.

(** A comparison with the end position [(None, None)] is false: Python 2
    orders [None] before every number. *)
Definition pos_le_opt (a : pos) (b : option pos) : bool :=
  match b with Some b => pos_le a b | None => false end.

(** [Parser._check_user_stmt]. *)
Definition _check_user_stmt (simple : ref) : M parser unit :=
  p <- get ;;
  liftH (update_module (p_module p) (fun m =>
           set_temp_used_names []
             (set_used_names (add_used_names simple (temp_used_names m) (used_names m)) m))) ;;
  match user_position p with
  | None => ret tt
  | Some up =>
      sp <- liftH (get_start_pos simple) ;;
      ep <- liftH (get_end_pos simple) ;;
      if pos_le sp up && pos_le_opt up ep then
        match user_stmt p with
        | Some _ =>
            vars <- liftH (simple_get_set_vars simple) ;;
            mfor vars (fun n =>
              nsp <- liftH (get_start_pos n) ;;
              nep <- liftH (get_end_pos n) ;;
              when (pos_lt nsp up && pos_le_opt up nep)
                   (modify (set_user_stmt (Some simple))))
        | None => modify (set_user_stmt (Some simple))
        end
      else ret tt
  end.

(** ** [Parser._parse_dot_name] *)

(** The inner function [append]. *)
Definition dot_name_append (tok : string) : M parser (string * pos) :=
  p <- get ;;
  liftH (update_module (p_module p) (fun m =>
           set_temp_used_names (temp_used_names m ++ [tok]) m)) ;;
  ret (tok, start_pos p).

(** The loop [while True] of [_parse_dot_name]. *)
Fixpoint dot_name_loop (fuel : nat) (names : list (string * pos))
  : M parser (list (string * pos) * (tok_type * string)) :=
  match fuel with
  | O => raise OutOfFuel
  | S fuel' =>
      t1 <- next ;;
      if negb (streq t1.2 ".") then ret (names, t1)
      else
        t2 <- next ;;
        if negb (bool_decide (t2.1 = NAME)) then ret (names, t2)
        else
          el <- dot_name_append t2.2 ;;
          dot_name_loop fuel' (names ++ [el])
  end.

Definition _parse_dot_name (fuel : nat) (pre_used_token : option (tok_type * string))
  : M parser (pyname * (tok_type * string)) :=
  first <- match pre_used_token with
           | None =>
               t <- next ;;
               ret (t, negb (bool_decide (t.1 = NAME)) && negb (streq t.2 "*"))
           | Some t => ret (t, false)
           end ;;
  if first.2 : bool then ret (PEmpty, first.1)
  else
    let t := first.1 in
    if negb (bool_decide (t.1 = NAME)) && negb (streq t.2 "*") then ret (PNone, t)
    else
      el <- dot_name_append t.2 ;;
      p <- get ;;
      let first_pos := start_pos p in
      nt <- dot_name_loop fuel [el] ;;
      p' <- get ;;
      n <- liftH (new_name (p_module p') nt.1 first_pos (Some (end_pos p')) None) ;;
      ret (PName n, nt.2).

(** ** [Parser._parse_statement] *)

(** The value of the local variable [tok] of [_parse_statement]: the text
    of a token, or the ListComprehension object the list comprehension
    branch leaves in it. *)
Inductive ptok :=
| KStr (s : string)
| KObj (r : ref).

Definition ptok_is (t : ptok) (s : string) : bool :=
  match t with KStr x => streq x s | KObj _ => false end.

Definition ptok_in (t : ptok) (l : list string) : bool :=
  match t with KStr x => str_in x l | KObj _ => false end.

(** The local variables the loop of [_parse_statement] assigns.  They are
    part of the state of the loop body, since the handler of StopIteration
    continues with the values they had when the exception was raised. *)
Record st_locals := StLocals {
  l_string : string;
  l_set_vars : list ref;
  l_used_funcs : list ref;
  l_used_vars : list ref;
  l_level : Z;
  l_token_type : tok_type;
  l_tok : ptok;
  l_tok_list : list tok_item
}.

Definition with_string v (l : st_locals) :=
  StLocals v (l_set_vars l) (l_used_funcs l) (l_used_vars l) (l_level l)
    (l_token_type l) (l_tok l) (l_tok_list l).
Definition with_set_vars v (l : st_locals) :=
  StLocals (l_string l) v (l_used_funcs l) (l_used_vars l) (l_level l)
    (l_token_type l) (l_tok l) (l_tok_list l).
Definition with_used_funcs v (l : st_locals) :=
  StLocals (l_string l) (l_set_vars l) v (l_used_vars l) (l_level l)
    (l_token_type l) (l_tok l) (l_tok_list l).
Definition with_used_vars v (l : st_locals) :=
  StLocals (l_string l) (l_set_vars l) (l_used_funcs l) v (l_level l)
    (l_token_type l) (l_tok l) (l_tok_list l).
Definition with_level v (l : st_locals) :=
  StLocals (l_string l) (l_set_vars l) (l_used_funcs l) (l_used_vars l) v
    (l_token_type l) (l_tok l) (l_tok_list l).
Definition with_tok v (l : st_locals) :=
  StLocals (l_string l) (l_set_vars l) (l_used_funcs l) (l_used_vars l) (l_level l)
    (l_token_type l) v (l_tok_list l).
(** [token_type, tok = ...]. *)
Definition with_token (t : tok_type * string) (l : st_locals) :=
  StLocals (l_string l) (l_set_vars l) (l_used_funcs l) (l_used_vars l) (l_level l)
    t.1 (KStr t.2) (l_tok_list l).
Definition with_tok_list v (l : st_locals) :=
  StLocals (l_string l) (l_set_vars l) (l_used_funcs l) (l_used_vars l) (l_level l)
    (l_token_type l) (l_tok l) v.

Definition add_string (x : string) (l : st_locals) : st_locals :=
  with_string (l_string l +:+ x) l.
Definition push_tok (t : tok_item) (l : st_locals) : st_locals :=
  with_tok_list (l_tok_list l ++ [t]) l.

Definition ST := (parser * st_locals)%type.

Definition liftP {A} (m : M parser A) : M ST A :=
  zoom fst (fun p s => (p, s.2)) m.
Definition getL : M ST st_locals := gets snd.
Definition modL (f : st_locals -> st_locals) : M ST unit :=
  modify (fun s => (s.1, f s.2)).
Definition liftPH {A} (m : M heap A) : M ST A := liftP (liftH m).

(** Run a loop on fresh local variables and return their final values;
    when the loop raises, the local variables are gone. *)
Definition run_locals (m : M ST unit) (l0 : st_locals) : M parser st_locals :=
  fun p =>
    match m (p, l0) with
    | Ok _ s => Ok s.2 s.1
    | Raise e s => Raise e s.1
    end.

(** The arguments of [_parse_statement]; [is_param_class] stands for
    [stmt_class=Param]. *)
Record st_args := StArgs {
  pre_used_token : option (tok_type * string);
  added_breaks : list string;
  is_param_class : bool;
  list_comp : bool
}.

Definition opening_brackets : list string := ["{"; "("; "["].
Definition closing_brackets : list string := ["}"; ")"; "]"].
Definition always_break : list string :=
  [";"; "import"; "from"; "class"; "def"; "try"; "except"; "finally"; "while";
   "return"; "yield"].
Definition not_first_break : list string := ["del"; "raise"].

(** The condition that ends the loop of [_parse_statement]. *)
Definition stmt_stops (breaks : list string) (l : st_locals) : bool :=
  ptok_in (l_tok l) always_break
  || (ptok_in (l_tok l) not_first_break && bool_decide (l_tok_list l = []))
  || (ptok_in (l_tok l) breaks && (l_level l <=? 0)).

(** The loop [for i, tok in enumerate(reversed(tok_list))] that looks for
    the bracket opening the list comprehension: [Some (Some i)] when it
    breaks at index [i], [Some None] when it runs to its end, [None] when an
    entry is a Lambda, which cannot be indexed (TypeError). *)
Fixpoint find_open (rev_toks : list tok_item) (i : nat) (other_level : Z)
  : option (option nat) :=
  match rev_toks with
  | [] => Some None
  | TLambda _ :: _ => None
  | t :: rest =>
      let text := match t with TRaw _ s _ => s | _ => "" end in
      let is_raw := match t with TRaw _ _ _ => true | _ => false end in
      let lvl :=
        if is_raw && str_in text closing_brackets then other_level - 1
        else if is_raw && str_in text opening_brackets then other_level + 1
        else other_level in
      if 0 <? lvl then Some (Some i) else find_open rest (S i) lvl
  end.

(** [tok_list[:-i], tok_list[-i:-1]]. *)
Definition split_for_comp (tok_list : list tok_item) (i : nat)
  : list tok_item * list tok_item :=
  match i with
  | O => ([], removelast tok_list)
  | _ =>
      let n := (length tok_list - i)%nat in
      (take n tok_list, removelast (drop n tok_list))
  end.

(** [Statement.get_code()] followed by [.replace('\n', '')]. *)
Definition stmt_code_flat (r : ref) : M heap string :=
  sd <- get_stmt r ;; ret (remove_newlines (code sd.2 +:+ newline)).

(** [ListComprehension.get_code]. *)
Definition lc_get_code (r : ref) : M heap string :=
  o <- deref r ;;
  match o with
  | OListComp st middle input =>
      a <- stmt_code_flat st ;;
      b <- stmt_code_flat middle ;;
      c <- stmt_code_flat input ;;
      ret (a +:+ " for " +:+ b +:+ " in " +:+ c)
  | _ => raise AttributeError
  end.

(** The source text of the expression of a list comprehension.  A Lambda
    does not occur among these entries: the loop [find_open] has visited
    them all and fails on a Lambda. *)
Fixpoint comp_src (toks : list tok_item) : M heap string :=
  match toks with
  | [] => ret ""
  | t :: rest =>
      a <- match t with
           | TRaw _ s _ => ret s
           | TName r => names <- get_names r ;; ret (name_code names)
           | TListComp r => lc_get_code r
           | TLambda _ => raise TypeError
           end ;;
      b <- comp_src rest ;;
      ret (a +:+ b)
  end.

(** The loop [while tok != ':'] that reads the parameters of a lambda. *)
Fixpoint lambda_params (fuel : nat) (parse_param : M parser (option ref * ptok))
    (params : list ref) : M ST (list ref) :=
  l <- getL ;;
  if ptok_is (l_tok l) ":" then ret params
  else
    match fuel with
    | O => raise OutOfFuel
    | S fuel' =>
        r <- liftP parse_param ;;
        modL (with_tok r.2) ;;
        match r.1 with
        | None => ret params
        | Some param => lambda_params fuel' parse_param (params ++ [param])
        end
    end.

(** [lambd.returns.append(ret)]. *)
Definition append_return (func : ref) (stmt : option ref) : M heap unit :=
  o <- deref func ;;
  match o with
  | OFunction s b f => store func (OFunction s b (set_returns (returns f ++ [stmt]) f))
  | _ => raise AttributeError
  end.

Section with_environment.

(** What the parser takes from outside this file: [literal_eval] and
    [cleandoc] of [_compatibility] ([None]: the call raises), and the list
    [keyword.kwlist] of the Python version at hand. *)
Variable literal_eval : string -> option literal.
Variable cleandoc : literal -> string.
Variable kwlist : list string.

(** [Scope.add_docstr]. *)
Definition add_docstr (self : option ref) (s : string) : M heap unit :=
  me <- get_scope_obj self ;;
  v <- of_option ValueError (literal_eval s) ;;
  update_scope_body me (set_docstr (cleandoc v)).

(** One round of the loop of [_parse_statement], inside its [try].
    [parse_statement] is the method itself, for the nested statements of a
    lambda and of a list comprehension. *)
Definition stmt_body (fuel : nat)
    (parse_statement : st_args -> M parser (option ref * ptok))
    (args : st_args) (first_pos : pos) : M ST unit :=
  p <- liftP get ;;
  cur <- liftP get_current ;;
  modL (push_tok (TRaw cur.1 cur.2 (start_pos p))) ;;
  l <- getL ;;
  let tok := l_tok l in
  if ptok_is tok "as" then
    modL (add_string " as ") ;;
    t <- liftP next ;;
    modL (with_token t) ;;
    if bool_decide (t.1 = NAME) then
      cur' <- liftP get_current ;;
      r <- liftP (_parse_dot_name fuel (Some cur')) ;;
      modL (with_token r.2) ;;
      match r.1 with
      | PName n =>
          modL (fun l => with_set_vars (l_set_vars l ++ [n]) l) ;;
          modL (push_tok (TName n)) ;;
          names <- liftPH (get_names n) ;;
          modL (add_string (name_code names))
      | _ => raise AttributeError
      end
    else ret tt
  else if ptok_is tok "lambda" then
    params <- lambda_params fuel
                (parse_statement (StArgs None [":"; ","] true false)) [] ;;
    l1 <- getL ;;
    if negb (ptok_is (l_tok l1) ":") then ret tt
    else
      lambd <- liftPH (new_function true (p_module p) None params (start_pos p) None) ;;
      r <- liftP (parse_statement (StArgs None [","] false false)) ;;
      modL (with_tok r.2) ;;
      match r.1 with
      | Some ret_stmt =>
          liftPH (set_parent ret_stmt (Some lambd)) ;;
          liftPH (append_return lambd (Some ret_stmt))
      | None => ret tt
      end ;;
      p2 <- liftP get ;;
      liftPH (set_parent lambd (scope p2)) ;;
      liftPH (set_end_pos lambd (Some (end_pos p2))) ;;
      modL (fun l => with_tok_list (removelast (l_tok_list l) ++ [TLambda lambd]) l)
  else if bool_decide (l_token_type l = NAME) then
    if ptok_is tok "for" then
      r <- liftP (parse_statement (StArgs None ["in"] false false)) ;;
      modL (with_tok r.2) ;;
      match r.1, ptok_is r.2 "in" with
      | Some middle, true =>
          r2 <- liftP (parse_statement (StArgs None [")"; "]"] false true)) ;;
          modL (with_tok r2.2) ;;
          match r2.1, ptok_in r2.2 [")"; "]"] with
          | Some in_clause, true =>
              l2 <- getL ;;
              found <- of_option TypeError (find_open (reverse (l_tok_list l2)) 0 0) ;;
              let parts := split_for_comp (l_tok_list l2) (default 0%nat found) in
              modL (with_tok_list parts.1) ;;
              src <- liftPH (comp_src parts.2) ;;
              p3 <- liftP get ;;
              st <- liftPH (new_statement false (p_module p3) src [] [] [] parts.2
                              first_pos (end_pos p3)) ;;
              liftPH (mfor [st; middle; in_clause]
                        (fun s => set_parent s (scope p3))) ;;
              lc <- liftPH (alloc (OListComp st middle in_clause)) ;;
              modL (with_tok (KObj lc)) ;;
              modL (push_tok (TListComp lc)) ;;
              when (list_comp args) (modL (with_string "")) ;;
              c <- liftPH (lc_get_code lc) ;;
              modL (add_string c)
          | in_clause, _ =>
              p3 <- liftP get ;;
              liftPH (set_parent middle (scope p3)) ;;
              match in_clause with
              | None => liftP push_last_back
              | Some ic =>
                  liftPH (set_parent ic (scope p3)) ;;
                  liftPH (set_parent ic (scope p3))
              end
          end
      | None, _ => modL (fun l => with_level (l_level l - 1) l)
      | Some middle, false =>
          p3 <- liftP get ;;
          liftPH (set_parent middle (scope p3))
      end
    else
      r <- liftP (_parse_dot_name fuel (Some cur)) ;;
      modL (with_token r.2) ;;
      modL (fun l => with_tok_list (removelast (l_tok_list l)) l) ;;
      match r.1 with
      | PName n =>
          modL (push_tok (TName n)) ;;
          (if streq r.2.2 "(" then modL (fun l => with_used_funcs (l_used_funcs l ++ [n]) l)
           else modL (fun l => with_used_vars (l_used_vars l ++ [n]) l)) ;;
          l3 <- getL ;;
          when (match last_char (l_string l3) with
                | Some c => is_word_or_quote c
                | None => false
                end)
               (modL (add_string " ")) ;;
          names <- liftPH (get_names n) ;;
          modL (add_string (name_code names))
      | _ => ret tt
      end
  else
    match tok with
    | KObj _ => raise AttributeError
    | KStr s =>
        (if is_assignment_op s then
           when (l_level l =? 0)
                (modL (fun l => with_used_vars []
                                  (with_set_vars (l_set_vars l ++ l_used_vars l) l)))
         else if str_in s opening_brackets then
           modL (fun l => with_level (l_level l + 1) l)
         else if str_in s closing_brackets then
           modL (fun l => with_level (l_level l - 1) l)
         else ret tt) ;;
        modL (add_string s) ;;
        t <- liftP next ;;
        modL (with_token t)
    end.

(** The loop of [_parse_statement]: an exception of the token source ends
    it ([break]); everything else a round does is kept. *)
Definition stmt_round (body : M ST unit) : M ST bool :=
  try_catch (body ;; ret true) is_stop (fun _ => ret false).

(** The loop [while token_type == tokenize.COMMENT]. *)
Fixpoint skip_comments (fuel : nat) (t : tok_type * string)
  : M parser (tok_type * string) :=
  if bool_decide (t.1 = COMMENT) then
    match fuel with
    | O => raise OutOfFuel
    | S fuel' => next ;; t' <- next ;; skip_comments fuel' t'
    end
  else ret t.

(** [_parse_statement] around its loop. *)
Definition parse_statement_gen (fuel : nat)
    (loop : st_args -> pos -> list string -> M ST unit) (args : st_args)
  : M parser (option ref * ptok) :=
  t0 <- match pre_used_token args with
        | Some t => ret t
        | None => next
        end ;;
  t <- skip_comments fuel t0 ;;
  p0 <- get ;;
  let first_pos := start_pos p0 in
  let breaks := [newline; ":"; ")"] ++ added_breaks args in
  l <- run_locals (loop args first_pos breaks)
         (StLocals "" [] [] [] 0 t.1 (KStr t.2) []) ;;
  let tok := l_tok l in
  if streq (l_string l) "" then ret (None, tok)
  else
    p <- get ;;
    if freshscope p && negb (no_docstr p)
       && bool_decide (length (l_tok_list l) = 1%nat)
       && bool_decide (fst <$> last_token p = Some STRING)
    then
      liftH (add_docstr (scope p) (default "" (snd <$> last_token p))) ;;
      ret (None, tok)
    else
      stmt <- liftH (new_statement (is_param_class args) (p_module p) (l_string l)
                       (l_set_vars l) (l_used_funcs l) (l_used_vars l) (l_tok_list l)
                       first_pos (end_pos p)) ;;
      _check_user_stmt stmt ;;
      when (ptok_in tok (always_break ++ not_first_break)) push_last_back ;;
      ret (Some stmt, tok).

(** The loop of [_parse_statement], with the method itself for the nested
    statements. *)
Fixpoint stmt_loop (fuel : nat) (args : st_args) (first_pos : pos)
    (breaks : list string) : M ST unit :=
  match fuel with
  | O => raise OutOfFuel
  | S fuel' =>
      l <- getL ;;
      if stmt_stops breaks l then ret tt
      else
        go <- stmt_round
                (stmt_body fuel' (parse_statement_gen fuel' (stmt_loop fuel'))
                   args first_pos) ;;
        if go : bool then stmt_loop fuel' args first_pos breaks else ret tt
  end.

Definition _parse_statement (fuel : nat) (args : st_args)
  : M parser (option ref * ptok) :=
  parse_statement_gen fuel (stmt_loop fuel) args.

(** ** Headers of functions and classes *)

(** [Param.add_annotation]. *)
Definition add_annotation (self : ref) (annotation_stmt : ref) : M heap unit :=
  set_parent annotation_stmt (Some (use_as_parent self)) ;;
  update_param self (fun pd =>
    ParamData (position_nr pd) (is_generated pd) (Some annotation_stmt)
      (parent_function pd)).

(** The loop of [_parse_parentheses]; [tok] is [None] before the first
    round. *)
Fixpoint parentheses_loop (fuel : nat) (tok : option ptok) (names : list ref)
    (pos : Z) : M parser (list ref) :=
  if match tok with Some t => ptok_in t [")"; ":"] | None => false end
  then ret names
  else
    match fuel with
    | O => raise OutOfFuel
    | S fuel' =>
        r <- _parse_statement fuel' (StArgs None [","; ":"] true false) ;;
        tok' <- match r.1 with
                | Some param =>
                    if ptok_is r.2 ":" then
                      r2 <- _parse_statement fuel' (StArgs None [","; ":"] false false) ;;
                      match r2.1 with
                      | Some a => liftH (add_annotation param a)
                      | None => ret tt
                      end ;;
                      ret r2.2
                    else ret r.2
                | None => ret r.2
                end ;;
        match r.1 with
        | Some param =>
            sd <- liftH (get_stmt param) ;;
            if negb (bool_decide (set_vars sd.2 = []))
               || negb (bool_decide (used_vars sd.2 = []))
            then
              liftH (update_param param (fun pd =>
                       ParamData (Some pos) (is_generated pd) (annotation_stmt pd)
                         (parent_function pd))) ;;
              parentheses_loop fuel' (Some tok') (names ++ [param]) (pos + 1)
            else parentheses_loop fuel' (Some tok') names pos
        | None => parentheses_loop fuel' (Some tok') names pos
        end
    end.

Definition _parse_parentheses (fuel : nat) : M parser (list ref) :=
  parentheses_loop fuel None [] 0.

(** The update of [user_scope] at the end of [_parse_function] and
    [_parse_class]; the new scope differs from every older object. *)
Definition note_user_scope (new_scope : ref) (first_pos : pos) : M parser unit :=
  p <- get ;;
  when (match user_scope p, user_position p with
        | Some _, Some up => pos_lt first_pos up
        | _, _ => false
        end)
       (modify (set_user_scope (Some new_scope))).

(** [Parser._parse_function]. *)
Definition _parse_function (fuel : nat) : M parser (option ref) :=
  p0 <- get ;;
  let first_pos := start_pos p0 in
  t <- next ;;
  if negb (bool_decide (t.1 = NAME)) then ret None
  else
    p1 <- get ;;
    fname <- liftH (new_name (p_module p1) [(t.2, start_pos p1)] (start_pos p1)
                      (Some (end_pos p1)) None) ;;
    t2 <- next ;;
    if negb (streq t2.2 "(") then ret None
    else
      params <- _parse_parentheses fuel ;;
      t3 <- next ;;
      ac <- (if str_in t3.2 ["-"; "->"] then
               ok <- (if streq t3.2 "-" then
                        t4 <- next ;; ret (streq t4.2 ">")
                      else ret true) ;;
               if ok : bool then
                 r <- _parse_statement fuel (StArgs None [":"] false false) ;;
                 ret (Some r)
               else ret None
             else ret (Some (None, KStr t3.2))) ;;
      match ac with
      | None => ret None
      | Some (annotation, colon) =>
          if negb (ptok_is colon ":") then ret None
          else
            p2 <- get ;;
            sc <- liftH (new_function false (p_module p2) (Some fname) params
                           first_pos annotation) ;;
            note_user_scope sc first_pos ;;
            ret (Some sc)
      end.

(** [Parser._parse_class]. *)
Definition _parse_class (fuel : nat) : M parser (option ref) :=
  p0 <- get ;;
  let first_pos := start_pos p0 in
  t <- next ;;
  if negb (bool_decide (t.1 = NAME)) then ret None
  else
    p1 <- get ;;
    cname <- liftH (new_name (p_module p1) [(t.2, start_pos p1)] (start_pos p1)
                      (Some (end_pos p1)) None) ;;
    t2 <- next ;;
    sn <- (if streq t2.2 "(" then
             super <- _parse_parentheses fuel ;;
             t3 <- next ;;
             ret (super, t3.2)
           else ret ([], t2.2)) ;;
    if negb (streq sn.2 ":") then ret None
    else
      p2 <- get ;;
      sc <- liftH (new_class (p_module p2) cname sn.1 first_pos) ;;
      note_user_scope sc first_pos ;;
      ret (Some sc).

(** ** [Parser._parse_import_list] *)

(** [continue_kw]. *)
Definition continue_kw : list string :=
  [","; ";"; newline; ")"] ++ filter (fun k => k ≠ "as") (remove_dups kwlist).

(** The loop [while tok not in continue_kw]. *)
Fixpoint skip_to_continue (fuel : nat) (tok : string) : M parser string :=
  if str_in tok continue_kw then ret tok
  else
    match fuel with
    | O => raise OutOfFuel
    | S fuel' => t <- next ;; skip_to_continue fuel' t.2
    end.

Definition pyname_ref (n : pyname) : option ref :=
  match n with PName r => Some r | _ => None end.

(** The loop of [_parse_import_list]; it yields the triples
    [(dotted_name, alias, defunct)]. *)
Fixpoint import_list_loop (fuel : nat) (brackets : bool)
    (imports : list (option ref * pyname * bool))
  : M parser (list (option ref * pyname * bool)) :=
  match fuel with
  | O => raise OutOfFuel
  | S fuel' =>
      t <- next ;;
      if bool_decide (t.1 = ENDMARKER) then ret imports
      else
        when (brackets && streq t.2 newline) (next ;; ret tt) ;;
        brackets' <- (if streq t.2 "(" then next ;; ret true else ret brackets) ;;
        cur <- get_current ;;
        r <- _parse_dot_name fuel' (Some cur) ;;
        let defunct := negb (pyname_truthy r.1) in
        r2 <- (if streq r.2.2 "as" then
                 n2 <- _parse_dot_name fuel' None ;; ret (n2.1, n2.2.2)
               else ret (PNone, r.2.2)) ;;
        let imports' := imports ++ [(pyname_ref r.1, r2.1, defunct)] in
        tok <- skip_to_continue fuel' r2.2 ;;
        if negb (streq tok "," || (brackets' && streq tok newline)) then ret imports'
        else import_list_loop fuel' brackets' imports'
  end.

Definition _parse_import_list (fuel : nat)
  : M parser (list (option ref * pyname * bool)) :=
  import_list_loop fuel false [].

(** ** [Parser._parse] *)

(** The column of [self.scope.start_pos]. *)
Definition scope_column : M parser Z :=
  p <- get ;;
  ro <- liftH (deref_opt (scope p)) ;;
  sp <- liftH (get_start_pos ro.1) ;;
  ret sp.2.

(** [self.scope.end_pos = self.start_pos; self.scope = self.scope.parent].
    The test for a module of the fast parser that follows in the source is
    never true without a [top_module]. *)
Definition leave_scope : M parser unit :=
  p <- get ;;
  ro <- liftH (deref_opt (scope p)) ;;
  liftH (set_end_pos ro.1 (Some (start_pos p))) ;;
  parent <- liftH (get_parent ro.1) ;;
  modify (set_scope parent).

(** The loop [while token_type == tokenize.DEDENT and self.scope != self.module]. *)
Fixpoint dedent_loop (fuel : nat) (t : tok_type * string)
  : M parser (tok_type * string) :=
  p <- get ;;
  if bool_decide (t.1 = DEDENT) && negb (bool_decide (scope p = Some (p_module p)))
  then
    match fuel with
    | O => raise OutOfFuel
    | S fuel' =>
        t' <- next ;;
        p' <- get ;;
        col <- scope_column ;;
        when ((start_pos p').2 <=? col) leave_scope ;;
        dedent_loop fuel' t'
    end
  else ret t.

(** The second loop, for code that is not indented as it should be. *)
Fixpoint unindent_loop (fuel : nat) (t : tok_type * string) : M parser unit :=
  p <- get ;;
  col <- scope_column ;;
  if ((start_pos p).2 <=? col)
     && (bool_decide (t.1 = NAME) || str_in t.2 ["("; "["])
     && negb (bool_decide (scope p = Some (p_module p)))
  then
    match fuel with
    | O => raise OutOfFuel
    | S fuel' => leave_scope ;; unindent_loop fuel' t
    end
  else ret tt.

(** [Simple.get_parent_until(Function)]. *)
Fixpoint get_parent_until_function (fuel : nat) (r : ref) : M heap ref :=
  p <- get_parent r ;;
  match p with
  | None => ret r
  | Some q =>
      o <- deref r ;;
      match o with
      | OFunction _ _ _ => ret r
      | _ =>
          match fuel with
          | O => raise OutOfFuel
          | S fuel' => get_parent_until_function fuel' q
          end
      end
  end.

(** One Import of an [import] statement. *)
Definition emit_import (first_pos : pos) (triple : option ref * pyname * bool)
  : M parser ref :=
  p <- get ;;
  liftH (new_import (p_module p) first_pos (end_pos p) triple.1.1 triple.1.2 None
           false 0 triple.2).

(** One Import of a [from] statement: a name whose first part is the star
    sets [star] and clears the namespace. *)
Definition emit_from_import (first_pos : pos) (from_mod : option ref)
    (relative_count : Z) (defunct : bool) (triple : option ref * pyname * bool)
  : M parser ref :=
  p <- get ;;
  star <- match triple.1.1 with
          | None => ret false
          | Some name =>
              names <- liftH (get_names name) ;;
              match names with
              | n0 :: _ => ret (streq n0.1 "*")
              | [] => raise IndexError
              end
          end ;;
  liftH (new_import (p_module p) first_pos (end_pos p)
           (if star : bool then None else triple.1.1) triple.1.2 from_mod star
           relative_count (defunct || triple.2)).

(** The loop [while 1] that counts the dots of a relative import. *)
Fixpoint count_dots (fuel : nat) (relative_count : Z)
  : M parser (Z * (tok_type * string)) :=
  match fuel with
  | O => raise OutOfFuel
  | S fuel' =>
      t <- next ;;
      if negb (streq t.2 ".") then ret (relative_count, t)
      else count_dots fuel' (relative_count + 1)
  end.

(** [str(mod)]. *)
Definition pyname_str (n : pyname) : M heap string :=
  match n with
  | PName r => names <- get_names r ;; ret (name_code names)
  | PNone => ret "None"
  | PEmpty => ret "[]"
  end.

(** The loop that reads the statements after [if], [while], [try], [with]
    and their continuations. *)
Fixpoint flow_inits (fuel : nat) (command : string) (added : list string)
    (first : bool) (tok : ptok) (inits : list ref) : M parser (list ref * ptok) :=
  if first || (streq command "with" && negb (ptok_in tok [":"; newline])) then
    match fuel with
    | O => raise OutOfFuel
    | S fuel' =>
        r <- _parse_statement fuel' (StArgs None added false false) ;;
        tok' <- (if streq command "except" && ptok_in r.2 added then
                   n <- _parse_dot_name fuel' None ;;
                   match n.1 with
                   | PName nm =>
                       ro <- liftH (deref_opt r.1) ;;
                       names <- liftH (get_names nm) ;;
                       liftH (update_stmt ro.1 (fun d =>
                                set_code (code d +:+ "," +:+ name_code names)
                                  (set_set_vars (set_vars d ++ [nm]) d)))
                   | _ => ret tt
                   end ;;
                   ret (KStr n.2.2)
                 else ret r.2) ;;
        flow_inits fuel' command added false tok' (inits ++ option_list r.1)
    end
  else ret (inits, tok).

Definition extended_flow : list string := ["else"; "elif"; "except"; "finally"].
Definition statement_toks : list string := ["{"; "["; "("; "`"].

(** [self.scope.statements[-1].set_next(f)]. *)
Definition set_next_on_last (self : option ref) (f : ref) : M heap ref :=
  me <- get_scope_obj self ;;
  b <- get_scope_body me ;;
  match last (statements b) with
  | None => raise IndexError
  | Some s => set_next s f
  end.

(** [func.is_generator = True]. *)
Definition set_generator (func : ref) : M heap unit :=
  update_scope_body func (set_is_generator (Some true)).

(** [stmt.start_pos = s] where [stmt] may be [None]. *)
Definition set_start_pos_opt (r : option ref) (v : pos) : M heap unit :=
  match r with
  | Some r => set_start_pos r v
  | None => raise AttributeError
  end.

(** The body of the loop of [_parse] for one token of the iterator. *)
Definition parse_round (fuel : nat) (t0 : tok_type * string) : M parser unit :=
  t <- dedent_loop fuel t0 ;;
  unindent_loop fuel t ;;
  p <- get ;;
  let use_as_parent_scope := scope p in
  let first_pos := start_pos p in
  let tok := t.2 in
  if streq tok "def" then
    func <- _parse_function fuel ;;
    match func with
    | None => ret tt
    | Some func =>
        modify (set_freshscope true) ;;
        p1 <- get ;;
        sub <- liftH (add_scope (scope p1) func (_decorators p1)) ;;
        modify (set_scope (Some sub)) ;;
        modify (set_decorators [])
    end
  else if streq tok "class" then
    cls <- _parse_class fuel ;;
    match cls with
    | None => ret tt
    | Some cls =>
        modify (set_freshscope true) ;;
        p1 <- get ;;
        sub <- liftH (add_scope (scope p1) cls (_decorators p1)) ;;
        modify (set_scope (Some sub)) ;;
        modify (set_decorators [])
    end
  else if streq tok "import" then
    imports <- _parse_import_list fuel ;;
    mfor imports (fun triple =>
      i <- emit_import first_pos triple ;;
      _check_user_stmt i ;;
      p1 <- get ;;
      liftH (add_import (scope p1) i)) ;;
    when (bool_decide (imports = []))
         (i <- emit_import first_pos (None, PNone, true) ;; _check_user_stmt i) ;;
    modify (set_freshscope false)
  else if streq tok "from" then
    dots <- count_dots fuel 0 ;;
    let relative_count := dots.1 in
    cur <- get_current ;;
    r <- _parse_dot_name fuel (Some cur) ;;
    mod_str <- liftH (pyname_str r.1) ;;
    mt <- (if streq mod_str "import" && negb (relative_count =? 0) then
             push_last_back ;; ret (None, "import")
           else ret (pyname_ref r.1, r.2.2)) ;;
    let from_mod := mt.1 in
    defunct <- (if (bool_decide (from_mod = None) && (relative_count =? 0))
                   || negb (streq mt.2 "import")
                then
                  when (negb (streq mt.2 "import")) push_last_back ;;
                  ret true
                else ret false) ;;
    names <- _parse_import_list fuel ;;
    mfor names (fun triple =>
      i <- emit_from_import first_pos from_mod relative_count defunct triple ;;
      _check_user_stmt i ;;
      p1 <- get ;;
      liftH (add_import (scope p1) i)) ;;
    modify (set_freshscope false)
  else if streq tok "for" then
    r <- _parse_statement fuel (StArgs None ["in"] false false) ;;
    if ptok_is r.2 "in" then
      r2 <- _parse_statement fuel (StArgs None [] false false) ;;
      if ptok_is r2.2 ":" then
        p1 <- get ;;
        f <- liftH (new_for_flow (p_module p1) (option_list r2.1) first_pos r.1) ;;
        s <- liftH (add_statement (scope p1) f) ;;
        modify (set_scope (Some s))
      else
        match r2.1 with
        | Some statement => liftH (set_parent statement use_as_parent_scope)
        | None => ret tt
        end ;;
        match r.1 with
        | Some set_stmt => liftH (set_parent set_stmt use_as_parent_scope)
        | None => ret tt
        end
    else
      match r.1 with
      | Some set_stmt => liftH (set_parent set_stmt use_as_parent_scope)
      | None => ret tt
      end
  else if str_in tok (["if"; "while"; "try"; "with"] ++ extended_flow) then
    let command := tok in
    let added := if str_in command ["except"; "with"] then [","] else [] in
    it <- flow_inits fuel command added true (KStr tok) [] ;;
    if ptok_is it.2 ":" then
      p1 <- get ;;
      f <- liftH (new_flow (p_module p1) command it.1 first_pos) ;;
      s <- (if str_in command extended_flow then
              liftH (try_catch (set_next_on_last (scope p1) f)
                       is_attribute_or_index_error
                       (fun _ => add_statement (scope p1) f))
            else liftH (add_statement (scope p1) f)) ;;
      modify (set_scope (Some s))
    else
      mfor it.1 (fun i => liftH (set_parent i use_as_parent_scope))
  else if str_in tok ["return"; "yield"] then
    let s := start_pos p in
    modify (set_freshscope false) ;;
    ro <- liftH (deref_opt (scope p)) ;;
    func <- liftH (with_size (fun n => get_parent_until_function n ro.1)) ;;
    when (streq tok "yield") (liftH (set_generator func)) ;;
    r <- _parse_statement fuel (StArgs None [] false false) ;;
    match r.1 with
    | Some stmt => liftH (set_parent stmt use_as_parent_scope)
    | None => ret tt
    end ;;
    liftH (try_catch (append_return func r.1 ;; set_start_pos_opt r.1 s)
             is_attribute_error (fun _ => ret tt))
  else if streq tok "global" then
    cur <- get_current ;;
    r <- _parse_statement fuel (StArgs (Some cur) [] false false) ;;
    match r.1 with
    | Some stmt =>
        p1 <- get ;;
        liftH (add_statement (scope p1) stmt) ;;
        sd <- liftH (get_stmt stmt) ;;
        mfor (used_vars sd.2) (fun name => liftH (add_global (p_module p1) name))
    | None => ret tt
    end
  else if streq tok "@" then
    r <- _parse_statement fuel (StArgs None [] false false) ;;
    modify (fun p => set_decorators (_decorators p ++ [r.1]) p)
  else if streq tok "pass" then ret tt
  else if streq tok "assert" then
    r <- _parse_statement fuel (StArgs None [] false false) ;;
    liftH (set_parent_opt r.1 use_as_parent_scope) ;;
    p1 <- get ;;
    me <- liftH (get_scope_obj (scope p1)) ;;
    liftH (update_scope_body me (fun b =>
             set_asserts (asserts b ++ option_list r.1) b))
  else if bool_decide (t.1 = NAME) || bool_decide (t.1 = STRING)
          || bool_decide (t.1 = NUMBER) || str_in tok statement_toks then
    cur <- get_current ;;
    r <- _parse_statement fuel (StArgs (Some cur) [] false false) ;;
    match r.1 with
    | Some stmt => p1 <- get ;; liftH (add_statement (scope p1) stmt) ;; ret tt
    | None => ret tt
    end ;;
    modify (set_freshscope false)
  else ret tt.

(** The loop [for token_type, tok in self.iterator]: StopIteration of the
    iterator ends it. *)
Fixpoint parse_loop (fuel : nat) : M parser unit :=
  match fuel with
  | O => raise OutOfFuel
  | S fuel' =>
      r <- try_catch (t <- next ;; ret (Some t))
             (fun e => bool_decide (e = StopIteration)) (fun _ => ret None) ;;
      match r with
      | None => ret tt
      | Some t =>
          p <- get ;;
          liftH (update_module (p_module p) (set_temp_used_names [])) ;;
          parse_round fuel' t ;;
          parse_loop fuel'
      end
  end.

Definition _parse (fuel : nat) : M parser unit :=
  modify (set_decorators []) ;;
  modify (set_freshscope true) ;;
  parse_loop fuel.

(** ** [Parser.__init__] *)

(** The parser before [_parse] runs: the store holds the module alone, the
    scope is the module.  The token source is given by its tokens; they are
    what [common.NoErrorTokenizer] delivers for [source + newline]. *)
Definition initial_parser (tokens : list token) (multilevel : bool)
    (module_path : option string) (user_pos : option pos) (no_doc : bool)
    (offset : Z) : parser :=
  Parser [OModule (Simple None 0%nat (offset + 1, 0) None) empty_scope_body
            (ModuleData module_path [] ∅ [] 0)]
         (Tokenizer [] tokens None multilevel)
         user_pos None None no_doc 0%nat (Some 0%nat) None None (1, 0) (1, 0) ""
         [] false.

(** What [__init__] does on that state: parse, with the exceptions of the
    token source caught, give the unused decorators a parent, and set the
    positions of the parser and of the module. *)
Definition parser_init_body (fuel : nat) : M parser unit :=
  try_catch (_parse fuel) is_stop (fun _ => ret tt) ;;
  p <- get ;;
  mfor (_decorators p)
       (fun d => liftH (set_parent_opt d (Some (p_module p)))) ;;
  sp <- liftH (get_start_pos (p_module p)) ;;
  modify (set_start_pos_p sp) ;;
  p' <- get ;;
  liftH (set_end_pos (p_module p') (Some (end_pos p'))).

Definition Parser_init (fuel : nat) (tokens : list token) (multilevel : bool)
    (module_path : option string) (user_pos : option pos) (no_doc : bool)
    (offset : Z) : outcome parser unit :=
  parser_init_body fuel
    (initial_parser tokens multilevel module_path user_pos no_doc offset).

End with_environment.

(** ** Reading the call tree out of the store *)

(** The tree below a Call or an Array, as the spec writes it:
    [Call(name, kind)] and [Array(type, values)].  A Name is shown by its
    code, a ListComprehension or a Lambda by its reference. *)
#[local] Set Warnings "-register-all".
Inductive ctree :=
| VCall (name : string + literal) (ty : call_type) (next execution : option ctree)
| VArray (ty : array_type) (vals key_fields : list (list ctree))
         (next execution : option ctree)
| VOp (s : string)
| VObj (r : ref).

Fixpoint view (fuel : nat) (h : heap) (r : ref) : option ctree :=
  match fuel with
  | O => None
  | S fuel' =>
      let sub (o : option ref) : option (option ctree) :=
        match o with
        | None => Some None
        | Some x => Some <$> view fuel' h x
        end in
      let field (f : list item) : option (list ctree) :=
        mapM (fun i => match i with
                       | IStr s => Some (VOp s)
                       | IObj x =>
                           match h !! x with
                           | Some (OCall _ _) | Some (OArray _ _) => view fuel' h x
                           | _ => Some (VObj x)
                           end
                       end) f in
      match h !! r with
      | Some (OCall c ty) =>
          name ← match c_name c with
                  | Some (PayName n) =>
                      match h !! n with
                      | Some (OName _ names) => Some (inl (name_code names))
                      | _ => None
                      end
                  | Some (PayLit v) => Some (inr v)
                  | None => None
                  end;
          nx ← sub (c_next c);
          ex ← sub (c_execution c);
          Some (VCall name ty nx ex)
      | Some (OArray c a) =>
          vs ← mapM field (values a);
          ks ← mapM field (keys a);
          nx ← sub (c_next c);
          ex ← sub (c_execution c);
          Some (VArray (a_type a) vs ks nx ex)
      | _ => None
      end
  end.

(** The codes of a list of Name objects. *)
Definition name_codes (h : heap) (l : list ref) : list string :=
  omap (fun r => match h !! r with
                 | Some (OName _ names) => Some (name_code names)
                 | _ => None
                 end) l.

(** The module a parser has built. *)
Definition module_of (p : parser) : option (scope_body * module_data) :=
  match p_heap p !! p_module p with
  | Some (OModule _ b m) => Some (b, m)
  | _ => None
  end.

Definition heap_stmt (h : heap) (r : ref) : option stmt_data :=
  match h !! r with
  | Some (OStatement _ d) => Some d
  | _ => None
  end.

Definition heap_import (h : heap) (r : ref) : option import_data :=
  match h !! r with
  | Some (OImport _ i) => Some i
  | _ => None
  end.

(** The pairs [(operator, tree)] of [_assignment_details], read as trees. *)
Definition view_details (fuel : nat) (h : heap) (l : list (string * ref))
  : option (list (string * ctree)) :=
  mapM (fun p : string * ref => t ← view fuel h p.2; Some (p.1, t)) l.

(** ** api/helpers.py: [check_error_statements] *)

Module helpers.

(** Modelled from the spec: the nodes of the parse tree ([jedi.parser.tree])
    and the error statements of the parser are not part of the files at
    hand.  A node has a start and an end position; a [Name] and an inner
    [Node] with a type and children are told apart by [isinstance]; a
    keyword or operator leaf compares equal to the string of its value. *)
Inductive node :=
| Name (value : string) (start_pos end_pos : pos)
| Leaf (value : string) (start_pos end_pos : pos)
| Node (type : string) (children : list node) (start_pos end_pos : pos).

Definition node_start (n : node) : pos :=
  match n with Name _ s _ | Leaf _ s _ | Node _ _ s _ => s end.
Definition node_end (n : node) : pos :=
  match n with Name _ _ e | Leaf _ _ e | Node _ _ _ e => e end.

(** [node == s] for a string [s]. *)
Definition node_is (n : node) (s : string) : bool :=
  match n with Leaf v _ _ => streq v s | _ => false end.

(** An entry of [module.error_statement_stacks]. *)
Record error_statement := ErrorStatement {
  first_type : string;
  first_pos : pos;
  next_start_pos : pos;
  stack : list (string * list node)
}.

Definition result := (option (list node) * Z * bool * bool)%type.

(** [children[::2]]. *)
Fixpoint every_second (l : list node) : list node :=
  match l with
  | [] => []
  | [x] => [x]
  | x :: _ :: rest => x :: every_second rest
  end.

(** The inner generator [check_dotted]. *)
Definition check_dotted (pos : pos) (children : list node) : list node :=
  filter (fun name => pos_le (node_start name) pos = true) (every_second children).

(** The loop over the nodes of an [import_from] entry; [break] ends it. *)
Fixpoint import_from_nodes (pos : pos) (nodes : list node)
    (acc : list node * Z * bool) : list node * Z * bool :=
  match nodes with
  | [] => acc
  | n :: rest =>
      if pos_le pos (node_start n) then acc
      else
        let '(names, level, only_modules) := acc in
        match n with
        | Node ty children _ _ =>
            if streq ty "dotted_name"
            then import_from_nodes pos rest (names ++ check_dotted pos children, level, only_modules)
            else import_from_nodes pos rest acc
        | Leaf v _ _ =>
            if streq v "." || streq v "..."
            then import_from_nodes pos rest (names, level + strlen v, only_modules)
            else if streq v "import"
            then import_from_nodes pos rest (names, level, false)
            else import_from_nodes pos rest acc
        | Name _ _ _ => import_from_nodes pos rest (names ++ [n], level, only_modules)
        end
  end.

(** The loop of [importer_from_error_statement] over the stack; indexing
    an empty list of nodes raises IndexError. *)
Fixpoint importer_loop (pos : pos) (st : list (string * list node))
    (names : list node) (level : Z) (only_modules unfinished_dotted : bool)
  : exn + result :=
  match st with
  | [] => inr (Some names, level, only_modules, unfinished_dotted)
  | (typ, nodes) :: rest =>
      if streq typ "dotted_name" then
        match last nodes with
        | None => inl IndexError
        | Some l =>
            importer_loop pos rest (names ++ check_dotted pos nodes) level
              only_modules (if node_is l "." then true else unfinished_dotted)
        end
      else if streq typ "import_name" then
        match nodes with
        | [] => inl IndexError
        | n0 :: _ =>
            if pos_le (node_start n0) pos && pos_le pos (node_end n0)
            then inr (None, 0, false, false)
            else importer_loop pos rest names level only_modules unfinished_dotted
        end
      else if streq typ "import_from" then
        let '(names', level', only') :=
          import_from_nodes pos nodes (names, level, only_modules) in
        importer_loop pos rest names' level' only' unfinished_dotted
      else importer_loop pos rest names level only_modules unfinished_dotted
  end.

Definition importer_from_error_statement (e : error_statement) (pos : pos)
  : exn + result :=
  importer_loop pos (stack e) [] 0 true false.

Definition import_error (e : error_statement) : bool :=
  str_in (first_type e) ["import_from"; "import_name"].

Definition error_on_pos (e : error_statement) (pos : pos) : bool :=
  pos_lt (first_pos e) pos && pos_le pos (next_start_pos e).

(** [check_error_statements(module, pos)], on the list
    [module.error_statement_stacks]. *)
Fixpoint check_error_statements (error_statement_stacks : list error_statement)
    (pos : pos) : exn + result :=
  match error_statement_stacks with
  | [] => inr (None, 0, false, false)
  | error_stmt :: rest =>
      if import_error error_stmt && error_on_pos error_stmt pos
      then importer_from_error_statement error_stmt pos
      else check_error_statements rest pos
  end.

End helpers.

(** ** The token sequences of the sources the claims name *)

(** Modelled from the spec: the tokenizer is outside the files at hand, so
    a source text is given by the tokens Python's [tokenize] delivers for
    it, once a newline is appended: kind, text, start and end position (the
    line is 1-based, the column 0-based) and the line the token is on. *)
Definition tk (line : string) (ty : tok_type) (text : string) (l c1 c2 : Z) : token :=
  Token ty text (l, c1) (l, c2) line.

Definition endmarker (l : Z) : token := Token ENDMARKER "" (l, 0) (l, 0) "".

(** [x = 1] *)
Definition tokens_x_eq_1 : list token :=
  let line := "x = 1" +:+ newline in
  [tk line NAME "x" 1 0 1; tk line OP "=" 1 2 3; tk line NUMBER "1" 1 4 5;
   tk line NEWLINE newline 1 5 6; endmarker 2].

(** [from .. import x, y as z] *)
Definition tokens_from_import : list token :=
  let line := "from .. import x, y as z" +:+ newline in
  [tk line NAME "from" 1 0 4; tk line OP "." 1 5 6; tk line OP "." 1 6 7;
   tk line NAME "import" 1 8 14; tk line NAME "x" 1 15 16; tk line OP "," 1 16 17;
   tk line NAME "y" 1 18 19; tk line NAME "as" 1 20 22; tk line NAME "z" 1 23 24;
   tk line NEWLINE newline 1 24 25; endmarker 2].

(** [from m import *] *)
Definition tokens_from_import_star : list token :=
  let line := "from m import *" +:+ newline in
  [tk line NAME "from" 1 0 4; tk line NAME "m" 1 5 6; tk line NAME "import" 1 7 13;
   tk line OP "*" 1 14 15; tk line NEWLINE newline 1 15 16; endmarker 2].


(** [assert] *)
Definition tokens_assert : list token :=
  let line := "assert" +:+ newline in
  [tk line NAME "assert" 1 0 6; tk line NEWLINE newline 1 6 7; endmarker 2].


(** A [literal_eval] for decimal integer literals, as far as the examples
    need one: every other text is taken to raise. *)
Definition digit_value (c : ascii) : option Z :=
  let n := Z.of_nat (Stdlib.Strings.Ascii.nat_of_ascii c) in
  if (48 <=? n) && (n <=? 57) then Some (n - 48) else None.

Fixpoint decimal_value (s : string) (acc : Z) : option Z :=
  match s with
  | EmptyString => Some acc
  | String c s' =>
      match digit_value c with
      | Some d => decimal_value s' (10 * acc + d)
      | None => None
      end
  end.

Definition decimal_literal_eval (s : string) : option literal :=
  match s with
  | EmptyString => None
  | _ => LitInt <$> decimal_value s 0
  end.

(** A [cleandoc] that leaves the text of a string as it is. *)
Definition plain_cleandoc (v : literal) : string :=
  match v with
  | LitStr s => s
  | LitInt _ => ""
  | LitOther s => s
  end.

(** [keyword.kwlist] of Python 2.7. *)
Definition kwlist_py27 : list string :=
  ["and"; "as"; "assert"; "break"; "class"; "continue"; "def"; "del"; "elif";
   "else"; "except"; "exec"; "finally"; "for"; "from"; "global"; "if"; "import";
   "in"; "is"; "lambda"; "not"; "or"; "pass"; "print"; "raise"; "return"; "try";
   "while"; "with"; "yield"].

(** The claims about a parsed module, as the spec words them. *)

(** The spec's version of [is_builtin]: true iff the path is absent or does
    not end with [.py]. *)
Definition is_builtin_as_specified (m : module_data) : Prop :=
  is_builtin m = true <->
  (path m = None \/ exists p, path m = Some p /\ endswith p ".py" = false).



(** A chain of Flows [r -> r.next -> ...] in the store. *)
Inductive flow_chain (h : heap) : ref -> list ref -> Prop :=
| flow_chain_last r s b f :
    h !! r = Some (OFlow s b f) -> fl_next f = None -> flow_chain h r [r]
| flow_chain_next r s b f n l :
    h !! r = Some (OFlow s b f) -> fl_next f = Some n -> flow_chain h n l ->
    flow_chain h r (r :: l).

(** Every Flow of the list has the parent [v]. *)
Definition chain_parent (h : heap) (l : list ref) (v : option ref) : Prop :=
  forall t, t ∈ l -> exists s b f, h !! t = Some (OFlow s b f) /\ s_parent s = v.

(** [t.next] of the Flow [t], when [t] is a Flow. *)
Definition flow_next_of (h : heap) (t : ref) : option (option ref) :=
  match h !! t with
  | Some (OFlow _ _ f) => Some (fl_next f)
  | _ => None
  end.

(** The invariant of the Imports in a store: [star] implies that the
    namespace is absent. *)
Definition star_clears_namespace (h : heap) : Prop :=
  forall r i, heap_import h r = Some i -> star i = true -> namespace i = None.

(** An operation keeps a property of the store: from a store that
    satisfies it, it leaves one that does, whether it returns or raises.
    [prj] selects the store in the state of the operation.  [pres] is the
    case of the invariant of the Imports. *)
Definition keeps {S A} (P : heap -> Prop) (prj : S -> heap) (m : M S A) : Prop :=
  forall s, P (prj s) -> P (prj (final_state (m s))).

Abbreviation pres := (keeps star_clears_namespace).

(** The store in the state of the loop of [_parse_statement]. *)
Definition st_heap (s : ST) : heap := p_heap s.1.

(** ** States and token sequences for the further properties *)

(** [os.path] *)
Definition tokens_os_path : list token :=
  let line := "os.path" +:+ newline in
  [tk line NAME "os" 1 0 2; tk line OP "." 1 2 3; tk line NAME "path" 1 3 7;
   tk line NEWLINE newline 1 7 8; endmarker 2].

(** A parser whose module has the name [os] pending in [temp_used_names]. *)
Definition parser_pending_os : parser :=
  final_state (dot_name_append "os" (initial_parser [] false None None false 0)).

(** The node [r] has the attribute [parent], and its value is [v]. *)
Definition has_parent (h : heap) (r : ref) (v : option ref) : Prop :=
  exists o, h !! r = Some o /\ obj_parent o = Some v.

(** A module with an [if] Flow that is not yet part of it. *)
Definition heap_module_flow : heap :=
  [OModule (Simple None 0%nat (1, 0) None) empty_scope_body
     (ModuleData None [] ∅ [] 0);
   OFlow (Simple None 0%nat (1, 0) None) empty_scope_body
     (FlowData None "if" [] [] None)].

(** A module, a function in it and an [if] Flow in the function. *)
Definition heap_function_flow : heap :=
  [OModule (Simple None 0%nat (1, 0) None) empty_scope_body
     (ModuleData None [] ∅ [] 0);
   OFunction (Simple (Some 0%nat) 0%nat (1, 0) None) empty_scope_body
     (FunctionData None [] [] [] None false);
   OFlow (Simple (Some 1%nat) 0%nat (2, 4) None) empty_scope_body
     (FlowData None "if" [] [] None)].

(** The error statement of the unfinished [from .a import] on line 1. *)
Definition error_from_dot_a : helpers.error_statement :=
  helpers.ErrorStatement "import_from" (1, 0) (1, 20)
    [("import_from",
      [helpers.Leaf "from" (1, 0) (1, 4); helpers.Leaf "." (1, 5) (1, 6);
       helpers.Name "a" (1, 6) (1, 7); helpers.Leaf "import" (1, 8) (1, 14)])].

(** An error statement that is no import. *)
Definition error_no_import : helpers.error_statement :=
  helpers.ErrorStatement "expr_stmt" (1, 0) (1, 20) [].

(** An operation never ends with an exception of the token source. *)
Definition no_stop {S A} (m : M S A) : Prop :=
  forall s e s', m s = Raise e s' -> is_stop e = false.

(** The node [r] ends at the position [e]. *)
Definition has_end_pos (h : heap) (r : ref) (e : pos) : Prop :=
  exists o s, h !! r = Some o /\ obj_simple o = Some s /\ s_end_pos s = Some e.

(** A module and the Name [x], not yet part of a statement. *)
Definition heap_module_name : heap :=
  [OModule (Simple None 0%nat (1, 0) None) empty_scope_body
     (ModuleData None [] ∅ [] 0);
   OName (Simple None 0%nat (1, 0) (Some (1, 1))) [("x", (1, 0))]].

(** A parser with the user position on the Name [x] of [heap_module_name]. *)
Definition parser_cursor_on_x : parser :=
  Parser heap_module_name (Tokenizer [] [] None false) (Some (1, 1)) None None
    false 0%nat (Some 0%nat) None None (1, 0) (1, 0) "" [] false.

(** [heap_module_name] with the statement [x] made of its Name. *)
Definition heap_statement_x : heap :=
  final_state (new_statement false 0%nat "x" [1%nat] [] [] [TName 1%nat]
                 (1, 0) (1, 1) heap_module_name).

(** ** [Scope.get_statement_for_position] *)

(** [pos < end_pos]; false for the end position [(None, None)], as
    [pos_le_opt]. *)
Definition pos_lt_opt (a : pos) (b : option pos) : bool :=
  match b with Some b => pos_lt a b | None => false end.

(** The search in a Flow of [checks]: the Flow itself, then the Flows of
    its [next] chain while nothing was found.  [rec] is the method on the
    nested scope; [n] bounds the length of the chain. *)
Fixpoint position_in_flow_chain (rec : ref -> M heap (option ref)) (n : nat)
    (s : ref) : M heap (option ref) :=
  p <- rec s ;;
  match p with
  | Some _ => ret p
  | None =>
      o <- deref s ;;
      match o with
      | OFlow _ _ f =>
          match fl_next f with
          | None => ret None
          | Some s' =>
              match n with
              | O => raise OutOfFuel
              | S n' => position_in_flow_chain rec n' s'
              end
          end
      | _ => raise AttributeError
      end
  end.

(** The loop [for s in checks]. *)
Fixpoint position_in_checks (rec : ref -> M heap (option ref)) (n : nat)
    (pos : pos) (checks : list (option ref)) : M heap (option ref) :=
  match checks with
  | [] => ret None
  | s :: rest =>
      so <- deref_opt s ;;
      match so.2 with
      | OFlow _ _ _ =>
          p <- position_in_flow_chain rec n so.1 ;;
          match p with
          | Some _ => ret p
          | None => position_in_checks rec n pos rest
          end
      | _ =>
          sp <- get_start_pos so.1 ;;
          if pos_le sp pos then
            ep <- get_end_pos so.1 ;;
            if pos_lt_opt pos ep then ret (Some so.1)
            else position_in_checks rec n pos rest
          else position_in_checks rec n pos rest
      end
  end.

(** The loop [for s in self.subscopes]. *)
Fixpoint position_in_subscopes (rec : ref -> M heap (option ref)) (pos : pos)
    (subs : list ref) : M heap (option ref) :=
  match subs with
  | [] => ret None
  | s :: rest =>
      sp <- get_start_pos s ;;
      if pos_le sp pos then
        ep <- get_end_pos s ;;
        if pos_le_opt pos ep then
          p <- rec s ;;
          match p with
          | Some _ => ret p
          | None => position_in_subscopes rec pos rest
          end
        else position_in_subscopes rec pos rest
      else position_in_subscopes rec pos rest
  end.

(** [Scope.get_statement_for_position(pos, include_imports)]; [None] is
    the result of a call that falls off the end of the method.  [fuel]
    bounds the nesting of the scopes and the length of a chain of Flows. *)
Fixpoint get_statement_for_position (fuel : nat) (self : ref) (pos : pos)
    (include_imports : bool) : M heap (option ref) :=
  match fuel with
  | O => raise OutOfFuel
  | S fuel' =>
      let rec := fun s => get_statement_for_position fuel' s pos include_imports in
      o <- deref self ;;
      b <- of_option AttributeError (obj_scope o) ;;
      let checks :=
        (Some <$> (statements b ++ asserts b
                   ++ (if include_imports then imports b else [])))
        ++ match o with
           | OFunction _ _ f =>
               (Some <$> params f) ++ f_decorators f
               ++ filter (fun r => r <> None) (returns f)
           | _ => []
           end in
      found <- position_in_checks rec fuel' pos checks ;;
      match found with
      | Some _ => ret found
      | None => position_in_subscopes rec pos (subscopes b)
      end
  end.

(** The position [pos] lies in the node [x]: from its start on, before its
    end. *)
Definition contains_pos (h : heap) (x : ref) (pos : pos) : Prop :=
  exists sp ep,
    get_start_pos x h = Ok sp h /\ get_end_pos x h = Ok (Some ep) h
    /\ pos_le sp pos = true /\ pos_lt pos ep = true.

(** [heap_statement_x] with the statement added to the module. *)
Definition heap_module_with_x : heap :=
  final_state (add_statement (Some 0%nat) 2%nat heap_statement_x).

(** A search that returns leaves the store as it is, and what it finds
    contains the position. *)
Definition position_sound (pos : pos) (m : M heap (option ref)) : Prop :=
  forall h r h', m h = Ok r h' ->
    h' = h /\ forall x, r = Some x -> contains_pos h x pos.

(** ** [Scope.get_imports] and [Flow.get_imports] *)

(** The loop [for s in self.statements: if isinstance(s, Scope): i +=
    s.get_imports()]; [rec] is the method on the nested scope. *)
Fixpoint imports_of_statements (rec : ref -> M heap (list ref)) (stmts : list ref)
  : M heap (list ref) :=
  match stmts with
  | [] => ret []
  | s :: rest =>
      o <- deref s ;;
      i <- match obj_scope o with
           | Some _ => rec s
           | None => ret []
           end ;;
      j <- imports_of_statements rec rest ;;
      ret (i ++ j)
  end.

(** [get_imports]: the method of [Scope], extended by [Flow] with the
    imports of its [next].  [fuel] bounds the nesting. *)
Fixpoint get_imports (fuel : nat) (self : ref) : M heap (list ref) :=
  match fuel with
  | O => raise OutOfFuel
  | S fuel' =>
      o <- deref self ;;
      b <- of_option AttributeError (obj_scope o) ;;
      inner <- imports_of_statements (get_imports fuel') (statements b) ;;
      let i := imports b ++ inner in
      match o with
      | OFlow _ _ f =>
          match fl_next f with
          | Some n => more <- get_imports fuel' n ;; ret (i ++ more)
          | None => ret i
          end
      | _ => ret i
      end
  end.

(** A module with an import of its own and an [if] Flow that holds
    another import. *)
Definition heap_imports_in_flow : heap :=
  [OModule (Simple None 0%nat (1, 0) None)
     (ScopeBody [] [2%nat] [1%nat] "" [] None) (ModuleData None [] ∅ [] 0);
   OFlow (Simple (Some 0%nat) 0%nat (2, 0) None)
     (ScopeBody [] [3%nat] [] "" [] None) (FlowData None "if" [] [] None);
   OImport (Simple (Some 0%nat) 0%nat (1, 0) (Some (1, 9)))
     (ImportData None PNone None false 0 true);
   OImport (Simple (Some 1%nat) 0%nat (3, 4) (Some (3, 13)))
     (ImportData None PNone None false 0 true)].

(** A module with the import of the dotted name [os.path]. *)
Definition heap_import_os_path : heap :=
  [OModule (Simple None 0%nat (1, 0) None)
     (ScopeBody [] [2%nat] [] "" [] None) (ModuleData None [] ∅ [] 0);
   OName (Simple (Some 2%nat) 0%nat (1, 7) (Some (1, 14)))
     [("os", (1, 7)); ("path", (1, 10))];
   OImport (Simple (Some 0%nat) 0%nat (1, 0) (Some (1, 14)))
     (ImportData (Some 1%nat) PNone None false 0 false)].



(** A module, a function in it, and an [if] Flow and an Import that are
    not yet part of a scope. *)
Definition heap_function_loose_nodes : heap :=
  [OModule (Simple None 0%nat (1, 0) None) empty_scope_body
     (ModuleData None [] ∅ [] 0);
   OFunction (Simple (Some 0%nat) 0%nat (1, 0) None) empty_scope_body
     (FunctionData None [] [] [] None false);
   OFlow (Simple None 0%nat (2, 4) None) empty_scope_body
     (FlowData None "if" [] [] None);
   OImport (Simple None 0%nat (3, 4) (Some (3, 13)))
     (ImportData None PNone None false 0 true)].


(** * Theorems *)

(** ** Basic facts about strings and positions *)

Lemma streq_true (a b : string) : streq a b = true <-> a = b.
Proof. unfold streq. apply String.eqb_eq. Qed.

Lemma str_in_true (s : string) (l : list string) : str_in s l = true <-> s ∈ l.
Proof.
  unfold str_in. rewrite existsb_exists. split.
  - intros (x & Hin & Heq). apply streq_true in Heq. subst.
    by apply list_elem_of_In.
  - intros Hin. exists s. split; [by apply list_elem_of_In|by apply streq_true].
Qed.

(** ** C2: [is_builtin] *)

(** C2 (counterexample).  The module parsed from [x = 1] without a path has
    an absent path, yet [is_builtin] is false on it: the claim that
    [is_builtin] holds iff the path is absent or does not end with [.py]
    fails. *)
Lemma is_builtin_absent_path_counterexample :
  exists p m,
    Parser_init decimal_literal_eval plain_cleandoc kwlist_py27 100
      tokens_x_eq_1 false None None false 0 = Ok tt p
    /\ module_of p = Some m
    /\ ~ is_builtin_as_specified m.2.
Proof.
  eexists _, _. split; [vm_compute; reflexivity|]. split; [reflexivity|].
  unfold is_builtin_as_specified. simpl. intros [_ H].
  specialize (H (or_introl eq_refl)). discriminate.
Qed.

(** C2 (amended).  For every module, [is_builtin] is true iff the path is
    present and does not end with [.py]. *)
Theorem is_builtin_iff_path_present_not_py (m : module_data) :
  is_builtin m = true <-> exists p, path m = Some p /\ endswith p ".py" = false.
Proof.
  unfold is_builtin. destruct (path m) as [p|]; simpl.
  - rewrite negb_true_iff. split.
    + intros H. by exists p.
    + intros (q & Hq & H). by simplify_eq.
  - split; [discriminate|]. intros (q & Hq & _). discriminate.
Qed.

(** ** C10: [check_error_statements] *)

(** C10.  If no entry of the error statement stacks is an import error
    ([first_type] is [import_from] or [import_name]) whose range
    [first_pos < pos <= next_start_pos] holds the position, then
    [check_error_statements] returns [(None, 0, False, False)] and does not
    raise; an empty list is such a case. *)
Theorem check_error_statements_default (stacks : list helpers.error_statement)
    (pos : pos) :
  (forall e, e ∈ stacks ->
     ~ ((helpers.first_type e = "import_from" \/ helpers.first_type e = "import_name")
        /\ pos_lt (helpers.first_pos e) pos = true
        /\ pos_le pos (helpers.next_start_pos e) = true)) ->
  helpers.check_error_statements stacks pos = inr (None, 0, false, false)
  /\ helpers.check_error_statements [] pos = inr (None, 0, false, false).
Proof.
  intros H. split; [|reflexivity].
  induction stacks as [|e rest IH]; [reflexivity|].
  simpl.
  destruct (helpers.import_error e && helpers.error_on_pos e pos) eqn:E.
  - exfalso. apply andb_prop in E as [Hi Hp].
    apply (H e); [left|].
    unfold helpers.import_error in Hi. apply str_in_true in Hi.
    unfold helpers.error_on_pos in Hp. apply andb_prop in Hp as [Hlt Hle].
    split; [|done].
    apply list_elem_of_In in Hi. simpl in Hi.
    destruct Hi as [Hi|[Hi|[]]]; [left|right]; done.
  - apply IH. intros e' He'. apply H. by right.
Qed.

(** The hypothesis of C10 holds of a stack with an entry that is no import
    error and an import error that lies before the position. *)
Lemma check_error_statements_default_witness :
  helpers.check_error_statements
    [helpers.ErrorStatement "expr_stmt" (1, 0) (1, 8) [];
     helpers.ErrorStatement "import_name" (2, 0) (2, 9) []] (3, 4)
  = inr (None, 0, false, false)
  /\ helpers.check_error_statements [] (3, 4) = inr (None, 0, false, false).
Proof.
  apply (check_error_statements_default
           [helpers.ErrorStatement "expr_stmt" (1, 0) (1, 8) [];
            helpers.ErrorStatement "import_name" (2, 0) (2, 9) []] (3, 4)).
  intros e He (Hty & Hlt & Hle).
  apply list_elem_of_In in He. simpl in He.
  destruct He as [<-|[<-|[]]]; simpl in *.
  - destruct Hty; discriminate.
  - vm_compute in Hle. discriminate.
Defined.

(** ** C9: [Array.add_to_current_field] on an empty tuple *)





(** ** Inversion of the monad operations *)

Lemma bind_Ok {S A B} (m : M S A) (k : A -> M S B) (s s' : S) (b : B) :
  bind m k s = Ok b s' -> exists a s1, m s = Ok a s1 /\ k a s1 = Ok b s'.
Proof.
  unfold bind. destruct (m s) as [a s1|e s1]; [|discriminate].
  intros H. by exists a, s1.
Qed.

Lemma get_stmt_Ok (r : ref) (h h' : heap) (sd : simple * stmt_data) :
  get_stmt r h = Ok sd h' -> h' = h /\ h !! r = Some (OStatement sd.1 sd.2).
Proof.
  unfold get_stmt, bind, deref.
  destruct (h !! r) as [[]|]; simpl; try discriminate.
  unfold ret. intros H. injection H as <- <-. done.
Qed.

Lemma get_stmt_lookup (r : ref) (h : heap) (s : simple) (d : stmt_data) :
  h !! r = Some (OStatement s d) -> get_stmt r h = Ok (s, d) h.
Proof. intros H. unfold get_stmt, bind, deref. by rewrite H. Qed.

Lemma update_stmt_Ok (r : ref) (f : stmt_data -> stmt_data) (h h' : heap) :
  update_stmt r f h = Ok tt h' ->
  exists s d, h !! r = Some (OStatement s d) /\ h' = <[r := OStatement s (f d)]> h.
Proof.
  unfold update_stmt. intros H.
  apply bind_Ok in H as (sd & h1 & Hsd & H).
  apply get_stmt_Ok in Hsd as [-> Hr].
  unfold store in H. injection H as <-.
  by exists sd.1, sd.2.
Qed.

(** ** C7: the lazy sub-parser is memoized *)

(** C7.  When [get_assignment_calls] has returned for a Statement, a second
    call returns the same tree (the same reference) and leaves the store as
    it is: nothing is computed again and nothing is mutated. *)
Theorem get_assignment_calls_idempotent (literal_eval : string -> option literal)
    (self : ref) (h h' : heap) (r : option ref) :
  get_assignment_calls literal_eval self h = Ok r h' ->
  get_assignment_calls literal_eval self h' = Ok r h'.
Proof.
  intros H. pose proof H as H0. unfold get_assignment_calls in H.
  apply bind_Ok in H as (sd & h1 & Hsd & H).
  apply get_stmt_Ok in Hsd as [-> Hself].
  destruct (_assignment_calls_calculated sd.2) eqn:Hflag.
  - unfold ret in H. injection H as <- <-. exact H0.
  - clear H0.
    apply bind_Ok in H as (? & h2 & _ & H).
    apply bind_Ok in H as (sp & h3 & _ & H).
    apply bind_Ok in H as (top & h4 & _ & H).
    apply bind_Ok in H as (L & h5 & _ & H).
    apply bind_Ok in H as (? & h6 & _ & H).
    apply bind_Ok in H as ([] & h7 & Hu1 & H).
    apply bind_Ok in H as ([] & h8 & Hu2 & H).
    unfold ret in H. injection H as <- <-.
    apply update_stmt_Ok in Hu1 as (s1 & d1 & Hl1 & ->).
    apply update_stmt_Ok in Hu2 as (s2 & d2 & Hl2 & ->).
    assert (Hlen : (self < length h6)%nat) by (eapply lookup_lt_Some; eauto).
    unfold heap in *.
    rewrite list_lookup_insert_eq in Hl2 by done.
    injection Hl2 as <- <-.
    match goal with
    | |- get_assignment_calls _ _ ?hh = _ =>
        assert (Hlk : hh !! self
                      = Some (OStatement s1
                                (set_assignment_calls (Some (ac_top L))
                                   (set_assignment_calls_calculated true d1))))
          by (rewrite list_lookup_insert_eq by (by rewrite length_insert); done)
    end.
    unfold get_assignment_calls. unfold bind at 1.
    rewrite (get_stmt_lookup _ _ _ _ Hlk). reflexivity.
Qed.

(** The hypothesis of C7 holds of the Statement parsed from [x = 1]: the
    first call returns. *)
Lemma get_assignment_calls_idempotent_witness :
  exists r h',
    get_assignment_calls decimal_literal_eval 2%nat
      (p_heap (final_state
                 (Parser_init decimal_literal_eval plain_cleandoc kwlist_py27 100
                    tokens_x_eq_1 false None None false 0)))
    = Ok (Some r) h'
    /\ get_assignment_calls decimal_literal_eval 2%nat h' = Ok (Some r) h'.
Proof.
  eexists _, _. split; [vm_compute; reflexivity|].
  apply (get_assignment_calls_idempotent decimal_literal_eval 2%nat
           (p_heap (final_state
                      (Parser_init decimal_literal_eval plain_cleandoc kwlist_py27
                         100 tokens_x_eq_1 false None None false 0)))).
  vm_compute. reflexivity.
Defined.

(** ** C1: a source on which the parser raises *)

(** C1 (the code at the failing input).  For the source [assert], the
    statement after the keyword is absent, [_parse_statement] returns
    [None], and the assignment [stmt.parent = use_as_parent_scope] raises
    AttributeError, which no handler of [__init__] catches: constructing
    the Parser raises. *)
Theorem parser_raises_on_bare_assert (literal_eval : string -> option literal)
    (cleandoc : literal -> string) (kwlist : list string) :
  exists p,
    Parser_init literal_eval cleandoc kwlist 100 tokens_assert false None None
      false 0 = Raise AttributeError p.
Proof. eexists. vm_compute. reflexivity. Qed.

(** ** C3: the source [x = 1] *)

(** C3 (counterexample).  For [x = 1] the module has one Statement, whose
    [assignment_details] are not the operator paired with the Array of the
    literal 1. *)
Lemma x_eq_1_assignment_details_counterexample :
  exists p m st l h',
    Parser_init decimal_literal_eval plain_cleandoc kwlist_py27 100
      tokens_x_eq_1 false None None false 0 = Ok tt p
    /\ module_of p = Some m
    /\ statements m.1 = [st]
    /\ assignment_details decimal_literal_eval st (p_heap p) = Ok l h'
    /\ view_details 10 h' l
       <> Some [("=", VArray NOARRAY [[VCall (inr (LitInt 1)) CNUMBER None None]]
                        [] None None)].
Proof.
  eexists _, _, _, _, _.
  split; [vm_compute; reflexivity|].
  split; [reflexivity|]. split; [reflexivity|].
  split; [vm_compute; reflexivity|].
  vm_compute. discriminate.
Qed.

(** C3 (amended).  Parsing [x = 1] yields a Module with exactly one
    Statement, and no subscope or import; its [set_vars] are [x]; after the
    lazy sub-parsing its [assignment_details] are the operator [=] paired
    with the NOARRAY Array of the target, whose single field holds the NAME
    Call of [x], and [get_assignment_calls] returns the NOARRAY Array whose
    single field holds the NUMBER Call of the literal 1. *)
Theorem x_eq_1_parsed (literal_eval : string -> option literal)
    (cleandoc : literal -> string) (kwlist : list string) :
  literal_eval "1" = Some (LitInt 1) ->
  exists p m st d l h' top,
    Parser_init literal_eval cleandoc kwlist 100 tokens_x_eq_1 false None None
      false 0 = Ok tt p
    /\ module_of p = Some m
    /\ statements m.1 = [st] /\ subscopes m.1 = [] /\ imports m.1 = []
    /\ heap_stmt (p_heap p) st = Some d
    /\ name_codes (p_heap p) (set_vars d) = ["x"]
    /\ assignment_details literal_eval st (p_heap p) = Ok l h'
    /\ view_details 10 h' l
       = Some [("=", VArray NOARRAY [[VCall (inl "x") CNAME None None]] [] None None)]
    /\ get_assignment_calls literal_eval st h' = Ok (Some top) h'
    /\ view 10 h' top
       = Some (VArray NOARRAY [[VCall (inr (LitInt 1)) CNUMBER None None]] [] None None).
Proof.
  intros Hle. eexists _, _, _, _, _, _, _.
  split; [vm_compute; reflexivity|].
  split; [reflexivity|]. split; [reflexivity|].
  split; [reflexivity|]. split; [reflexivity|].
  split; [reflexivity|]. split; [reflexivity|].
  split; [vm_compute; rewrite Hle; vm_compute; reflexivity|].
  split; [vm_compute; reflexivity|].
  split; [vm_compute; reflexivity|].
  vm_compute. reflexivity.
Qed.

(** The hypothesis of C3 holds of the evaluator of decimal literals. *)
Lemma x_eq_1_parsed_witness :
  exists p m st d l h' top,
    Parser_init decimal_literal_eval plain_cleandoc kwlist_py27 100 tokens_x_eq_1
      false None None false 0 = Ok tt p
    /\ module_of p = Some m
    /\ statements m.1 = [st] /\ subscopes m.1 = [] /\ imports m.1 = []
    /\ heap_stmt (p_heap p) st = Some d
    /\ name_codes (p_heap p) (set_vars d) = ["x"]
    /\ assignment_details decimal_literal_eval st (p_heap p) = Ok l h'
    /\ view_details 10 h' l
       = Some [("=", VArray NOARRAY [[VCall (inl "x") CNAME None None]] [] None None)]
    /\ get_assignment_calls decimal_literal_eval st h' = Ok (Some top) h'
    /\ view 10 h' top
       = Some (VArray NOARRAY [[VCall (inr (LitInt 1)) CNUMBER None None]] [] None None).
Proof.
  apply (x_eq_1_parsed decimal_literal_eval plain_cleandoc kwlist_py27).
  reflexivity.
Defined.

(** ** C4: the source [from .. import x, y as z] *)

(** C4.  Parsing [from .. import x, y as z] creates exactly two Imports,
    the imports of the module; both have [relative_count] 2, no [from_ns]
    and [star] false, and the alias of the second is the Name [z]. *)
Theorem from_import_parsed (literal_eval : string -> option literal)
    (cleandoc : literal -> string) (kwlist : list string) :
  exists p m i1 i2 d1 d2 a,
    Parser_init literal_eval cleandoc kwlist 100 tokens_from_import false None None
      false 0 = Ok tt p
    /\ module_of p = Some m
    /\ imports m.1 = [i1; i2]
    /\ length (omap (fun o => match o with OImport _ i => Some i | _ => None end)
                 (p_heap p)) = 2%nat
    /\ heap_import (p_heap p) i1 = Some d1
    /\ heap_import (p_heap p) i2 = Some d2
    /\ relative_count d1 = 2 /\ from_ns d1 = None /\ star d1 = false
    /\ relative_count d2 = 2 /\ from_ns d2 = None /\ star d2 = false
    /\ alias d2 = PName a
    /\ name_codes (p_heap p) [a] = ["z"].
Proof.
  eexists _, _, _, _, _, _, _.
  split; [vm_compute; reflexivity|].
  repeat (split; [reflexivity|]). reflexivity.
Qed.

(** ** C6: the parent of a chain of Flows *)

Lemma flow_chain_ext (h h' : heap) (r : ref) (l : list ref) :
  flow_chain h r l ->
  (forall t, t ∈ l -> flow_next_of h' t = flow_next_of h t) ->
  flow_chain h' r l.
Proof.
  induction 1 as [r s b f Hr Hn|r s b f n l Hr Hn Hc IH]; intros Hext.
  - specialize (Hext r ltac:(by left)). unfold flow_next_of in Hext.
    rewrite Hr in Hext.
    destruct (h' !! r) as [[]|] eqn:E; try discriminate.
    eapply flow_chain_last; [exact E|]. injection Hext as Hext. by rewrite Hext.
  - pose proof (Hext r ltac:(by left)) as Hx. unfold flow_next_of in Hx.
    rewrite Hr in Hx.
    destruct (h' !! r) as [[]|] eqn:E; try discriminate.
    eapply flow_chain_next; [exact E| |].
    + injection Hx as Hx. by rewrite Hx.
    + apply IH. intros t Ht. apply Hext. by right.
Qed.

Lemma flow_chain_head (h : heap) (r : ref) (l : list ref) :
  flow_chain h r l -> exists l', l = r :: l'.
Proof. destruct 1; eauto. Qed.

Lemma flow_chain_valid (h : heap) (r : ref) (l : list ref) :
  flow_chain h r l -> forall t, t ∈ l -> (t < length h)%nat.
Proof.
  induction 1 as [r s b f Hr Hn|r s b f n l Hr Hn Hc IH]; intros t Ht.
  - apply list_elem_of_singleton in Ht as ->. by eapply lookup_lt_Some.
  - apply elem_of_cons in Ht as [->|Ht]; [by eapply lookup_lt_Some|by apply IH].
Qed.

Lemma NoDup_bounded_length (l : list nat) (n : nat) :
  NoDup l -> (forall t, t ∈ l -> (t < n)%nat) -> (length l <= n)%nat.
Proof.
  intros Hnd Hb.
  assert (Hsub : l ⊆+ seq 0 n).
  { apply NoDup_submseteq; [done|]. intros t Ht. apply elem_of_seq.
    specialize (Hb t Ht). lia. }
  apply submseteq_length in Hsub. by rewrite length_seq in Hsub.
Qed.

Lemma set_parent_fuel_flow (fuel : nat) (h : heap) (r : ref) (v : option ref)
    (s : simple) (b : scope_body) (f : flow_data) :
  h !! r = Some (OFlow s b f) ->
  set_parent_fuel fuel r v h
  = match fl_next f with
    | None => Ok tt (<[r := OFlow (set_s_parent v s) b f]> h)
    | Some n =>
        match fuel with
        | O => Raise RuntimeError (<[r := OFlow (set_s_parent v s) b f]> h)
        | S fuel' => set_parent_fuel fuel' n v (<[r := OFlow (set_s_parent v s) b f]> h)
        end
    end.
Proof.
  intros Hr. destruct fuel; simpl; unfold bind, deref, store; rewrite Hr;
    destruct (fl_next f); reflexivity.
Qed.

Lemma set_parent_fuel_chain (l : list ref) :
  forall (fuel : nat) (h : heap) (r : ref) (v : option ref),
    flow_chain h r l -> NoDup l -> (length l <= S fuel)%nat ->
    exists h',
      set_parent_fuel fuel r v h = Ok tt h'
      /\ length h' = length h
      /\ (forall x, x ∉ l -> h' !! x = h !! x)
      /\ (forall t, t ∈ l ->
            exists s b f, h !! t = Some (OFlow s b f)
                          /\ h' !! t = Some (OFlow (set_s_parent v s) b f)).
Proof.
  induction l as [|r0 l IH]; intros fuel h r v Hc Hnd Hlen.
  { inversion Hc. }
  unfold heap in *.
  inversion Hc as [r' s b f Hr Hn|r' s b f n l' Hr Hn Hc']; subst.
  - rewrite (set_parent_fuel_flow _ _ _ _ _ _ _ Hr), Hn. unfold heap in *.
    eexists. split; [reflexivity|]. split; [by rewrite length_insert|].
    split.
    + intros x Hx. apply list_lookup_insert_ne. set_solver.
    + intros t Ht. apply list_elem_of_singleton in Ht as ->.
      exists s, b, f. split; [done|].
      apply list_lookup_insert_eq. by eapply lookup_lt_Some.
  - rewrite (set_parent_fuel_flow _ _ _ _ _ _ _ Hr), Hn. unfold heap in *.
    apply NoDup_cons in Hnd as [Hnin Hnd].
    destruct fuel as [|fuel].
    { simpl in Hlen. destruct (flow_chain_head _ _ _ Hc') as [? ->].
      simpl in Hlen. lia. }
    set (h1 := <[r0 := OFlow (set_s_parent v s) b f]> h).
    assert (Hc1 : flow_chain h1 n l).
    { eapply flow_chain_ext; [exact Hc'|]. intros t Ht.
      unfold flow_next_of, h1. unfold heap. rewrite list_lookup_insert_ne; [done|].
      intros ->. done. }
    destruct (IH fuel h1 n v Hc1 Hnd ltac:(simpl in Hlen; lia))
      as (h' & Hrun & Hl & Hframe & Hch).
    exists h'. split; [exact Hrun|].
    split; [by rewrite Hl; unfold h1; rewrite length_insert|].
    split.
    + intros x Hx. rewrite Hframe by set_solver.
      unfold h1. apply list_lookup_insert_ne. set_solver.
    + intros t Ht. apply elem_of_cons in Ht as [->|Ht].
      * exists s, b, f. split; [done|]. rewrite Hframe by done.
        unfold h1. apply list_lookup_insert_eq. by eapply lookup_lt_Some.
      * destruct (Hch t Ht) as (s' & b' & f' & H1 & H2).
        exists s', b', f'. split; [|done].
        unfold h1 in H1. rewrite list_lookup_insert_ne in H1; [done|].
        intros ->. done.
Qed.

Lemma set_next_fuel_flow (fuel : nat) (h : heap) (r next : ref)
    (s : simple) (b : scope_body) (f : flow_data) :
  h !! r = Some (OFlow s b f) ->
  set_next_fuel fuel r next h
  = match fl_next f with
    | Some n =>
        match fuel with
        | O => Raise RuntimeError h
        | S fuel' => set_next_fuel fuel' n next h
        end
    | None =>
        match set_parent next (s_parent s)
                (<[r := OFlow s b (set_fl_next (Some next) f)]> h) with
        | Ok _ h' => Ok next h'
        | Raise e h' => Raise e h'
        end
    end.
Proof.
  intros Hr. destruct fuel; simpl; unfold bind, deref, store, ret; rewrite Hr;
    destruct (fl_next f); reflexivity.
Qed.

Lemma set_next_fuel_chain (h : heap) (n : ref) (ln : list ref) (p : option ref)
    (r : ref) (l : list ref) :
  flow_chain h r l ->
  forall fuel : nat,
    NoDup (l ++ ln) -> chain_parent h l p -> flow_chain h n ln ->
    (length l <= S fuel)%nat ->
    exists h',
      set_next_fuel fuel r n h = Ok n h'
      /\ flow_chain h' r (l ++ ln)
      /\ chain_parent h' (l ++ ln) p
      /\ (forall x, x ∉ l ++ ln -> h' !! x = h !! x)
      /\ length h' = length h.
Proof.
  induction 1 as [r s b f Hr Hn|r s b f n' l Hr Hn Hc IH];
    intros fuel Hnd Hpar Hcn Hlen.
  - rewrite (set_next_fuel_flow _ _ _ _ _ _ _ Hr), Hn.
    simpl in Hnd. apply NoDup_cons in Hnd as [Hnin Hnd].
    destruct (Hpar r ltac:(by left)) as (s' & b' & f' & Hr' & Hp).
    rewrite Hr in Hr'. injection Hr' as <- <- <-.
    set (h1 := <[r := OFlow s b (set_fl_next (Some n) f)]> h).
    assert (Hlen1 : length h1 = length h) by apply length_insert.
    assert (Hc1 : flow_chain h1 n ln).
    { eapply flow_chain_ext; [exact Hcn|]. intros t Ht.
      unfold flow_next_of, h1. unfold heap.
      rewrite list_lookup_insert_ne; [done|]. intros ->. done. }
    assert (Hb : (length ln <= S (length h1))%nat).
    { apply Nat.le_le_succ_r. apply NoDup_bounded_length; [done|].
      by apply (flow_chain_valid h1 n). }
    destruct (set_parent_fuel_chain ln (length h1) h1 n (s_parent s) Hc1 Hnd Hb)
      as (h2 & Hrun & Hl2 & Hframe & Hch).
    exists h2. unfold set_parent, with_size. fold h1. rewrite Hrun.
    split; [reflexivity|].
    assert (Hr2 : h2 !! r = Some (OFlow s b (set_fl_next (Some n) f))).
    { rewrite Hframe by done. unfold h1. unfold heap.
      apply list_lookup_insert_eq. by eapply lookup_lt_Some. }
    split; [|split; [|split]].
    + simpl. eapply flow_chain_next; [exact Hr2|reflexivity|].
      eapply flow_chain_ext; [exact Hc1|]. intros t Ht.
      destruct (Hch t Ht) as (s' & b' & f' & H1 & H2).
      unfold flow_next_of. by rewrite H1, H2.
    + intros t Ht. simpl in Ht. apply elem_of_cons in Ht as [->|Ht].
      * eauto.
      * destruct (Hch t Ht) as (s' & b' & f' & H1 & H2).
        exists (set_s_parent (s_parent s) s'), b', f'. split; [exact H2|exact Hp].
    + intros x Hx. simpl in Hx. rewrite Hframe by set_solver.
      unfold h1. unfold heap. apply list_lookup_insert_ne. set_solver.
    + by rewrite Hl2.
  - rewrite (set_next_fuel_flow _ _ _ _ _ _ _ Hr), Hn.
    simpl in Hnd. apply NoDup_cons in Hnd as [Hnin Hnd].
    destruct fuel as [|fuel].
    { destruct (flow_chain_head _ _ _ Hc) as [? ->]. simpl in Hlen. lia. }
    destruct (IH fuel Hnd) as (h' & Hrun & Hch & Hp' & Hframe & Hl').
    { intros t Ht. apply Hpar. by right. }
    { done. }
    { simpl in Hlen. lia. }
    exists h'. split; [exact Hrun|].
    assert (Hr' : h' !! r = Some (OFlow s b f)) by (by rewrite Hframe).
    split; [|split; [|split]].
    + simpl. eapply flow_chain_next; eauto.
    + intros t Ht. simpl in Ht. apply elem_of_cons in Ht as [->|Ht].
      * destruct (Hpar r ltac:(by left)) as (s' & b' & f' & Hr0 & Hp0).
        rewrite Hr in Hr0. injection Hr0 as <- <- <-. eauto.
      * by apply Hp'.
    + intros x Hx. apply Hframe. intros Hin. apply Hx. simpl. by right.
    + done.
Qed.

(** C6.  Take a chain of Flows from a head, all with the parent of the
    head, and a further chain that shares no Flow with it.  [set_next] on
    the head returns, appends the second chain at the end of the first, and
    every tail of the joined chain has the parent of the head.  Assigning a
    new value to the parent of the head afterwards returns and gives that
    value to every tail attached before. *)
Theorem flow_chain_shares_parent (h : heap) (head next : ref)
    (l ln : list ref) (p v : option ref) :
  flow_chain h head l ->
  flow_chain h next ln ->
  NoDup (l ++ ln) ->
  chain_parent h l p ->
  exists h1,
    set_next head next h = Ok next h1
    /\ flow_chain h1 head (l ++ ln)
    /\ chain_parent h1 (l ++ ln) p
    /\ exists h2,
         set_parent head v h1 = Ok tt h2
         /\ flow_chain h2 head (l ++ ln)
         /\ chain_parent h2 (l ++ ln) v.
Proof.
  intros Hc Hcn Hnd Hp.
  assert (Hb : (length l <= S (length h))%nat).
  { apply Nat.le_le_succ_r. apply NoDup_bounded_length.
    - by apply NoDup_app in Hnd as (? & _ & _).
    - by apply (flow_chain_valid h head). }
  destruct (set_next_fuel_chain h next ln p head l Hc (length h) Hnd Hp Hcn Hb)
    as (h1 & Hrun & Hc1 & Hp1 & _ & Hl1).
  exists h1. split; [exact Hrun|]. split; [done|]. split; [done|].
  assert (Hb1 : (length (l ++ ln) <= S (length h1))%nat).
  { apply Nat.le_le_succ_r. apply NoDup_bounded_length; [done|].
    by apply (flow_chain_valid h1 head). }
  destruct (set_parent_fuel_chain (l ++ ln) (length h1) h1 head v Hc1 Hnd Hb1)
    as (h2 & Hrun2 & _ & _ & Hch).
  exists h2. split; [exact Hrun2|]. split.
  - eapply flow_chain_ext; [exact Hc1|]. intros t Ht.
    destruct (Hch t Ht) as (s' & b' & f' & H1 & H2).
    unfold flow_next_of. by rewrite H1, H2.
  - intros t Ht. destruct (Hch t Ht) as (s' & b' & f' & H1 & H2). eauto.
Qed.

(** The hypotheses of C6 hold of an [if] Flow under a module and a fresh
    [else] Flow. *)
Lemma flow_chain_shares_parent_witness :
  let flow cmd par :=
    OFlow (Simple par 0%nat (1, 0) None) empty_scope_body (FlowData None cmd [] [] None) in
  let h := [OModule (Simple None 0%nat (1, 0) None) empty_scope_body
              (ModuleData None [] ∅ [] 0);
            flow "if" (Some 0%nat); flow "else" None;
            flow "try" None] in
  exists h1,
    set_next 1%nat 2%nat h = Ok 2%nat h1
    /\ flow_chain h1 1%nat [1%nat; 2%nat]
    /\ chain_parent h1 [1%nat; 2%nat] (Some 0%nat)
    /\ exists h2,
         set_parent 1%nat (Some 3%nat) h1 = Ok tt h2
         /\ flow_chain h2 1%nat [1%nat; 2%nat]
         /\ chain_parent h2 [1%nat; 2%nat] (Some 3%nat).
Proof.
  intros flow h.
  apply (flow_chain_shares_parent h 1%nat 2%nat [1%nat] [2%nat] (Some 0%nat)
           (Some 3%nat)).
  - eapply flow_chain_last; reflexivity.
  - eapply flow_chain_last; reflexivity.
  - apply NoDup_cons. split; [|apply NoDup_singleton].
    intros H. apply list_elem_of_singleton in H. discriminate.
  - intros t Ht. apply list_elem_of_singleton in Ht as ->.
    eexists _, _, _. split; reflexivity.
Defined.

(** ** C8: no operation of the parser breaks the invariant of the Imports *)

Section pres_combinators.
Context {S : Type} (P : heap -> Prop) (prj : S -> heap).

Lemma pres_ret {A} (a : A) : keeps P prj (ret a).
Proof. intros s H. exact H. Qed.

Lemma pres_raise {A} (e : exn) : keeps P prj (@raise S A e).
Proof. intros s H. exact H. Qed.

Lemma pres_bind {A B} (m : M S A) (k : A -> M S B) :
  keeps P prj m -> (forall a, keeps P prj (k a)) -> keeps P prj (bind m k).
Proof.
  intros Hm Hk s H. unfold bind. specialize (Hm s H).
  destruct (m s) as [a s1|e s1]; simpl in *; [by apply Hk|done].
Qed.

Lemma pres_get : keeps P prj get.
Proof. intros s H. exact H. Qed.

Lemma pres_gets {A} (f : S -> A) : keeps P prj (gets f).
Proof. intros s H. exact H. Qed.

Lemma pres_modify (f : S -> S) :
  (forall s, prj (f s) = prj s) -> keeps P prj (modify f).
Proof. intros Hf s H. simpl. by rewrite Hf. Qed.

Lemma pres_try_catch {A} (m : M S A) (handles : exn -> bool) (h : exn -> M S A) :
  keeps P prj m -> (forall e, keeps P prj (h e)) -> keeps P prj (try_catch m handles h).
Proof.
  intros Hm Hh s H. unfold try_catch. specialize (Hm s H).
  destruct (m s) as [a s1|e s1]; simpl in *; [done|].
  destruct (handles e); [by apply Hh|done].
Qed.

Lemma pres_of_option {A} (e : exn) (o : option A) : keeps P prj (of_option e o).
Proof. destruct o; [apply pres_ret|apply pres_raise]. Qed.

Lemma pres_when (b : bool) (m : M S unit) : keeps P prj m -> keeps P prj (when b m).
Proof. intros Hm. destruct b; [done|apply pres_ret]. Qed.

Lemma pres_mfor {A} (l : list A) (body : A -> M S unit) :
  (forall x, keeps P prj (body x)) -> keeps P prj (mfor l body).
Proof.
  intros Hb. induction l as [|x l IH]; simpl; [apply pres_ret|].
  apply pres_bind; [apply Hb|intros _; exact IH].
Qed.

Lemma pres_zoom {T A} (prjT : T -> heap) (g : S -> T) (upd : T -> S -> S)
    (m : M T A) :
  (forall s, prjT (g s) = prj s) ->
  (forall t s, prj (upd t s) = prjT t) ->
  keeps P prjT m -> keeps P prj (zoom g upd m).
Proof.
  intros Hg Hu Hm s H. unfold zoom. specialize (Hm (g s)).
  rewrite Hg in Hm. specialize (Hm H).
  destruct (m (g s)) as [a t|e t]; simpl in *; by rewrite Hu.
Qed.

End pres_combinators.

Lemma pres_with_size (P : heap -> Prop) {A} (m : nat -> M heap A) :
  (forall n, keeps P id (m n)) -> keeps P id (with_size m).
Proof. intros Hm h H. unfold with_size. by apply Hm. Qed.

Lemma pres_liftH (P : heap -> Prop) {A} (m : M heap A) : keeps P id m -> keeps P p_heap (liftH m).
Proof. intros Hm. apply (pres_zoom P p_heap id); [done|done|exact Hm]. Qed.

Lemma pres_liftG (P : heap -> Prop) {A} (m : M tokenizer A) : keeps P p_heap (liftG m).
Proof.
  intros p H. unfold liftG, zoom. by destruct (m (_gen p)).
Qed.

Lemma pres_liftP (P : heap -> Prop) {A} (m : M parser A) : keeps P p_heap m -> keeps P st_heap (liftP m).
Proof. intros Hm. apply (pres_zoom P st_heap p_heap); [done|done|exact Hm]. Qed.

Lemma pres_liftPH (P : heap -> Prop) {A} (m : M heap A) : keeps P id m -> keeps P st_heap (liftPH m).
Proof. intros Hm. apply pres_liftP, pres_liftH, Hm. Qed.

Lemma pres_getL (P : heap -> Prop) : keeps P st_heap getL.
Proof. apply pres_gets. Qed.

Lemma pres_modL (P : heap -> Prop) (f : st_locals -> st_locals) : keeps P st_heap (modL f).
Proof. apply pres_modify. done. Qed.

Lemma pres_run_locals (P : heap -> Prop) (m : M ST unit) (l0 : st_locals) :
  keeps P st_heap m -> keeps P p_heap (run_locals m l0).
Proof.
  intros Hm p H. unfold run_locals. specialize (Hm (p, l0) H).
  by destruct (m (p, l0)).
Qed.

(** *** The primitives of the store *)

Lemma star_clears_namespace_app (h : heap) (o : obj) :
  star_clears_namespace h ->
  (forall s i, o = OImport s i -> star i = true -> namespace i = None) ->
  star_clears_namespace (h ++ [o]).
Proof.
  intros Hh Ho r i Hr Hstar. unfold heap_import in Hr. unfold heap in *.
  destruct (decide (r < length h)%nat) as [Hlt|Hge].
  - rewrite lookup_app_l in Hr by done. by apply (Hh r).
  - rewrite lookup_app_r in Hr by lia.
    destruct (r - length h)%nat; simpl in Hr; [|done].
    destruct o; try discriminate. injection Hr as <-. by eapply Ho.
Qed.

Lemma star_clears_namespace_insert (h : heap) (r : ref) (o o' : obj) :
  star_clears_namespace h ->
  h !! r = Some o ->
  (forall s i, o' = OImport s i -> exists s0, o = OImport s0 i) ->
  star_clears_namespace (<[r := o']> h).
Proof.
  intros Hh Hr Ho x i Hx Hstar. unfold heap_import in Hx. unfold heap in *.
  destruct (decide (x = r)) as [->|Hne].
  - rewrite list_lookup_insert_eq in Hx by (by eapply lookup_lt_Some).
    destruct o'; try discriminate. injection Hx as <-.
    destruct (Ho _ _ eq_refl) as [s0 ->].
    apply (Hh r); [|done]. unfold heap_import. unfold heap. by rewrite Hr.
  - rewrite list_lookup_insert_ne in Hx by done. by apply (Hh x).
Qed.

Lemma pres_alloc (o : obj) :
  (forall s i, o = OImport s i -> star i = true -> namespace i = None) ->
  pres id (alloc o).
Proof. intros Ho h H. simpl. by apply star_clears_namespace_app. Qed.

Lemma pres_deref (r : ref) : pres id (deref r).
Proof. intros h H. unfold deref. by destruct (h !! r). Qed.

Lemma pres_deref_opt (r : option ref) : pres id (deref_opt r).
Proof.
  destruct r; simpl; [|apply pres_raise].
  apply pres_bind; [apply pres_deref|intros; apply pres_ret].
Qed.

(** [deref] followed by a [store] of an object that is no Import, or the
    Import that was read with other [Simple] attributes. *)
Lemma pres_update (r : ref) (k : obj -> M heap unit) :
  (forall o, (exists o', k o = store r o'
                         /\ forall s i, o' = OImport s i -> exists s0, o = OImport s0 i)
             \/ (exists e, k o = raise e)) ->
  pres id (o <- deref r ;; k o).
Proof.
  intros Hk h H. unfold bind, deref.
  destruct (h !! r) as [o|] eqn:Hr; [|done].
  destruct (Hk o) as [(o' & -> & Ho)|(e & ->)]; [|done].
  simpl. by eapply star_clears_namespace_insert.
Qed.

Lemma pres_store_other (r : ref) (o : obj) :
  (forall s i, o <> OImport s i) -> pres id (store r o).
Proof.
  intros Ho h H x i Hx Hstar. simpl in Hx. unfold heap_import in Hx.
  unfold heap in *.
  destruct (decide (x = r)) as [->|Hne].
  - destruct (decide (r < length h)%nat).
    + rewrite list_lookup_insert_eq in Hx by done.
      destruct o; try discriminate. by destruct (Ho s i0).
    + rewrite list_insert_ge in Hx by lia. by apply (H r).
  - rewrite list_lookup_insert_ne in Hx by done. by apply (H x).
Qed.

Local Arguments bind : simpl never.
Local Arguments ret : simpl never.
Local Arguments raise : simpl never.
Local Arguments get : simpl never.
Local Arguments gets : simpl never.
Local Arguments modify : simpl never.
Local Arguments try_catch : simpl never.
Local Arguments zoom : simpl never.
Local Arguments of_option : simpl never.
Local Arguments when : simpl never.
Local Arguments mfor : simpl never.
Local Arguments store : simpl never.
Local Arguments alloc : simpl never.
Local Arguments deref : simpl never.
Local Arguments deref_opt : simpl never.
Local Arguments with_size : simpl never.
Local Arguments run_locals : simpl never.

Create HintDb pres.
#[local] Hint Resolve pres_deref pres_deref_opt : pres.

Ltac pres_step :=
  lazymatch goal with
  | |- keeps _ _ (bind _ _) => apply pres_bind; [|intros ?]
  | |- keeps _ _ (ret _) => apply pres_ret
  | |- keeps _ _ (raise _) => apply pres_raise
  | |- keeps _ _ get => apply pres_get
  | |- keeps _ _ (gets _) => apply pres_gets
  | |- keeps _ _ getL => apply pres_getL
  | |- keeps _ _ (modL _) => apply pres_modL
  | |- keeps _ _ (modify _) => apply pres_modify; intros ?; reflexivity
  | |- keeps _ _ (of_option _ _) => apply pres_of_option
  | |- keeps _ _ (when _ _) => apply pres_when
  | |- keeps _ _ (mfor _ _) => apply pres_mfor; intros ?
  | |- keeps _ _ (try_catch _ _ _) => apply pres_try_catch; [|intros ?]
  | |- keeps _ _ (with_size _) => apply pres_with_size; intros ?
  | |- keeps _ _ (liftH _) => apply pres_liftH
  | |- keeps _ _ (liftPH _) => apply pres_liftPH
  | |- keeps _ _ (liftP _) => apply pres_liftP
  | |- keeps _ _ (liftG _) => apply pres_liftG
  | |- keeps _ _ push_last_back => apply pres_liftG
  | |- keeps _ _ (run_locals _ _) => apply pres_run_locals
  | |- keeps _ _ (store _ _) => apply pres_store_other; intros ? ?; discriminate
  | |- keeps _ _ (alloc _) =>
      first [apply pres_alloc; intros ? ?; discriminate | solve [auto with pres]]
  | |- keeps _ _ (match obj_scope ?o with _ => _ end) => destruct o; simpl
  | |- keeps _ _ (match obj_call ?o with _ => _ end) => destruct o; simpl
  | |- keeps _ _ (match obj_simple ?o with _ => _ end) => destruct o; simpl
  | |- keeps _ _ (if ?b then _ else _) => destruct b
  | |- keeps _ _ (match ?x with _ => _ end) => destruct x; simpl
  | |- keeps _ _ (let _ := _ in _) => cbv zeta
  | |- _ => solve [auto with pres]
  end.

Ltac pres_auto := repeat pres_step.

(** *** Operations on the store *)

Ltac pres_update_tac :=
  apply pres_update; intros o; destruct o; simpl;
  first [ right; eexists; reflexivity
        | left; eexists; split;
          [reflexivity | intros ? ? Heq; inversion Heq; subst; eauto] ].

Lemma pres_set_start_pos r v : pres id (set_start_pos r v).
Proof. unfold set_start_pos. pres_update_tac. Qed.

Lemma pres_set_end_pos r v : pres id (set_end_pos r v).
Proof. unfold set_end_pos. pres_update_tac. Qed.

(** Reading an object and going on by cases: whatever follows keeps the
    invariant when the object is no Import, and an Import is stored back
    with other [Simple] attributes only. *)
Lemma pres_deref_cases (r : ref) (k : obj -> M heap unit) :
  (forall o, (forall s i, o <> OImport s i) -> pres id (k o)) ->
  (forall s i, exists s', k (OImport s i) = store r (OImport s' i)) ->
  pres id (o <- deref r ;; k o).
Proof.
  intros Hother Himp h H. unfold bind, deref.
  destruct (h !! r) as [o|] eqn:Hr; [|done].
  assert (Hcases : (exists s i, o = OImport s i) \/ (forall s i, o <> OImport s i)).
  { destruct o; try (right; intros ? ?; discriminate). left. eauto. }
  destruct Hcases as [(s & i & ->)|Hno].
  - destruct (Himp s i) as [s' ->]. simpl.
    eapply star_clears_namespace_insert; [done|done|].
    intros s1 i1 Heq. injection Heq as <- <-. eauto.
  - by apply Hother.
Qed.

Lemma pres_set_parent_fuel (fuel : nat) :
  forall r v, pres id (set_parent_fuel fuel r v).
Proof.
  induction fuel as [|fuel IH]; intros r v; simpl.
  - apply pres_deref_cases.
    + intros o Ho. destruct o; simpl; pres_auto. by destruct (Ho s i).
    + intros s i. eexists. reflexivity.
  - apply pres_deref_cases.
    + intros o Ho. destruct o; simpl; pres_auto. by destruct (Ho s i).
    + intros s i. eexists. reflexivity.
Qed.
#[local] Hint Resolve pres_set_start_pos pres_set_end_pos pres_set_parent_fuel : pres.

Lemma pres_get_parent r : pres id (get_parent r).
Proof. unfold get_parent; pres_auto. Qed.
#[local] Hint Resolve pres_get_parent : pres.

Lemma pres_get_line_offset m : pres id (get_line_offset m).
Proof. unfold get_line_offset; pres_auto. Qed.
#[local] Hint Resolve pres_get_line_offset : pres.

Lemma pres_get_simple r : pres id (get_simple r).
Proof. unfold get_simple; pres_auto. Qed.
#[local] Hint Resolve pres_get_simple : pres.

Lemma pres_get_start_pos r : pres id (get_start_pos r).
Proof. unfold get_start_pos; pres_auto. Qed.
#[local] Hint Resolve pres_get_start_pos : pres.

Lemma pres_get_end_pos r : pres id (get_end_pos r).
Proof. unfold get_end_pos; pres_auto. Qed.
#[local] Hint Resolve pres_get_end_pos : pres.

Lemma pres_set_parent r v : pres id (set_parent r v).
Proof. unfold set_parent; pres_auto. Qed.
#[local] Hint Resolve pres_set_parent : pres.

Lemma pres_set_parent_opt r v : pres id (set_parent_opt r v).
Proof. unfold set_parent_opt; pres_auto. Qed.
#[local] Hint Resolve pres_set_parent_opt : pres.

Lemma pres_get_names r : pres id (get_names r).
Proof. unfold get_names; pres_auto. Qed.
#[local] Hint Resolve pres_get_names : pres.

Lemma pres_get_stmt r : pres id (get_stmt r).
Proof. unfold get_stmt; pres_auto. Qed.
#[local] Hint Resolve pres_get_stmt : pres.

Lemma pres_update_stmt r f : pres id (update_stmt r f).
Proof. unfold update_stmt; pres_auto. Qed.
#[local] Hint Resolve pres_update_stmt : pres.

Lemma pres_update_scope_body r f : pres id (update_scope_body r f).
Proof. unfold update_scope_body; pres_auto. Qed.
#[local] Hint Resolve pres_update_scope_body : pres.

Lemma pres_get_scope_body r : pres id (get_scope_body r).
Proof. unfold get_scope_body; pres_auto. Qed.
#[local] Hint Resolve pres_get_scope_body : pres.

Lemma pres_get_module_data r : pres id (get_module_data r).
Proof. unfold get_module_data; pres_auto. Qed.
#[local] Hint Resolve pres_get_module_data : pres.

Lemma pres_update_module r f : pres id (update_module r f).
Proof. unfold update_module; pres_auto. Qed.
#[local] Hint Resolve pres_update_module : pres.

Lemma pres_new_name m names st e par : pres id (new_name m names st e par).
Proof. unfold new_name; pres_auto. Qed.
#[local] Hint Resolve pres_new_name : pres.

Lemma pres_set_next_fuel (fuel : nat) : forall r n, pres id (set_next_fuel fuel r n).
Proof. induction fuel as [|fuel IH]; intros r n; simpl; pres_auto. Qed.
#[local] Hint Resolve pres_set_next_fuel : pres.

Lemma pres_set_next r n : pres id (set_next r n).
Proof. unfold set_next; pres_auto. Qed.
#[local] Hint Resolve pres_set_next : pres.

Lemma pres_close_scopes (fuel : nat) : forall s e, pres id (close_scopes fuel s e).
Proof. induction fuel as [|fuel IH]; intros s e; destruct s; simpl; pres_auto. Qed.
#[local] Hint Resolve pres_close_scopes : pres.

Lemma pres_new_statement b m c sv uf uv tl st e :
  pres id (new_statement b m c sv uf uv tl st e).
Proof. unfold new_statement; pres_auto. Qed.
#[local] Hint Resolve pres_new_statement : pres.

(** An Import may be created when [star] comes with an absent namespace. *)
Lemma pres_new_import m st e ns al fr (sr : bool) rc df :
  (sr = true -> ns = None) ->
  pres id (new_import m st e ns al fr sr rc df).
Proof.
  intros Hgood. unfold new_import. apply pres_bind; [|intros ?; pres_auto].
  apply pres_alloc. intros s i Heq Hstar. injection Heq as _ <-. simpl in *. auto.
Qed.

Lemma pres_new_flow m c i st : pres id (new_flow m c i st).
Proof. unfold new_flow; pres_auto. Qed.
#[local] Hint Resolve pres_new_flow : pres.

Lemma pres_new_for_flow m i st ss : pres id (new_for_flow m i st ss).
Proof. unfold new_for_flow; pres_auto. Qed.
#[local] Hint Resolve pres_new_for_flow : pres.

Lemma pres_update_param r f : pres id (update_param r f).
Proof. unfold update_param; pres_auto. Qed.
#[local] Hint Resolve pres_update_param : pres.

Lemma pres_new_function b m n ps st a : pres id (new_function b m n ps st a).
Proof. unfold new_function; pres_auto. Qed.
#[local] Hint Resolve pres_new_function : pres.

Lemma pres_new_class m n ss st : pres id (new_class m n ss st).
Proof. unfold new_class; pres_auto. Qed.
#[local] Hint Resolve pres_new_class : pres.

Lemma pres_get_scope_obj s : pres id (get_scope_obj s).
Proof. unfold get_scope_obj; pres_auto. Qed.
#[local] Hint Resolve pres_get_scope_obj : pres.

Lemma pres_set_obj_decorators s ds : pres id (set_obj_decorators s ds).
Proof. unfold set_obj_decorators; pres_auto. Qed.
#[local] Hint Resolve pres_set_obj_decorators : pres.

Lemma pres_add_scope s sub ds : pres id (add_scope s sub ds).
Proof. unfold add_scope; pres_auto. Qed.
#[local] Hint Resolve pres_add_scope : pres.

Lemma pres_add_statement s st : pres id (add_statement s st).
Proof. unfold add_statement; pres_auto. Qed.
#[local] Hint Resolve pres_add_statement : pres.

Lemma pres_add_import s i : pres id (add_import s i).
Proof. unfold add_import; pres_auto. Qed.
#[local] Hint Resolve pres_add_import : pres.

Lemma pres_add_global m n : pres id (add_global m n).
Proof. unfold add_global; pres_auto. Qed.
#[local] Hint Resolve pres_add_global : pres.

Lemma pres_get_import r : pres id (get_import r).
Proof. unfold get_import; pres_auto. Qed.
#[local] Hint Resolve pres_get_import : pres.

Lemma pres_import_get_defined_names r : pres id (import_get_defined_names r).
Proof. unfold import_get_defined_names; pres_auto. Qed.
#[local] Hint Resolve pres_import_get_defined_names : pres.

Lemma pres_simple_get_set_vars r : pres id (simple_get_set_vars r).
Proof. unfold simple_get_set_vars; pres_auto. Qed.
#[local] Hint Resolve pres_simple_get_set_vars : pres.

Lemma pres_stmt_code_flat r : pres id (stmt_code_flat r).
Proof. unfold stmt_code_flat; pres_auto. Qed.
#[local] Hint Resolve pres_stmt_code_flat : pres.

Lemma pres_lc_get_code r : pres id (lc_get_code r).
Proof. unfold lc_get_code; pres_auto. Qed.
#[local] Hint Resolve pres_lc_get_code : pres.

Lemma pres_comp_src toks : pres id (comp_src toks).
Proof. induction toks as [|t toks IH]; simpl; pres_auto. Qed.
#[local] Hint Resolve pres_comp_src : pres.

Lemma pres_append_return f s : pres id (append_return f s).
Proof. unfold append_return; pres_auto. Qed.
#[local] Hint Resolve pres_append_return : pres.

Lemma pres_add_docstr le cd s str : pres id (add_docstr le cd s str).
Proof. unfold add_docstr; pres_auto. Qed.
#[local] Hint Resolve pres_add_docstr : pres.

Lemma pres_add_annotation s a : pres id (add_annotation s a).
Proof. unfold add_annotation; pres_auto. Qed.
#[local] Hint Resolve pres_add_annotation : pres.

Lemma pres_get_parent_until_function (fuel : nat) :
  forall r, pres id (get_parent_until_function fuel r).
Proof. induction fuel as [|fuel IH]; intros r; simpl; pres_auto. Qed.
#[local] Hint Resolve pres_get_parent_until_function : pres.

Lemma pres_pyname_str n : pres id (pyname_str n).
Proof. unfold pyname_str; pres_auto. Qed.
#[local] Hint Resolve pres_pyname_str : pres.

Lemma pres_set_next_on_last s f : pres id (set_next_on_last s f).
Proof. unfold set_next_on_last; pres_auto. Qed.
#[local] Hint Resolve pres_set_next_on_last : pres.

Lemma pres_set_generator f : pres id (set_generator f).
Proof. unfold set_generator; pres_auto. Qed.
#[local] Hint Resolve pres_set_generator : pres.

Lemma pres_set_start_pos_opt r v : pres id (set_start_pos_opt r v).
Proof. unfold set_start_pos_opt; pres_auto. Qed.
#[local] Hint Resolve pres_set_start_pos_opt : pres.

(** *** Operations of the parser *)

Lemma pres_next : pres p_heap next.
Proof. unfold next; pres_auto. Qed.
#[local] Hint Resolve pres_next : pres.

Lemma pres_get_current : pres p_heap get_current.
Proof. unfold get_current; pres_auto. Qed.
#[local] Hint Resolve pres_get_current : pres.

Lemma pres__check_user_stmt s : pres p_heap (_check_user_stmt s).
Proof. unfold _check_user_stmt; pres_auto. Qed.
#[local] Hint Resolve pres__check_user_stmt : pres.

Lemma pres_dot_name_append t : pres p_heap (dot_name_append t).
Proof. unfold dot_name_append; pres_auto. Qed.
#[local] Hint Resolve pres_dot_name_append : pres.

Lemma pres_dot_name_loop (fuel : nat) : forall names, pres p_heap (dot_name_loop fuel names).
Proof. induction fuel as [|fuel IH]; intros names; simpl; pres_auto. Qed.
#[local] Hint Resolve pres_dot_name_loop : pres.

Lemma pres__parse_dot_name fuel t : pres p_heap (_parse_dot_name fuel t).
Proof. unfold _parse_dot_name; pres_auto. Qed.
#[local] Hint Resolve pres__parse_dot_name : pres.

Lemma pres_lambda_params (fuel : nat) (pp : M parser (option ref * ptok)) :
  pres p_heap pp -> forall params, pres st_heap (lambda_params fuel pp params).
Proof.
  intros Hpp. induction fuel as [|fuel IH]; intros params; simpl; pres_auto.
Qed.

Lemma pres_stmt_body fuel ps args first_pos :
  (forall a, pres p_heap (ps a)) ->
  pres st_heap (stmt_body fuel ps args first_pos).
Proof.
  intros Hps. unfold stmt_body.
  pose proof (fun pp H => pres_lambda_params fuel pp H) as Hlam.
  pres_auto.
Qed.

Lemma pres_stmt_round body : pres st_heap body -> pres st_heap (stmt_round body).
Proof. intros Hb. unfold stmt_round; pres_auto. Qed.

Lemma pres_skip_comments (fuel : nat) : forall t, pres p_heap (skip_comments fuel t).
Proof. induction fuel as [|fuel IH]; intros t; simpl; pres_auto. Qed.
#[local] Hint Resolve pres_skip_comments : pres.

Lemma pres_parse_statement_gen le cd fuel loop args :
  (forall a fp br, pres st_heap (loop a fp br)) ->
  pres p_heap (parse_statement_gen le cd fuel loop args).
Proof. intros Hloop. unfold parse_statement_gen; pres_auto. Qed.

Lemma pres_stmt_loop le cd (fuel : nat) :
  forall args fp br, pres st_heap (stmt_loop le cd fuel args fp br).
Proof.
  induction fuel as [|fuel IH]; intros args fp br; simpl; [apply pres_raise|].
  pres_auto. apply pres_stmt_round, pres_stmt_body.
  intros ?. by apply pres_parse_statement_gen.
Qed.

Lemma pres__parse_statement le cd fuel args :
  pres p_heap (_parse_statement le cd fuel args).
Proof.
  unfold _parse_statement. apply pres_parse_statement_gen. apply pres_stmt_loop.
Qed.
#[local] Hint Resolve pres__parse_statement : pres.

Lemma pres_parentheses_loop le cd (fuel : nat) :
  forall tok names pos, pres p_heap (parentheses_loop le cd fuel tok names pos).
Proof. induction fuel as [|fuel IH]; intros tok names pos; simpl; pres_auto. Qed.
#[local] Hint Resolve pres_parentheses_loop : pres.

Lemma pres__parse_parentheses le cd fuel : pres p_heap (_parse_parentheses le cd fuel).
Proof. unfold _parse_parentheses; pres_auto. Qed.
#[local] Hint Resolve pres__parse_parentheses : pres.

Lemma pres_note_user_scope s fp : pres p_heap (note_user_scope s fp).
Proof. unfold note_user_scope; pres_auto. Qed.
#[local] Hint Resolve pres_note_user_scope : pres.

Lemma pres__parse_function le cd fuel : pres p_heap (_parse_function le cd fuel).
Proof. unfold _parse_function; pres_auto. Qed.
#[local] Hint Resolve pres__parse_function : pres.

Lemma pres__parse_class le cd fuel : pres p_heap (_parse_class le cd fuel).
Proof. unfold _parse_class; pres_auto. Qed.
#[local] Hint Resolve pres__parse_class : pres.

Lemma pres_skip_to_continue kw (fuel : nat) :
  forall tok, pres p_heap (skip_to_continue kw fuel tok).
Proof. induction fuel as [|fuel IH]; intros tok; simpl; pres_auto. Qed.
#[local] Hint Resolve pres_skip_to_continue : pres.

Lemma pres_import_list_loop kw (fuel : nat) :
  forall b imports, pres p_heap (import_list_loop kw fuel b imports).
Proof. induction fuel as [|fuel IH]; intros b imports; simpl; pres_auto. Qed.
#[local] Hint Resolve pres_import_list_loop : pres.

Lemma pres__parse_import_list kw fuel : pres p_heap (_parse_import_list kw fuel).
Proof. unfold _parse_import_list; pres_auto. Qed.
#[local] Hint Resolve pres__parse_import_list : pres.

Lemma pres_scope_column : pres p_heap scope_column.
Proof. unfold scope_column; pres_auto. Qed.
#[local] Hint Resolve pres_scope_column : pres.

Lemma pres_leave_scope : pres p_heap leave_scope.
Proof. unfold leave_scope; pres_auto. Qed.
#[local] Hint Resolve pres_leave_scope : pres.

Lemma pres_dedent_loop (fuel : nat) : forall t, pres p_heap (dedent_loop fuel t).
Proof. induction fuel as [|fuel IH]; intros t; simpl; pres_auto. Qed.
#[local] Hint Resolve pres_dedent_loop : pres.

Lemma pres_unindent_loop (fuel : nat) : forall t, pres p_heap (unindent_loop fuel t).
Proof. induction fuel as [|fuel IH]; intros t; simpl; pres_auto. Qed.
#[local] Hint Resolve pres_unindent_loop : pres.

Lemma pres_emit_import fp triple : pres p_heap (emit_import fp triple).
Proof.
  unfold emit_import. pres_auto. apply pres_new_import. discriminate.
Qed.
#[local] Hint Resolve pres_emit_import : pres.

Lemma pres_emit_from_import fp m rc d triple :
  pres p_heap (emit_from_import fp m rc d triple).
Proof.
  unfold emit_from_import. apply pres_bind; [apply pres_get|intros p].
  apply pres_bind; [pres_auto|intros sr].
  apply pres_liftH, pres_new_import. intros ->. reflexivity.
Qed.
#[local] Hint Resolve pres_emit_from_import : pres.

Lemma pres_count_dots (fuel : nat) : forall rc, pres p_heap (count_dots fuel rc).
Proof. induction fuel as [|fuel IH]; intros rc; simpl; pres_auto. Qed.
#[local] Hint Resolve pres_count_dots : pres.

Lemma pres_flow_inits le cd (fuel : nat) :
  forall c added first tok inits,
    pres p_heap (flow_inits le cd fuel c added first tok inits).
Proof.
  induction fuel as [|fuel IH]; intros c added first tok inits; simpl; pres_auto.
Qed.
#[local] Hint Resolve pres_flow_inits : pres.

Lemma pres_parse_round le cd kw fuel t : pres p_heap (parse_round le cd kw fuel t).
Proof. unfold parse_round; pres_auto. Qed.
#[local] Hint Resolve pres_parse_round : pres.

Lemma pres_parse_loop le cd kw (fuel : nat) : pres p_heap (parse_loop le cd kw fuel).
Proof. induction fuel as [|fuel IH]; simpl; pres_auto. Qed.
#[local] Hint Resolve pres_parse_loop : pres.

Lemma pres__parse le cd kw fuel : pres p_heap (_parse le cd kw fuel).
Proof. unfold _parse; pres_auto. Qed.
#[local] Hint Resolve pres__parse : pres.

Lemma pres_parser_init_body le cd kw fuel : pres p_heap (parser_init_body le cd kw fuel).
Proof. unfold parser_init_body; pres_auto. Qed.

(** *** The Import a from-import emits for a star *)

(** Assigning parents leaves the attributes of an Import as they are. *)
Lemma set_parent_fuel_keeps_import (fuel : nat) :
  forall (r : ref) (v : option ref) (h : heap) (n : ref) (i : import_data),
    (exists s, h !! n = Some (OImport s i)) ->
    exists s', final_state (set_parent_fuel fuel r v h) !! n = Some (OImport s' i).
Proof.
  induction fuel as [|fuel IH]; intros r v h n i [s Hn]; simpl;
    unfold bind, deref, store, ret, raise; unfold heap in *;
    (destruct (h !! r) as [o|] eqn:Hr; [|simpl; eauto]);
    (destruct (decide (n = r)) as [->|Hne];
     [ rewrite Hn in Hr; injection Hr as <-; simpl;
       rewrite list_lookup_insert_eq by (by eapply lookup_lt_Some); eauto
     | ]).
  - destruct o; simpl; try (rewrite list_lookup_insert_ne by done; eauto);
      try (by eauto).
    destruct (fl_next f); simpl; rewrite list_lookup_insert_ne by done; eauto.
  - destruct o; simpl; try (rewrite list_lookup_insert_ne by done; eauto);
      try (by eauto).
    destruct (fl_next f); simpl.
    + apply IH. rewrite list_lookup_insert_ne by done. eauto.
    + rewrite list_lookup_insert_ne by done. eauto.
Qed.

Lemma mfor_set_parent_keeps_import (l : list ref) (v : option ref) :
  forall (h : heap) (n : ref) (i : import_data),
    (exists s, h !! n = Some (OImport s i)) ->
    exists s', final_state (mfor l (fun x => set_parent x v) h) !! n
               = Some (OImport s' i).
Proof.
  induction l as [|x l IH]; intros h n i Hn.
  - exact Hn.
  - change (mfor (x :: l) (fun x => set_parent x v) h)
      with (bind (set_parent x v) (fun _ => mfor l (fun x => set_parent x v)) h).
    unfold bind.
    pose proof (set_parent_fuel_keeps_import (length h) x v h n i Hn) as Hx.
    change (set_parent x v h) with (set_parent_fuel (length h) x v h).
    destruct (set_parent_fuel (length h) x v h) as [[] h1|e h1]; simpl in *.
    + by apply IH.
    + done.
Qed.

Lemma emit_from_import_star (p : parser) (first_pos : pos) (from_mod : option ref)
    (relative_count : Z) (defunct : bool) (name : ref) (alias : pyname)
    (defunct2 : bool) (s : simple) (q : pos) (rest : list (string * pos)) :
  p_heap p !! name = Some (OName s (("*", q) :: rest)) ->
  exists s' i,
    p_heap (final_state
              (emit_from_import first_pos from_mod relative_count defunct
                 (Some name, alias, defunct2) p))
      !! length (p_heap p) = Some (OImport s' i)
    /\ star i = true /\ namespace i = None.
Proof.
  intros Hname.
  unfold emit_from_import, bind at 1, get. simpl.
  unfold bind at 1, bind at 1, liftH at 1, zoom, get_names, bind, deref.
  rewrite Hname. simpl.
  unfold liftH, zoom, new_import. unfold bind at 1, alloc.
  set (imp := OImport _ _).
  set (l := (option_list None ++ _ ++ option_list from_mod)%list).
  destruct (mfor_set_parent_keeps_import l (Some (use_as_parent (length (p_heap p))))
              (p_heap p ++ [imp]) (length (p_heap p))
              (ImportData None alias from_mod true relative_count (defunct || defunct2)))
    as [s' Hs'].
  { eexists. unfold heap. rewrite lookup_app_r by lia.
    rewrite Nat.sub_diag. reflexivity. }
  unfold bind. cbn [p_heap set_p_heap].
  match goal with
  | |- context [mfor l ?f ?h0] => destruct (mfor l f h0) as [[] h2|e h2]
  end; simpl in *;
    exists s', (ImportData None alias from_mod true relative_count (defunct || defunct2));
    split; try done.
Qed.

(** C8.  Whatever the tokens and the other arguments, every Import in the
    store a Parser leaves behind has an absent namespace when its [star] is
    set, also when the parse is cut short; and the Import that a
    from-import emits for a name whose first part is the star has [star]
    set and the namespace cleared. *)
Theorem imports_star_clears_namespace
    (literal_eval : string -> option literal) (cleandoc : literal -> string)
    (kwlist : list string) (fuel : nat) (tokens : list token) (multilevel : bool)
    (module_path : option string) (user_pos : option pos) (no_doc : bool)
    (offset : Z) (r : ref) (i : import_data)
    (p : parser) (first_pos : pos) (from_mod : option ref) (relative_count : Z)
    (defunct : bool) (name : ref) (alias : pyname) (defunct2 : bool)
    (s : simple) (q : pos) (rest : list (string * pos)) :
  (heap_import
     (p_heap (final_state
                (Parser_init literal_eval cleandoc kwlist fuel tokens multilevel
                   module_path user_pos no_doc offset))) r = Some i ->
   star i = true -> namespace i = None)
  /\ (p_heap p !! name = Some (OName s (("*", q) :: rest)) ->
      exists s' i',
        p_heap (final_state
                  (emit_from_import first_pos from_mod relative_count defunct
                     (Some name, alias, defunct2) p))
          !! length (p_heap p) = Some (OImport s' i')
        /\ star i' = true /\ namespace i' = None).
Proof.
  split.
  - apply (pres_parser_init_body literal_eval cleandoc kwlist fuel
             (initial_parser tokens multilevel module_path user_pos no_doc offset)).
    intros x j Hx. destruct x as [|[|x]]; discriminate.
  - apply emit_from_import_star.
Qed.

(** The hypotheses of C8 hold of the Import parsed from [from m import *]
    and of a parser whose store holds the Name of a star. *)
Lemma imports_star_clears_namespace_witness :
  (exists i,
     heap_import
       (p_heap (final_state
                  (Parser_init decimal_literal_eval plain_cleandoc kwlist_py27 100
                     tokens_from_import_star false None None false 0))) 3%nat
     = Some i
     /\ star i = true /\ namespace i = None)
  /\ exists s' i',
       p_heap (final_state
                 (emit_from_import (1, 0) None 0 false (Some 1%nat, PNone, false)
                    (set_p_heap
                       [OModule (Simple None 0%nat (1, 0) None) empty_scope_body
                          (ModuleData None [] ∅ [] 0);
                        OName (Simple None 0%nat (1, 14) (Some (1, 15)))
                          [("*", (1, 14))]]
                       (initial_parser [] false None None false 0))))
         !! 2%nat = Some (OImport s' i')
       /\ star i' = true /\ namespace i' = None.
Proof.
  destruct (imports_star_clears_namespace decimal_literal_eval plain_cleandoc
              kwlist_py27 100 tokens_from_import_star false None None false 0
              3%nat (ImportData None PNone (Some 1%nat) true 0 false)
              (set_p_heap
                 [OModule (Simple None 0%nat (1, 0) None) empty_scope_body
                    (ModuleData None [] ∅ [] 0);
                  OName (Simple None 0%nat (1, 14) (Some (1, 15)))
                    [("*", (1, 14))]]
                 (initial_parser [] false None None false 0))
              (1, 0) None 0 false 1%nat PNone false
              (Simple None 0%nat (1, 14) (Some (1, 15))) (1, 14) [])
    as [H1 H2].
  split.
  - eexists. split; [vm_compute; reflexivity|].
    split; [reflexivity|]. apply H1; vm_compute; reflexivity.
  - apply H2. reflexivity.
Defined.

(** * Further properties of the code *)

(** ** Operations that only read the store *)

Lemma keeps_deref (P : heap -> Prop) (r : ref) : keeps P id (deref r).
Proof. intros h H. unfold deref. by destruct (h !! r). Qed.

Lemma keeps_deref_opt (P : heap -> Prop) (r : option ref) : keeps P id (deref_opt r).
Proof.
  destruct r; simpl; [|apply pres_raise].
  apply pres_bind; [apply keeps_deref|intros; apply pres_ret].
Qed.
#[local] Hint Resolve keeps_deref keeps_deref_opt : pres.

Lemma keeps_get_simple P r : keeps P id (get_simple r).
Proof. unfold get_simple; pres_auto. Qed.

Lemma keeps_get_line_offset P r : keeps P id (get_line_offset r).
Proof. unfold get_line_offset; pres_auto. Qed.
#[local] Hint Resolve keeps_get_simple keeps_get_line_offset : pres.

Lemma keeps_get_start_pos P r : keeps P id (get_start_pos r).
Proof. unfold get_start_pos; pres_auto. Qed.

Lemma keeps_get_end_pos P r : keeps P id (get_end_pos r).
Proof. unfold get_end_pos; pres_auto. Qed.

Lemma keeps_get_parent P r : keeps P id (get_parent r).
Proof. unfold get_parent; pres_auto. Qed.

Lemma keeps_get_names P r : keeps P id (get_names r).
Proof. unfold get_names; pres_auto. Qed.

Lemma keeps_get_import P r : keeps P id (get_import r).
Proof. unfold get_import; pres_auto. Qed.
#[local] Hint Resolve keeps_get_start_pos keeps_get_end_pos keeps_get_parent
  keeps_get_names keeps_get_import : pres.

(** What a read-only operation leaves is the store it started from. *)
Lemma keeps_all_final {A} (m : M heap A) (h : heap) :
  (forall P, keeps P id m) -> final_state (m h) = h.
Proof. intros Hm. symmetry. by apply (Hm (fun h' => h = h')). Qed.

(** An allocation leaves the objects in the store as they are. *)
Lemma keeps_lookup_alloc (pm : ref) (o o' : obj) :
  keeps (fun h => h !! pm = Some o) id (alloc o').
Proof.
  intros h H. unfold alloc. simpl. unfold heap in *.
  rewrite lookup_app_l; [done|]. by eapply lookup_lt_Some.
Qed.
#[local] Hint Resolve keeps_lookup_alloc : pres.

Lemma keeps_lookup_simple_get_set_vars (pm : ref) (o : obj) (r : ref) :
  keeps (fun h => h !! pm = Some o) id (simple_get_set_vars r).
Proof.
  unfold simple_get_set_vars, import_get_defined_names, new_name; pres_auto.
Qed.
#[local] Hint Resolve keeps_lookup_simple_get_set_vars : pres.

(** ** [_check_user_stmt] and [used_names] *)

Lemma add_used_names_lookup (simple : ref) (pending : list string)
    (m : gmap string (gset ref)) (t : string) (r : ref) :
  r ∈ default ∅ (add_used_names simple pending m !! t) <->
  r ∈ default ∅ (m !! t) \/ (r = simple /\ t ∈ pending).
Proof.
  unfold add_used_names. revert m.
  induction pending as [|x l IH]; intros m; simpl.
  - split; [by left|]. intros [H|[_ H]]; [done|]. by apply not_elem_of_nil in H.
  - rewrite IH. destruct (decide (x = t)) as [->|Hne].
    + rewrite lookup_insert_eq. simpl. rewrite elem_of_union, elem_of_singleton.
      rewrite elem_of_cons. intuition auto.
    + rewrite lookup_insert_ne by done. rewrite elem_of_cons.
      intuition (subst; auto); congruence.
Qed.

(** The part of [_check_user_stmt] that looks at the user position leaves
    the objects of the store as they are. *)
Lemma check_user_stmt_position_keeps (pm : ref) (o : obj) (node : ref)
    (p0 : parser) :
  keeps (fun h => h !! pm = Some o) p_heap
    (match user_position p0 with
     | None => ret tt
     | Some up =>
         sp <- liftH (get_start_pos node) ;;
         ep <- liftH (get_end_pos node) ;;
         if pos_le sp up && pos_le_opt up ep then
           match user_stmt p0 with
           | Some _ =>
               vars <- liftH (simple_get_set_vars node) ;;
               mfor vars (fun n =>
                 nsp <- liftH (get_start_pos n) ;;
                 nep <- liftH (get_end_pos n) ;;
                 when (pos_lt nsp up && pos_le_opt up nep)
                      (modify (set_user_stmt (Some node))))
           | None => modify (set_user_stmt (Some node))
           end
         else ret tt
     end).
Proof. pres_auto. Qed.

Lemma check_user_stmt_module (p : parser) (node : ref) (s0 : simple)
    (b : scope_body) (m : module_data) :
  p_heap p !! p_module p = Some (OModule s0 b m) ->
  p_heap (final_state (_check_user_stmt node p)) !! p_module p =
    Some (OModule s0 b
            (set_temp_used_names []
               (set_used_names
                  (add_used_names node (temp_used_names m) (used_names m)) m))).
Proof.
  intros Hm. unfold _check_user_stmt.
  unfold bind at 1. unfold get at 1.
  unfold bind at 1.
  unfold liftH at 1, zoom at 1, update_module, bind at 1, deref at 1.
  rewrite Hm. unfold store. 
  match goal with
  | |- context [final_state (?k ?s)] =>
      apply (check_user_stmt_position_keeps (p_module p) _ node p s)
  end.
  simpl. unfold heap in *. apply list_lookup_insert_eq. by eapply lookup_lt_Some.
Qed.

(** X1: [_check_user_stmt(node)] adds [node] to the entry of [used_names]
    of every name pending in [temp_used_names], leaves the other entries as
    they were and empties [temp_used_names], whatever the user position
    makes it do afterwards. *)
Theorem check_user_stmt_used_names (p : parser) (node : ref) (s0 : simple)
    (b : scope_body) (m : module_data) :
  p_heap p !! p_module p = Some (OModule s0 b m) ->
  exists m',
    p_heap (final_state (_check_user_stmt node p)) !! p_module p
      = Some (OModule s0 b m')
    /\ temp_used_names m' = []
    /\ forall t r,
         r ∈ default ∅ (used_names m' !! t) <->
         r ∈ default ∅ (used_names m !! t) \/ (r = node /\ t ∈ temp_used_names m).
Proof.
  intros Hm. eexists. split; [by apply check_user_stmt_module|].
  split; [reflexivity|]. intros t r. simpl. apply add_used_names_lookup.
Qed.

Lemma check_user_stmt_used_names_witness :
  exists m',
    p_heap (final_state (_check_user_stmt 1%nat parser_pending_os))
      !! p_module parser_pending_os
      = Some (OModule (Simple None 0%nat (1, 0) None) empty_scope_body m')
    /\ temp_used_names m' = []
    /\ forall t r,
         r ∈ default ∅ (used_names m' !! t) <->
         r ∈ default ∅ (used_names (ModuleData None [] ∅ ["os"] 0) !! t)
         \/ (r = 1%nat /\ t ∈ temp_used_names (ModuleData None [] ∅ ["os"] 0)).
Proof.
  apply (check_user_stmt_used_names parser_pending_os 1%nat
           (Simple None 0%nat (1, 0) None) empty_scope_body
           (ModuleData None [] ∅ ["os"] 0)).
  reflexivity.
Defined.

Lemma dot_name_append_Ok (tok : string) (p : parser) (s0 : simple)
    (b : scope_body) (m : module_data) :
  p_heap p !! p_module p = Some (OModule s0 b m) ->
  dot_name_append tok p =
    Ok (tok, start_pos p)
       (set_p_heap (<[p_module p :=
                        OModule s0 b (set_temp_used_names (temp_used_names m ++ [tok]) m)]>
                      (p_heap p)) p).
Proof.
  intros Hm. unfold dot_name_append, bind, get, liftH, zoom, update_module, bind, deref.
  rewrite Hm. reflexivity.
Qed.

(** X2: a name recorded by the [append] of [_parse_dot_name] is attributed
    to the node that [_check_user_stmt] receives next: afterwards the node
    is in the entry of that name in [used_names], and nothing is pending. *)
Theorem dotted_name_reaches_used_names (p : parser) (tok : string) (node : ref)
    (s0 : simple) (b : scope_body) (m : module_data) :
  p_heap p !! p_module p = Some (OModule s0 b m) ->
  exists m',
    p_heap (final_state ((dot_name_append tok ;; _check_user_stmt node) p))
      !! p_module p = Some (OModule s0 b m')
    /\ node ∈ default ∅ (used_names m' !! tok)
    /\ temp_used_names m' = [].
Proof.
  intros Hm. unfold bind at 1. rewrite (dot_name_append_Ok tok p s0 b m Hm).
  set (p1 := set_p_heap _ p).
  assert (H1 : p_heap p1 !! p_module p1 =
               Some (OModule s0 b (set_temp_used_names (temp_used_names m ++ [tok]) m))).
  { subst p1. simpl. unfold heap in *. apply list_lookup_insert_eq.
    by eapply lookup_lt_Some. }
  pose proof (check_user_stmt_module p1 node _ _ _ H1) as H2.
  eexists. split; [exact H2|]. split; [|reflexivity].
  simpl. apply add_used_names_lookup. right. split; [done|].
  apply elem_of_app. right. apply list_elem_of_singleton. done.
Qed.

Lemma dotted_name_reaches_used_names_witness :
  exists m',
    p_heap (final_state ((dot_name_append "os" ;; _check_user_stmt 1%nat)
                           (initial_parser [] false None None false 0)))
      !! p_module (initial_parser [] false None None false 0)
      = Some (OModule (Simple None 0%nat (0 + 1, 0) None) empty_scope_body m')
    /\ 1%nat ∈ default ∅ (used_names m' !! "os")
    /\ temp_used_names m' = [].
Proof.
  apply (dotted_name_reaches_used_names (initial_parser [] false None None false 0)
           "os" 1%nat (Simple None 0%nat (0 + 1, 0) None) empty_scope_body
           (ModuleData None [] ∅ [] 0)).
  reflexivity.
Defined.

(** ** [_parse_dot_name] records the parts of a name *)

Lemma next_Ok (p p' : parser) (t : tok_type * string) :
  next p = Ok t p' -> p_heap p' = p_heap p /\ p_module p' = p_module p.
Proof.
  unfold next, bind, try_catch, liftG, zoom.
  destruct (gen_next (_gen p)) as [tk g|e g]; simpl.
  - unfold modify, get, when, ret.
    match goal with |- context [if ?c then _ else _] => destruct c end;
      simpl; intros H; injection H as <- <-; done.
  - destruct (is_stop e); [|discriminate].
    unfold get, liftH, zoom. 
    match goal with |- context [with_size ?f ?h] => destruct (with_size f h) end;
      simpl; discriminate.
Qed.

Lemma dot_name_loop_Ok (fuel : nat) :
  forall (names : list (string * pos)) (p : parser) names' t p' s0 b m,
    dot_name_loop fuel names p = Ok (names', t) p' ->
    p_heap p !! p_module p = Some (OModule s0 b m) ->
    p_module p' = p_module p
    /\ length (p_heap p') = length (p_heap p)
    /\ exists ext m',
         names' = names ++ ext
         /\ p_heap p' !! p_module p = Some (OModule s0 b m')
         /\ temp_used_names m' = temp_used_names m ++ (fst <$> ext)
         /\ used_names m' = used_names m.
Proof.
  induction fuel as [|fuel IH]; intros names p names' t p' s0 b m H Hm;
    simpl in H; [discriminate|].
  apply bind_Ok in H as (t1 & p1 & Hn1 & H).
  apply next_Ok in Hn1 as [Hh1 Hm1].
  destruct (negb (streq t1.2 ".")).
  { injection H as <- <- <-. rewrite Hh1, Hm1. do 2 (split; [done|]).
    exists [], m. rewrite !app_nil_r. done. }
  apply bind_Ok in H as (t2 & p2 & Hn2 & H).
  apply next_Ok in Hn2 as [Hh2 Hm2].
  destruct (negb (bool_decide (t2.1 = NAME))).
  { injection H as <- <- <-. rewrite Hh2, Hm2, Hh1, Hm1. do 2 (split; [done|]).
    exists [], m. rewrite !app_nil_r. done. }
  apply bind_Ok in H as (el & p3 & Ha & H).
  assert (Hm2' : p_heap p2 !! p_module p2 = Some (OModule s0 b m)).
  { by rewrite Hh2, Hm2, Hh1, Hm1. }
  rewrite (dot_name_append_Ok _ _ _ _ _ Hm2') in Ha. injection Ha as <- <-.
  assert (Hlt : (p_module p < length (p_heap p))%nat) by (by eapply lookup_lt_Some).
  eapply IH in H as (Hpm & Hlen & ext & m' & -> & Hlk & Htmp & Hused).
  2:{ simpl. unfold heap in *. apply list_lookup_insert_eq.
      rewrite Hh2, Hm2, Hh1, Hm1. exact Hlt. }
  simpl in *. unfold heap in *. rewrite length_insert in Hlen.
  rewrite Hm2, Hm1 in *. rewrite Hh2, Hh1 in Hlen.
  do 2 (split; [done|]).
  exists ((t2.2, start_pos p2) :: ext), m'.
  split; [by rewrite <- app_assoc|]. split; [done|]. split; [|done].
  rewrite Htmp. simpl. by rewrite <- app_assoc.
Qed.

(** X3: when [_parse_dot_name] returns a Name, the Name is not empty, and
    the texts of its parts are what the call has appended to
    [temp_used_names], in order; [used_names] is left as it was. *)
Theorem parse_dot_name_records_parts (fuel : nat)
    (pre_used_token : option (tok_type * string)) (p p' : parser) (n : ref)
    (t : tok_type * string) (s0 : simple) (b : scope_body) (m : module_data) :
  _parse_dot_name fuel pre_used_token p = Ok (PName n, t) p' ->
  p_heap p !! p_module p = Some (OModule s0 b m) ->
  exists sn names m',
    p_heap p' !! n = Some (OName sn names)
    /\ names <> []
    /\ p_heap p' !! p_module p = Some (OModule s0 b m')
    /\ temp_used_names m' = temp_used_names m ++ (fst <$> names)
    /\ used_names m' = used_names m.
Proof.
  intros H Hm. unfold _parse_dot_name in H.
  apply bind_Ok in H as (first & p1 & Hfirst & H).
  assert (Hp1 : p_heap p1 = p_heap p /\ p_module p1 = p_module p).
  { destruct pre_used_token as [t0|].
    - by injection Hfirst as <- <-.
    - apply bind_Ok in Hfirst as (t0 & p0 & Hn & Hr). injection Hr as <- <-.
      by apply next_Ok in Hn. }
  destruct Hp1 as [Hh1 Hm1].
  destruct (first.2); [discriminate|].
  cbv zeta in H.
  destruct (negb (bool_decide ((first.1).1 = NAME)) && negb (streq (first.1).2 "*"));
    [discriminate|].
  apply bind_Ok in H as (el & p2 & Ha & H).
  assert (Hm1' : p_heap p1 !! p_module p1 = Some (OModule s0 b m)).
  { by rewrite Hh1, Hm1. }
  rewrite (dot_name_append_Ok _ _ _ _ _ Hm1') in Ha. injection Ha as <- <-.
  apply bind_Ok in H as (q & p3 & Hg & H). injection Hg as <- <-.
  apply bind_Ok in H as ([names' t'] & p4 & Hloop & H).
  assert (Hlt : (p_module p < length (p_heap p))%nat) by (by eapply lookup_lt_Some).
  eapply dot_name_loop_Ok in Hloop as (Hpm & Hlen & ext & m' & -> & Hlk & Htmp & Hused).
  2:{ simpl. unfold heap in *. apply list_lookup_insert_eq. rewrite Hh1, Hm1. exact Hlt. }
  simpl in Hpm, Hlen, Hlk, Htmp, Hused. unfold heap in *.
  rewrite length_insert in Hlen. rewrite Hm1 in *. rewrite Hh1 in Hlen.
  apply bind_Ok in H as (q & p5 & Hg & H). injection Hg as <- <-.
  apply bind_Ok in H as (n0 & p6 & Hnew & H). injection H as <- <- <-.
  unfold liftH, zoom, new_name, alloc in Hnew. injection Hnew as <- <-.
  simpl. unfold heap in *.
  eexists _, _, m'. split.
  { rewrite lookup_app_r by lia. rewrite Nat.sub_diag. reflexivity. }
  split; [discriminate|]. split.
  { rewrite lookup_app_l by lia. exact Hlk. }
  split; [|done]. rewrite Htmp. simpl. by rewrite <- app_assoc.
Qed.

Lemma parse_dot_name_records_parts_witness :
  let p := initial_parser tokens_os_path false None None false 0 in
  exists sn names m',
    p_heap (final_state (_parse_dot_name 10 None p)) !! 1%nat = Some (OName sn names)
    /\ names <> []
    /\ p_heap (final_state (_parse_dot_name 10 None p)) !! p_module p
       = Some (OModule (Simple None 0%nat (0 + 1, 0) None) empty_scope_body m')
    /\ temp_used_names m'
       = temp_used_names (ModuleData None [] ∅ [] 0) ++ (fst <$> names)
    /\ used_names m' = used_names (ModuleData None [] ∅ [] 0).
Proof.
  intros p.
  apply (parse_dot_name_records_parts 10 None p
           (final_state (_parse_dot_name 10 None p)) 1%nat (NEWLINE, newline)
           (Simple None 0%nat (0 + 1, 0) None) empty_scope_body
           (ModuleData None [] ∅ [] 0)).
  - vm_compute. reflexivity.
  - reflexivity.
Defined.

(** ** The methods of [Array] *)

Lemma append_to_last_snoc {A} (x : A) (vs : list (list A)) (v : list A) :
  append_to_last x (vs ++ [v]) = vs ++ [v ++ [x]].
Proof.
  induction vs as [|w vs IH]; [reflexivity|].
  simpl. rewrite IH. destruct (vs ++ [v]) eqn:E; [|reflexivity].
  by destruct vs.
Qed.

Lemma get_array_lookup (h : heap) (r : ref) (c : call_data) (a : array_data) :
  h !! r = Some (OArray c a) -> get_array (Some r) h = Ok (r, c, a) h.
Proof. intros H. unfold get_array, deref_opt, bind, deref. by rewrite H. Qed.

Lemma add_to_current_field_data_nonempty (tok : item) (a : array_data) :
  values a <> [] ->
  add_to_current_field_data tok a = set_values (append_to_last tok (values a)) a.
Proof.
  unfold add_to_current_field_data.
  destruct (values a) eqn:E; [done|]. intros _. cbv zeta. by rewrite E.
Qed.

(** X4: on an Array that has a field already, [add_to_current_field]
    appends the token to the last field and changes nothing else: the type,
    the number of fields, the keys and the other fields stay. *)
Theorem add_to_current_field_last_field (h : heap) (r : ref) (c : call_data)
    (a : array_data) (vs : list (list item)) (v : list item) (tok : item) :
  h !! r = Some (OArray c a) ->
  values a = vs ++ [v] ->
  add_to_current_field (Some r) tok h
  = Ok tt (<[r := OArray c (ArrayData (a_type a) (vs ++ [v ++ [tok]])
                              (arr_el_pos a) (keys a))]> h).
Proof.
  intros Hr Hv. unfold add_to_current_field, bind.
  rewrite (get_array_lookup _ _ _ _ Hr). simpl.
  rewrite add_to_current_field_data_nonempty by (rewrite Hv; by destruct vs).
  unfold set_values. simpl. by rewrite Hv, append_to_last_snoc.
Qed.

Lemma add_to_current_field_last_field_witness :
  add_to_current_field (Some 0%nat) (IStr "+")
    [OArray (CallData None None (1, 0) None None None None)
            (ArrayData TUPLE [[IStr "a"]; [IStr "b"]] [] [])]
  = Ok tt [OArray (CallData None None (1, 0) None None None None)
                  (ArrayData TUPLE [[IStr "a"]; [IStr "b"; IStr "+"]] [] [])].
Proof.
  apply (add_to_current_field_last_field
           [OArray (CallData None None (1, 0) None None None None)
                   (ArrayData TUPLE [[IStr "a"]; [IStr "b"]] [] [])]
           0%nat (CallData None None (1, 0) None None None None)
           (ArrayData TUPLE [[IStr "a"]; [IStr "b"]] [] [])
           [[IStr "a"]] [IStr "b"] (IStr "+")); reflexivity.
Defined.

(** X5: [add_field] followed by [add_to_current_field] opens a field that
    holds the token alone and keeps the type of the Array, also that of a
    TUPLE without fields. *)
Theorem add_field_then_add_to_current_field (h : heap) (r : ref) (c : call_data)
    (a : array_data) (start : pos) (tok : item) :
  h !! r = Some (OArray c a) ->
  (add_field (Some r) start ;; add_to_current_field (Some r) tok) h
  = Ok tt (<[r := OArray c (ArrayData (a_type a) (values a ++ [[tok]])
                              (arr_el_pos a ++ [start]) (keys a))]> h).
Proof.
  intros Hr. unfold bind at 1. unfold add_field, bind.
  rewrite (get_array_lookup _ _ _ _ Hr). simpl. unfold store.
  assert (Hlt : (r < length h)%nat) by (by eapply lookup_lt_Some).
  unfold add_to_current_field, bind.
  rewrite (get_array_lookup _ r c
             (set_values (values a ++ [[]])
                (set_arr_el_pos (arr_el_pos a ++ [start]) a)))
    by (unfold heap in *; by apply list_lookup_insert_eq).
  simpl. rewrite add_to_current_field_data_nonempty by (simpl; by destruct (values a)).
  unfold set_values. simpl. rewrite append_to_last_snoc.
  unfold store. unfold heap in *. by rewrite list_insert_insert_eq.
Qed.

Lemma add_field_then_add_to_current_field_witness :
  (add_field (Some 0%nat) (1, 1) ;; add_to_current_field (Some 0%nat) (IStr "x"))
    [OArray (CallData None None (1, 0) None None None None)
            (ArrayData TUPLE [] [] [])]
  = Ok tt (<[0%nat := OArray (CallData None None (1, 0) None None None None)
                        (ArrayData TUPLE ([] ++ [[IStr "x"]]) ([] ++ [(1, 1)]) [])]>
             [OArray (CallData None None (1, 0) None None None None)
                     (ArrayData TUPLE [] [] [])]).
Proof.
  apply (add_field_then_add_to_current_field
           [OArray (CallData None None (1, 0) None None None None)
                   (ArrayData TUPLE [] [] [])]
           0%nat (CallData None None (1, 0) None None None None)
           (ArrayData TUPLE [] [] []) (1, 1) (IStr "x")).
  reflexivity.
Defined.

(** X6: on an Array that is no LIST and no TUPLE and has a field,
    [add_dictionary_key] moves the last field to the keys and opens an
    empty field in its place, so the number of fields stays; a SET becomes
    a DICT. *)
Theorem add_dictionary_key_moves_last_field (h : heap) (r : ref) (c : call_data)
    (a : array_data) (vs : list (list item)) (v : list item) :
  h !! r = Some (OArray c a) ->
  a_type a <> LIST ->
  a_type a <> TUPLE ->
  values a = vs ++ [v] ->
  add_dictionary_key (Some r) h
  = Ok tt (<[r := OArray c (ArrayData (if decide (a_type a = SET) then DICT
                                       else a_type a)
                              (vs ++ [[]]) (arr_el_pos a) (keys a ++ [v]))]> h).
Proof.
  intros Hr Hl Ht Hv. unfold add_dictionary_key, bind.
  rewrite (get_array_lookup _ _ _ _ Hr). simpl.
  rewrite Hv, last_snoc, removelast_last.
  destruct (a_type a) eqn:E; try done;
    unfold store, set_values, set_keys, set_a_type; simpl; rewrite ?E; reflexivity.
Qed.

Lemma add_dictionary_key_moves_last_field_witness :
  add_dictionary_key (Some 0%nat)
    [OArray (CallData None None (1, 0) None None None None)
            (ArrayData SET [[IStr "k"]] [] [])]
  = Ok tt [OArray (CallData None None (1, 0) None None None None)
                  (ArrayData DICT [[]] [] [[IStr "k"]])].
Proof.
  apply (add_dictionary_key_moves_last_field
           [OArray (CallData None None (1, 0) None None None None)
                   (ArrayData SET [[IStr "k"]] [] [])]
           0%nat (CallData None None (1, 0) None None None None)
           (ArrayData SET [[IStr "k"]] [] []) [] [IStr "k"]);
    [reflexivity|discriminate|discriminate|reflexivity].
Defined.

(** X7: [add_dictionary_key] ignores a LIST and a TUPLE, and raises
    IndexError on any other Array that has no field yet; the store is
    unchanged in both cases. *)
Theorem add_dictionary_key_edge_cases (h : heap) (r : ref) (c : call_data)
    (a : array_data) :
  h !! r = Some (OArray c a) ->
  (a_type a = LIST \/ a_type a = TUPLE -> add_dictionary_key (Some r) h = Ok tt h)
  /\ (a_type a <> LIST -> a_type a <> TUPLE -> values a = [] ->
      add_dictionary_key (Some r) h = Raise IndexError h).
Proof.
  intros Hr. unfold add_dictionary_key, bind.
  rewrite (get_array_lookup _ _ _ _ Hr). simpl. split.
  - by intros [-> | ->].
  - intros Hl Ht ->. by destruct (a_type a).
Qed.

Lemma add_dictionary_key_edge_cases_witness :
  (a_type (ArrayData SET [] [] []) = LIST \/ a_type (ArrayData SET [] [] []) = TUPLE ->
   add_dictionary_key (Some 0%nat)
     [OArray (CallData None None (1, 0) None None None None) (ArrayData SET [] [] [])]
   = Ok tt [OArray (CallData None None (1, 0) None None None None)
                   (ArrayData SET [] [] [])])
  /\ (a_type (ArrayData SET [] [] []) <> LIST ->
      a_type (ArrayData SET [] [] []) <> TUPLE ->
      values (ArrayData SET [] [] []) = [] ->
      add_dictionary_key (Some 0%nat)
        [OArray (CallData None None (1, 0) None None None None) (ArrayData SET [] [] [])]
      = Raise IndexError
          [OArray (CallData None None (1, 0) None None None None)
                  (ArrayData SET [] [] [])]).
Proof.
  apply (add_dictionary_key_edge_cases
           [OArray (CallData None None (1, 0) None None None None)
                   (ArrayData SET [] [] [])]
           0%nat (CallData None None (1, 0) None None None None)
           (ArrayData SET [] [] [])).
  reflexivity.
Defined.

(** ** [Statement._remove_executions_from_set_vars] *)

Lemma remove_executions_sublist (toks : list tok_item) :
  forall (result : list ref) (last_is_name : bool) (in_execution : Z),
    sublist (remove_executions toks result last_is_name in_execution) result.
Proof.
  induction toks as [|t toks IH]; intros result lin ie; simpl; [done|].
  destruct t as [ty text sp|r|r|r]; simpl.
  - repeat case_match; apply IH.
  - case_match; [done|]. case_match; [apply IH|].
    etrans; [apply IH|]. apply sublist_filter.
  - apply IH.
  - apply IH.
Qed.

Lemma remove_executions_keeps (toks : list tok_item) (r : ref) :
  TName r ∉ toks ->
  forall (result : list ref) (last_is_name : bool) (in_execution : Z),
    r ∈ result ->
    r ∈ remove_executions toks result last_is_name in_execution.
Proof.
  induction toks as [|t toks IH]; intros Hnot result lin ie Hin; simpl; [done|].
  apply not_elem_of_cons in Hnot as [Hne Hnot].
  destruct t as [ty text sp|x|x|x]; simpl.
  - repeat case_match; by apply IH.
  - case_match; [done|]. case_match; [by apply IH|].
    apply IH; [done|]. apply list_elem_of_filter. split; [congruence|done].
  - by apply IH.
  - by apply IH.
Qed.

(** X8: the names [_remove_executions_from_set_vars] returns are names of
    [set_vars], each of them once. *)
Theorem remove_executions_from_set_vars_sound (toks : list tok_item)
    (set_vars : list ref) :
  NoDup (_remove_executions_from_set_vars toks set_vars)
  /\ forall r, r ∈ _remove_executions_from_set_vars toks set_vars -> r ∈ set_vars.
Proof.
  unfold _remove_executions_from_set_vars.
  destruct set_vars as [|x l]; [split; [constructor|done]|].
  pose proof (remove_executions_sublist toks (remove_dups (x :: l)) false 0) as Hs.
  split.
  - eapply sublist_NoDup; [|exact Hs]. apply NoDup_remove_dups.
  - intros r Hr. apply elem_of_remove_dups. by eapply elem_of_sublist.
Qed.

(** X9: a name of [set_vars] that does not occur as a token of the
    statement stays in the result of [_remove_executions_from_set_vars]. *)
Theorem remove_executions_from_set_vars_keeps (toks : list tok_item)
    (set_vars : list ref) (r : ref) :
  r ∈ set_vars ->
  TName r ∉ toks ->
  r ∈ _remove_executions_from_set_vars toks set_vars.
Proof.
  intros Hin Hnot. unfold _remove_executions_from_set_vars.
  destruct set_vars as [|x l]; [by apply not_elem_of_nil in Hin|].
  apply remove_executions_keeps; [done|]. by apply elem_of_remove_dups.
Qed.

Lemma remove_executions_from_set_vars_keeps_witness :
  2%nat ∈ _remove_executions_from_set_vars
            [TName 1%nat; TRaw OP "[" (1, 1); TName 3%nat; TRaw OP "]" (1, 3)]
            [1%nat; 2%nat].
Proof.
  apply (remove_executions_from_set_vars_keeps
           [TName 1%nat; TRaw OP "[" (1, 1); TName 3%nat; TRaw OP "]" (1, 3)]
           [1%nat; 2%nat] 2%nat).
  - apply (bool_decide_unpack _). vm_compute. reflexivity.
  - intros H. repeat (apply elem_of_cons in H as [H|H]; [discriminate|]).
    by apply not_elem_of_nil in H.
Defined.

(** ** Parents and scopes *)

Lemma obj_parent_with_scope (b : scope_body) (o : obj) :
  obj_parent (obj_with_scope b o) = obj_parent o.
Proof. by destruct o. Qed.

Lemma obj_scope_with_scope (b b0 : scope_body) (o : obj) :
  obj_scope o = Some b0 -> obj_scope (obj_with_scope b o) = Some b.
Proof. by destruct o. Qed.

Lemma obj_simple_with_simple (s s0 : simple) (o : obj) :
  obj_simple o = Some s0 -> obj_simple (obj_with_simple s o) = Some s.
Proof. by destruct o. Qed.

Lemma obj_scope_with_simple (s : simple) (o : obj) :
  obj_scope (obj_with_simple s o) = obj_scope o.
Proof. by destruct o. Qed.

Lemma has_parent_store (h : heap) (r n : ref) (v : option ref) (x : obj) :
  (n = r -> obj_parent x = Some v) ->
  has_parent h r v -> has_parent (<[n := x]> h) r v.
Proof.
  intros Hx (o & Hr & Hp). unfold has_parent, heap in *.
  destruct (decide (n = r)) as [->|Hne].
  - exists x. split; [|by apply Hx].
    apply list_lookup_insert_eq. by eapply lookup_lt_Some.
  - exists o. by rewrite list_lookup_insert_ne.
Qed.

Lemma scope_store (h : heap) (n x : ref) (o o' : obj)
    (c : option (option scope_body)) :
  h !! n = Some o -> obj_scope o' = obj_scope o ->
  obj_scope <$> h !! x = c ->
  obj_scope <$> (<[n := o']> h) !! x = c.
Proof.
  intros Hn Ho <-. unfold heap in *. destruct (decide (n = x)) as [->|Hne].
  - rewrite list_lookup_insert_eq by (by eapply lookup_lt_Some).
    rewrite Hn. simpl. by rewrite Ho.
  - by rewrite list_lookup_insert_ne.
Qed.

(** Assigning the parent [v] anywhere keeps a parent [v] that is in place. *)
Lemma set_parent_fuel_keeps_parent (r : ref) (v : option ref) (fuel : nat) :
  forall n, keeps (fun h => has_parent h r v) id (set_parent_fuel fuel n v).
Proof.
  induction fuel as [|fuel IH]; intros n h Hp; simpl;
    unfold bind, deref; destruct (h !! n) as [o|] eqn:Hn; simpl; try done;
    destruct o; simpl; unfold store, ret, raise; simpl;
    try done; try (by apply has_parent_store).
  - destruct (fl_next f); simpl; by apply has_parent_store.
  - destruct (fl_next f) as [n'|]; simpl; [|by apply has_parent_store].
    apply (IH n'). by apply has_parent_store.
Qed.

(** A successful assignment of the parent is visible on the node. *)
Lemma set_parent_fuel_sets (fuel : nat) (r : ref) (v pv : option ref) (h h' : heap)
    (o : obj) :
  set_parent_fuel fuel r v h = Ok tt h' ->
  h !! r = Some o -> obj_parent o = Some pv ->
  has_parent h' r v.
Proof.
  intros H Hr Hp.
  assert (Hst : forall x, obj_parent x = Some v -> has_parent (<[r := x]> h) r v).
  { intros x Hx. exists x. split; [|done]. unfold heap in *.
    apply list_lookup_insert_eq. by eapply lookup_lt_Some. }
  destruct fuel as [|fuel]; simpl in H; unfold bind, deref in H; rewrite Hr in H;
    destruct o; simpl in *; unfold store, ret, raise in H; simpl in H;
    try discriminate; try (injection H as <-; by apply Hst).
  - destruct (fl_next f); simpl in H; [discriminate|].
    injection H as <-. by apply Hst.
  - destruct (fl_next f) as [n'|]; simpl in H.
    + pose proof (set_parent_fuel_keeps_parent r v fuel n' _
                    (Hst (OFlow (set_s_parent v s) b f) eq_refl)) as Hk.
      simpl in Hk. by rewrite H in Hk.
    + injection H as <-. by apply Hst.
Qed.

(** Assigning a parent leaves the scope attributes of every node alone. *)
Lemma set_parent_fuel_scope (x : ref) (c : option (option scope_body)) (fuel : nat) :
  forall r v,
    keeps (fun h => obj_scope <$> h !! x = c) id (set_parent_fuel fuel r v).
Proof.
  induction fuel as [|fuel IH]; intros r v h Hc; simpl;
    unfold bind, deref; destruct (h !! r) as [o|] eqn:Hr; simpl; try done;
    destruct o; simpl; unfold store, ret, raise; simpl; try done;
    try (by eapply scope_store).
  - destruct (fl_next f); simpl; by eapply scope_store.
  - destruct (fl_next f) as [n'|]; simpl; [|by eapply scope_store].
    apply (IH n'). by eapply scope_store.
Qed.

Lemma get_scope_obj_lookup (h : heap) (me : ref) (o : obj) (b : scope_body) :
  h !! me = Some o -> obj_scope o = Some b -> get_scope_obj (Some me) h = Ok me h.
Proof.
  intros Hm Hb. unfold get_scope_obj, deref_opt, bind, deref. rewrite Hm. simpl.
  by rewrite Hb.
Qed.

(** X10: when [scope.add_statement(stmt)] returns on a scope that is no
    module (a Class, a Function or a Flow: there [use_as_parent] is the
    scope itself), it returns [stmt], the list [statements] of the scope is
    the old one with [stmt] appended, and the parent of [stmt] is the
    scope. *)
Theorem add_statement_appends_and_adopts (h h' : heap) (me stmt res : ref)
    (o_me o_stmt : obj) (b : scope_body) (pv : option ref) :
  h !! me = Some o_me -> obj_scope o_me = Some b ->
  (forall s0 b0 m0, o_me <> OModule s0 b0 m0) ->
  h !! stmt = Some o_stmt -> obj_parent o_stmt = Some pv ->
  add_statement (Some me) stmt h = Ok res h' ->
  res = stmt
  /\ (exists o', h' !! me = Some o'
                 /\ obj_scope o' = Some (set_statements (statements b ++ [stmt]) b))
  /\ has_parent h' stmt (Some me).
Proof.
  intros Hme Hb _ Hst Hpv H. unfold add_statement in H.
  apply bind_Ok in H as (me' & h0 & Hg & H).
  rewrite (get_scope_obj_lookup _ _ _ _ Hme Hb) in Hg. injection Hg as <- <-.
  apply bind_Ok in H as ([] & h1 & Hsp & H).
  apply bind_Ok in H as ([] & h2 & Hup & H). injection H as <- <-.
  unfold set_parent, with_size, use_as_parent in Hsp.
  pose proof (set_parent_fuel_sets _ _ _ _ _ _ _ Hsp Hst Hpv) as Hpar.
  pose proof (set_parent_fuel_scope me (Some (Some b)) (length h) stmt (Some me) h)
    as Hsc.
  simpl in Hsc. rewrite Hsp in Hsc. simpl in Hsc.
  specialize (Hsc ltac:(by rewrite Hme; simpl; rewrite Hb)).
  destruct (h1 !! me) as [o1|] eqn:Hme1; [|discriminate].
  simpl in Hsc. injection Hsc as Hsc.
  unfold update_scope_body, bind, deref in Hup. rewrite Hme1 in Hup.
  rewrite Hsc in Hup. unfold store in Hup. injection Hup as <-.
  split; [done|]. split.
  - eexists. split.
    + unfold heap in *. apply list_lookup_insert_eq. by eapply lookup_lt_Some.
    + by eapply obj_scope_with_scope.
  - apply has_parent_store; [|done]. intros ->.
    destruct Hpar as (o' & Ho' & Hp'). rewrite Hme1 in Ho'. injection Ho' as <-.
    by rewrite obj_parent_with_scope.
Qed.

Lemma add_statement_appends_and_adopts_witness :
  2%nat = 2%nat
  /\ (exists o', final_state (add_statement (Some 1%nat) 2%nat heap_function_loose_nodes)
                   !! 1%nat = Some o'
                 /\ obj_scope o'
                    = Some (set_statements (statements empty_scope_body ++ [2%nat])
                              empty_scope_body))
  /\ has_parent (final_state (add_statement (Some 1%nat) 2%nat heap_function_loose_nodes))
       2%nat (Some 1%nat).
Proof.
  apply (add_statement_appends_and_adopts heap_function_loose_nodes
           (final_state (add_statement (Some 1%nat) 2%nat heap_function_loose_nodes))
           1%nat 2%nat 2%nat
           (OFunction (Simple (Some 0%nat) 0%nat (1, 0) None) empty_scope_body
              (FunctionData None [] [] [] None false))
           (OFlow (Simple None 0%nat (2, 4) None) empty_scope_body
              (FlowData None "if" [] [] None))
           empty_scope_body None); try reflexivity. discriminate.
Defined.

(** X11: when [scope.add_import(imp)] returns on a scope that is no module
    (a Class, a Function or a Flow: there [use_as_parent] is the scope
    itself), the list [imports] of the scope is the old one with [imp]
    appended, and the parent of [imp] is the scope. *)
Theorem add_import_appends_and_adopts (h h' : heap) (me imp : ref)
    (o_me o_imp : obj) (b : scope_body) (pv : option ref) :
  h !! me = Some o_me -> obj_scope o_me = Some b ->
  (forall s0 b0 m0, o_me <> OModule s0 b0 m0) ->
  h !! imp = Some o_imp -> obj_parent o_imp = Some pv ->
  add_import (Some me) imp h = Ok tt h' ->
  (exists o', h' !! me = Some o'
              /\ obj_scope o' = Some (set_imports (imports b ++ [imp]) b))
  /\ has_parent h' imp (Some me).
Proof.
  intros Hme Hb _ Him Hpv H. unfold add_import in H.
  apply bind_Ok in H as (me' & h0 & Hg & H).
  rewrite (get_scope_obj_lookup _ _ _ _ Hme Hb) in Hg. injection Hg as <- <-.
  apply bind_Ok in H as ([] & h1 & Hup & Hsp).
  unfold update_scope_body, bind, deref in Hup. rewrite Hme, Hb in Hup.
  unfold store in Hup. injection Hup as <-.
  assert (Hlt : (me < length h)%nat) by (by eapply lookup_lt_Some).
  set (h1 := <[me := _]> h) in *.
  assert (Hme1 : h1 !! me = Some (obj_with_scope (set_imports (imports b ++ [imp]) b) o_me)).
  { subst h1. unfold heap in *. by apply list_lookup_insert_eq. }
  assert (Him1 : exists o1, h1 !! imp = Some o1 /\ obj_parent o1 = Some pv).
  { destruct (decide (me = imp)) as [->|Hne].
    - eexists. split; [exact Hme1|]. rewrite obj_parent_with_scope.
      rewrite Hme in Him. by injection Him as ->.
    - exists o_imp. split; [|done]. subst h1. unfold heap in *.
      by rewrite list_lookup_insert_ne. }
  destruct Him1 as (o1 & Him1 & Hp1).
  unfold set_parent, with_size, use_as_parent in Hsp.
  pose proof (set_parent_fuel_sets _ _ _ _ _ _ _ Hsp Him1 Hp1) as Hpar.
  pose proof (set_parent_fuel_scope me
                (Some (Some (set_imports (imports b ++ [imp]) b)))
                (length h1) imp (Some me) h1) as Hsc.
  simpl in Hsc. rewrite Hsp in Hsc. simpl in Hsc.
  specialize (Hsc ltac:(rewrite Hme1; simpl; by erewrite obj_scope_with_scope)).
  split; [|done].
  destruct (h' !! me) as [o'|]; [|discriminate].
  simpl in Hsc. injection Hsc as Hsc. by exists o'.
Qed.

Lemma add_import_appends_and_adopts_witness :
  (exists o', final_state (add_import (Some 1%nat) 3%nat heap_function_loose_nodes)
                !! 1%nat = Some o'
              /\ obj_scope o'
                 = Some (set_imports (imports empty_scope_body ++ [3%nat])
                           empty_scope_body))
  /\ has_parent (final_state (add_import (Some 1%nat) 3%nat heap_function_loose_nodes))
       3%nat (Some 1%nat).
Proof.
  apply (add_import_appends_and_adopts heap_function_loose_nodes
           (final_state (add_import (Some 1%nat) 3%nat heap_function_loose_nodes))
           1%nat 3%nat
           (OFunction (Simple (Some 0%nat) 0%nat (1, 0) None) empty_scope_body
              (FunctionData None [] [] [] None false))
           (OImport (Simple None 0%nat (3, 4) (Some (3, 13)))
              (ImportData None PNone None false 0 true))
           empty_scope_body None); try reflexivity. discriminate.
Defined.

(** ** Positions *)

(** X12: after the assignment [x.start_pos = v], the property
    [x.start_pos] reads [v] with the line offset of the module of [x]
    added to the line: the setter stores the position as given, the
    getter shifts it. *)
Theorem start_pos_set_then_get (h : heap) (r : ref) (o : obj) (s sm : simple)
    (bm : scope_body) (mm : module_data) (v : pos) :
  h !! r = Some o -> obj_simple o = Some s ->
  h !! s_module s = Some (OModule sm bm mm) ->
  exists h',
    set_start_pos r v h = Ok tt h'
    /\ get_start_pos r h' = Ok (line_offset mm + v.1, v.2) h'.
Proof.
  intros Hr Hs Hm. eexists. split.
  { unfold set_start_pos, bind, deref. rewrite Hr. simpl. rewrite Hs. reflexivity. }
  assert (Hlt : (r < length h)%nat) by (by eapply lookup_lt_Some).
  unfold get_start_pos, get_simple, get_line_offset, bind, deref. unfold heap in *.
  rewrite list_lookup_insert_eq by done. simpl.
  rewrite (obj_simple_with_simple _ _ _ Hs). simpl.
  change (s_module (set_s_start_pos v s)) with (s_module s).
  destruct (decide (r = s_module s)) as [Heq|Hne].
  - rewrite <- Heq in *. rewrite list_lookup_insert_eq by done.
    rewrite Hr in Hm. injection Hm as ->. reflexivity.
  - rewrite list_lookup_insert_ne by done. unfold ref in *.
    rewrite Hm. reflexivity.
Qed.

Lemma start_pos_set_then_get_witness :
  exists h',
    set_start_pos 1%nat (3, 4) heap_module_flow = Ok tt h'
    /\ get_start_pos 1%nat h'
       = Ok (line_offset (ModuleData None [] ∅ [] 0) + (3, 4).1, (3, 4).2) h'.
Proof.
  apply (start_pos_set_then_get heap_module_flow 1%nat
           (OFlow (Simple None 0%nat (1, 0) None) empty_scope_body
              (FlowData None "if" [] [] None))
           (Simple None 0%nat (1, 0) None) (Simple None 0%nat (1, 0) None)
           empty_scope_body (ModuleData None [] ∅ [] 0) (3, 4)); reflexivity.
Defined.

(** ** [get_parent_until(Function)] *)

(** X13: what [get_parent_until(Function)] returns is a Function or a
    node without parent, and the search leaves the store as it is. *)
Theorem get_parent_until_function_result (fuel : nat) :
  forall (r r' : ref) (h h' : heap),
    get_parent_until_function fuel r h = Ok r' h' ->
    h' = h
    /\ exists o, h !! r' = Some o
                 /\ (obj_parent o = Some None \/ exists s b f, o = OFunction s b f).
Proof.
  induction fuel as [|fuel IH]; intros r r' h h' H; simpl in H;
    unfold bind, get_parent, bind, deref in H;
    destruct (h !! r) as [o|] eqn:Hr; simpl in H; try discriminate;
    destruct (obj_parent o) as [[q|]|] eqn:Hp; simpl in H; try discriminate.
  - rewrite Hr in H. destruct o; simpl in H; try discriminate.
    injection H as <- <-. split; [done|]. eexists. split; [exact Hr|]. right. eauto.
  - injection H as <- <-. split; [done|]. eauto.
  - rewrite Hr in H. destruct o; simpl in H; try (by apply IH in H).
    injection H as <- <-. split; [done|]. eexists. split; [exact Hr|]. right. eauto.
  - injection H as <- <-. split; [done|]. eauto.
Qed.

Lemma get_parent_until_function_result_witness :
  final_state (get_parent_until_function 5 2%nat heap_function_flow)
  = heap_function_flow
  /\ exists o, heap_function_flow !! 1%nat = Some o
               /\ (obj_parent o = Some None \/ exists s b f, o = OFunction s b f).
Proof.
  apply (get_parent_until_function_result 5 2%nat 1%nat heap_function_flow
           (final_state (get_parent_until_function 5 2%nat heap_function_flow))).
  reflexivity.
Defined.

(** ** api/helpers.py: the first matching error statement decides *)

(** X14: [check_error_statements] returns what
    [importer_from_error_statement] gives for the first error statement
    that is an import error around the position; later entries are not
    looked at. *)
Theorem check_error_statements_first_match
    (before after : list helpers.error_statement) (e : helpers.error_statement)
    (pos : pos) :
  (forall x, x ∈ before ->
             helpers.import_error x && helpers.error_on_pos x pos = false) ->
  helpers.import_error e && helpers.error_on_pos e pos = true ->
  helpers.check_error_statements (before ++ e :: after) pos
  = helpers.importer_from_error_statement e pos.
Proof.
  intros Hb He. induction before as [|x l IH]; simpl.
  - by rewrite He.
  - rewrite (Hb x) by apply list_elem_of_here.
    apply IH. intros y Hy. apply Hb. by apply list_elem_of_further.
Qed.

Lemma check_error_statements_first_match_witness :
  helpers.check_error_statements
    ([error_no_import] ++ error_from_dot_a :: [error_from_dot_a]) (1, 15)
  = helpers.importer_from_error_statement error_from_dot_a (1, 15).
Proof.
  apply (check_error_statements_first_match [error_no_import] [error_from_dot_a]
           error_from_dot_a (1, 15)).
  - intros x Hx. apply list_elem_of_singleton in Hx as ->. reflexivity.
  - reflexivity.
Defined.

Lemma pos_le_total (a b : pos) : pos_le a b = false -> pos_le b a = true.
Proof.
  unfold pos_le. destruct a as [a1 a2], b as [b1 b2]. simpl. intros H.
  apply orb_false_iff in H as [H1 H2].
  apply Z.ltb_ge in H1.
  destruct (Z.ltb_spec b1 a1) as [|Hge]; [done|]. simpl.
  assert (E : a1 = b1) by lia. subst b1. rewrite Z.eqb_refl in *. simpl in *.
  apply Z.leb_gt in H2. apply Z.leb_le. lia.
Qed.

Lemma check_dotted_start (pos : pos) (children : list helpers.node) (n : helpers.node) :
  n ∈ helpers.check_dotted pos children -> pos_le (helpers.node_start n) pos = true.
Proof. unfold helpers.check_dotted. intros H. by apply list_elem_of_filter in H as [H _]. Qed.

Lemma import_from_nodes_invariant (pos : pos) (nodes : list helpers.node) :
  forall names level only names' level' only',
    helpers.import_from_nodes pos nodes (names, level, only) = (names', level', only') ->
    (forall n, n ∈ names -> pos_le (helpers.node_start n) pos = true) ->
    0 <= level ->
    (forall n, n ∈ names' -> pos_le (helpers.node_start n) pos = true) /\ 0 <= level'.
Proof.
  induction nodes as [|x nodes IH]; intros names level only names' level' only' H Hn Hl;
    simpl in H.
  - by injection H as <- <- <-.
  - destruct (pos_le pos (helpers.node_start x)) eqn:Hx.
    { by injection H as <- <- <-. }
    apply pos_le_total in Hx.
    destruct x as [v sp ep|v sp ep|ty ch sp ep].
    + eapply IH; [exact H| |done].
      intros n Hin. apply elem_of_app in Hin as [Hin|Hin]; [by apply Hn|].
      apply list_elem_of_singleton in Hin as ->. exact Hx.
    + destruct (streq v "." || streq v "...").
      * eapply IH; [exact H|done|]. unfold strlen. lia.
      * destruct (streq v "import"); eapply IH; eauto.
    + destruct (streq ty "dotted_name"); [|eapply IH; eauto].
      eapply IH; [exact H| |done].
      intros n Hin. apply elem_of_app in Hin as [Hin|Hin]; [by apply Hn|].
      by eapply check_dotted_start.
Qed.

Lemma importer_loop_invariant (pos : pos) (st : list (string * list helpers.node)) :
  forall names level only unfinished names' level' only' unfinished',
    helpers.importer_loop pos st names level only unfinished
    = inr (Some names', level', only', unfinished') ->
    (forall n, n ∈ names -> pos_le (helpers.node_start n) pos = true) ->
    0 <= level ->
    (forall n, n ∈ names' -> pos_le (helpers.node_start n) pos = true) /\ 0 <= level'.
Proof.
  induction st as [|[typ nodes] st IH];
    intros names level only unf names' level' only' unf' H Hn Hl; simpl in H.
  - by injection H as <- <- <- <-.
  - destruct (streq typ "dotted_name").
    { destruct (last nodes) as [lst|]; [|discriminate].
      eapply IH; [exact H| |done].
      intros n Hin. apply elem_of_app in Hin as [Hin|Hin]; [by apply Hn|].
      by eapply check_dotted_start. }
    destruct (streq typ "import_name").
    { destruct nodes as [|n0 nodes]; [discriminate|].
      destruct (pos_le (helpers.node_start n0) pos && pos_le pos (helpers.node_end n0));
        [discriminate|]. eapply IH; eauto. }
    destruct (streq typ "import_from"); [|eapply IH; eauto].
    destruct (helpers.import_from_nodes pos nodes (names, level, only))
      as [[names1 level1] only1] eqn:E.
    apply import_from_nodes_invariant in E as [Hn1 Hl1]; [|done|done].
    eapply IH; eauto.
Qed.

(** X15: when [importer_from_error_statement] returns names, each of them
    starts at or before the position, and the level it returns is not
    negative. *)
Theorem importer_names_start_before_pos (e : helpers.error_statement) (pos : pos)
    (names : list helpers.node) (level : Z) (only_modules unfinished_dotted : bool) :
  helpers.importer_from_error_statement e pos
  = inr (Some names, level, only_modules, unfinished_dotted) ->
  (forall n, n ∈ names -> pos_le (helpers.node_start n) pos = true) /\ 0 <= level.
Proof.
  unfold helpers.importer_from_error_statement. intros H.
  eapply importer_loop_invariant; [exact H| |done].
  intros n Hn. by apply not_elem_of_nil in Hn.
Qed.

Lemma importer_names_start_before_pos_witness :
  (forall n, n ∈ [helpers.Name "a" (1, 6) (1, 7)] ->
             pos_le (helpers.node_start n) (1, 15) = true)
  /\ 0 <= 1.
Proof.
  apply (importer_names_start_before_pos error_from_dot_a (1, 15)
           [helpers.Name "a" (1, 6) (1, 7)] 1 false false).
  vm_compute. reflexivity.
Defined.

(** ** The exceptions of the token source stay inside [Parser.__init__] *)

Section no_stop_combinators.
Context {S : Type}.

Lemma no_stop_ret {A} (a : A) : no_stop (@ret S A a).
Proof. intros s e s' H. discriminate. Qed.

Lemma no_stop_raise {A} (e : exn) : is_stop e = false -> no_stop (@raise S A e).
Proof. intros He s e' s' H. unfold raise in H. by injection H as <- <-. Qed.

Lemma no_stop_bind {A B} (m : M S A) (k : A -> M S B) :
  no_stop m -> (forall a, no_stop (k a)) -> no_stop (bind m k).
Proof.
  intros Hm Hk s e s' H. unfold bind in H.
  destruct (m s) as [a s1|e1 s1] eqn:E.
  - by eapply Hk.
  - injection H as <- <-. by eapply Hm.
Qed.

Lemma no_stop_get : no_stop (@get S).
Proof. intros s e s' H. discriminate. Qed.

Lemma no_stop_modify (f : S -> S) : no_stop (modify f).
Proof. intros s e s' H. discriminate. Qed.

Lemma no_stop_of_option {A} (e : exn) (o : option A) :
  is_stop e = false -> no_stop (@of_option S A e o).
Proof. intros He. destruct o; [apply no_stop_ret|by apply no_stop_raise]. Qed.

Lemma no_stop_mfor {A} (l : list A) (body : A -> M S unit) :
  (forall x, no_stop (body x)) -> no_stop (mfor l body).
Proof.
  intros Hb. induction l as [|x l IH]; [apply no_stop_ret|].
  change (mfor (x :: l) body) with (bind (body x) (fun _ => mfor l body)).
  apply no_stop_bind; [apply Hb|intros _; exact IH].
Qed.

Lemma no_stop_zoom {T A} (g : S -> T) (upd : T -> S -> S) (m : M T A) :
  no_stop m -> no_stop (zoom g upd m).
Proof.
  intros Hm s e s' H. unfold zoom in H.
  destruct (m (g s)) as [a t|e1 t] eqn:E; [discriminate|].
  injection H as <- <-. by eapply Hm.
Qed.

(** The handler of [__init__]: the exceptions of the token source end
    the parsing and are dropped. *)
Lemma no_stop_try_catch_stop (m : M S unit) :
  no_stop (try_catch m is_stop (fun _ => ret tt)).
Proof.
  intros s e s' H. unfold try_catch in H.
  destruct (m s) as [a s1|e1 s1]; [discriminate|].
  destruct (is_stop e1) eqn:E; [discriminate|]. by injection H as <- <-.
Qed.

End no_stop_combinators.

Lemma no_stop_deref (r : ref) : no_stop (deref r).
Proof.
  intros h e h' H. unfold deref in H. destruct (h !! r); [discriminate|].
  by injection H as <- <-.
Qed.

Lemma no_stop_store (r : ref) (o : obj) : no_stop (store r o).
Proof. intros h e h' H. discriminate. Qed.

Lemma no_stop_with_size {A} (m : nat -> M heap A) :
  (forall n, no_stop (m n)) -> no_stop (with_size m).
Proof. intros Hm h e h' H. unfold with_size in H. by eapply Hm. Qed.

Ltac no_stop_step :=
  lazymatch goal with
  | |- no_stop (bind _ _) => apply no_stop_bind; [|intros ?]
  | |- no_stop (ret _) => apply no_stop_ret
  | |- no_stop (raise _) => apply no_stop_raise; reflexivity
  | |- no_stop get => apply no_stop_get
  | |- no_stop (modify _) => apply no_stop_modify
  | |- no_stop (of_option _ _) => apply no_stop_of_option; reflexivity
  | |- no_stop (mfor _ _) => apply no_stop_mfor; intros ?
  | |- no_stop (liftH _) => apply no_stop_zoom
  | |- no_stop (with_size _) => apply no_stop_with_size; intros ?
  | |- no_stop (deref _) => apply no_stop_deref
  | |- no_stop (store _ _) => apply no_stop_store
  | |- no_stop (match ?x with _ => _ end) => destruct x; simpl
  | |- _ => solve [auto]
  end.

Lemma no_stop_set_parent_fuel (fuel : nat) :
  forall r v, no_stop (set_parent_fuel fuel r v).
Proof.
  induction fuel as [|fuel IH]; intros r v; simpl; repeat no_stop_step.
Qed.

Lemma no_stop_set_parent_opt (r v : option ref) : no_stop (set_parent_opt r v).
Proof.
  unfold set_parent_opt, set_parent. repeat no_stop_step.
  apply no_stop_set_parent_fuel.
Qed.

Lemma no_stop_get_start_pos (r : ref) : no_stop (get_start_pos r).
Proof.
  unfold get_start_pos, get_simple, get_line_offset. repeat no_stop_step.
Qed.

Lemma no_stop_set_end_pos (r : ref) (v : option pos) : no_stop (set_end_pos r v).
Proof. unfold set_end_pos. repeat no_stop_step. Qed.

(** X16: [Parser.__init__] never ends with StopIteration or
    MultiLevelStopIteration: the exceptions of the token source are caught
    around [_parse], and nothing that follows raises them. *)
Theorem parser_init_contains_stop_iteration
    (literal_eval : string -> option literal) (cleandoc : literal -> string)
    (kwlist : list string) (fuel : nat) (tokens : list token) (multilevel : bool)
    (module_path : option string) (user_pos : option pos) (no_doc : bool)
    (offset : Z) :
  match Parser_init literal_eval cleandoc kwlist fuel tokens multilevel
          module_path user_pos no_doc offset with
  | Ok _ _ => True
  | Raise e _ => e <> StopIteration /\ e <> MultiLevelStopIteration
  end.
Proof.
  assert (H : no_stop (parser_init_body literal_eval cleandoc kwlist fuel)).
  { unfold parser_init_body.
    apply no_stop_bind; [apply no_stop_try_catch_stop|intros _].
    repeat no_stop_step.
    - apply no_stop_set_parent_opt.
    - apply no_stop_get_start_pos.
    - apply no_stop_set_end_pos. }
  unfold Parser_init.
  destruct (parser_init_body _ _ _ _ _) as [a p|e p] eqn:E; [done|].
  apply H in E. by destruct e.
Qed.

(** ** [__next__] at the end of the tokens *)

Lemma set_end_pos_keeps_end_pos (r n : ref) (e : pos) :
  keeps (fun h => has_end_pos h r e) id (set_end_pos n (Some e)).
Proof.
  intros h (o & s & Hr & Hs & He). unfold set_end_pos, bind, deref.
  destruct (h !! n) as [on|] eqn:Hn; simpl; [|by exists o, s].
  destruct (obj_simple on) as [sn|] eqn:Hsn; simpl; [|by exists o, s].
  unfold has_end_pos, heap in *. destruct (decide (n = r)) as [->|Hne].
  - eexists _, _. split; [|split].
    + apply list_lookup_insert_eq. by eapply lookup_lt_Some.
    + by eapply obj_simple_with_simple.
    + reflexivity.
  - exists o, s. by rewrite list_lookup_insert_ne.
Qed.

Lemma close_scopes_keeps_end_pos (r : ref) (e : pos) (fuel : nat) :
  forall s, keeps (fun h => has_end_pos h r e) id (close_scopes fuel s e).
Proof.
  induction fuel as [|fuel IH]; intros [n|]; simpl;
    try apply pres_ret; try apply pres_raise.
  apply pres_bind; [apply set_end_pos_keeps_end_pos|intros _].
  apply pres_bind; [apply keeps_get_parent|intros p]. apply IH.
Qed.

Lemma close_scopes_sets_end_pos (fuel : nat) (r : ref) (e : pos) (h h' : heap) :
  close_scopes fuel (Some r) e h = Ok tt h' -> has_end_pos h' r e.
Proof.
  destruct fuel as [|fuel]; simpl; [discriminate|]. intros H.
  apply bind_Ok in H as ([] & h1 & Hset & H).
  assert (H1 : has_end_pos h1 r e).
  { unfold set_end_pos, bind, deref in Hset.
    destruct (h !! r) as [o|] eqn:Hr; simpl in Hset; [|discriminate].
    destruct (obj_simple o) as [s|] eqn:Hs; simpl in Hset; [|discriminate].
    unfold store in Hset. injection Hset as <-.
    eexists _, _. split; [|split].
    - unfold heap in *. apply list_lookup_insert_eq. by eapply lookup_lt_Some.
    - by eapply obj_simple_with_simple.
    - reflexivity. }
  apply bind_Ok in H as (p & h2 & Hp & H).
  pose proof (keeps_get_parent (fun h => has_end_pos h r e) r h1 H1) as H2.
  simpl in H2. rewrite Hp in H2. simpl in H2.
  pose proof (close_scopes_keeps_end_pos r e fuel p h2 H2) as H3.
  simpl in H3. by rewrite H in H3.
Qed.

(** X17: when the tokens are exhausted, [__next__] does not return; and
    if it ends with the exception of the token source, the scope the
    parser is in ends at the end position of the parser. *)
Theorem next_at_end_closes_scope (p p' : parser) (r : ref) (e : exn) :
  gen_pushes (_gen p) = [] -> gen_rest (_gen p) = [] ->
  scope p = Some r ->
  (forall t p1, next p <> Ok t p1)
  /\ (next p = Raise e p' -> is_stop e = true ->
      has_end_pos (p_heap p') r (end_pos p)).
Proof.
  intros Hpu Hre Hsc.
  assert (Hgen : exists e0, is_stop e0 = true /\
                   liftG gen_next p = Raise e0 p).
  { unfold liftG, zoom, gen_next. rewrite Hpu, Hre.
    destruct (_gen p) as [a1 a2 a3 a4] eqn:Eg. simpl.
    exists (if a4 then MultiLevelStopIteration else StopIteration).
    split; [by destruct a4|]. f_equal. destruct p. simpl in *. by subst. }
  destruct Hgen as (e0 & He0 & Hgen).
  unfold next, bind, try_catch. rewrite Hgen, He0.
  unfold get, liftH, zoom. rewrite Hsc. unfold with_size.
  destruct (close_scopes _ _ _ _) as [[] h1|e1 h1] eqn:Hc; simpl.
  - split; [discriminate|]. unfold raise. intros H _. injection H as <- <-.
    simpl. by eapply close_scopes_sets_end_pos.
  - split; [discriminate|]. intros H Hstop. injection H as <- <-.
    exfalso. revert Hc Hstop. clear.
    generalize (length (p_heap p)). intros fuel Hc Hstop.
    assert (Hns : forall fuel s, no_stop (close_scopes fuel s (end_pos p))).
    { clear. induction fuel as [|fuel IH]; intros [n|]; simpl;
        repeat no_stop_step; try apply no_stop_set_end_pos.
      unfold get_parent. repeat no_stop_step. }
    apply Hns in Hc. congruence.
Qed.

Lemma next_at_end_closes_scope_witness :
  let p := initial_parser [] false None None false 0 in
  (forall t p1, next p <> Ok t p1)
  /\ (next p = Raise StopIteration (final_state (next p)) ->
      is_stop StopIteration = true ->
      has_end_pos (p_heap (final_state (next p))) 0%nat (end_pos p)).
Proof.
  intros p.
  apply (next_at_end_closes_scope p (final_state (next p)) 0%nat StopIteration);
    reflexivity.
Defined.

(** ** [Statement.__init__] adopts its names *)

Lemma parent_attr_store (h : heap) (x n : ref) (o' : obj) :
  (exists pv', obj_parent o' = Some pv') ->
  (exists pv, has_parent h x pv) -> exists pv, has_parent (<[n := o']> h) x pv.
Proof.
  intros (pv' & Hp') (pv & o & Hx & Hp). unfold has_parent, heap in *.
  destruct (decide (n = x)) as [->|Hne].
  - exists pv', o'. split; [|done].
    apply list_lookup_insert_eq. by eapply lookup_lt_Some.
  - exists pv, o. by rewrite list_lookup_insert_ne.
Qed.

(** Assigning a parent keeps the attribute [parent] on every node. *)
Lemma set_parent_fuel_keeps_attr (x : ref) (fuel : nat) :
  forall r v,
    keeps (fun h => exists pv, has_parent h x pv) id (set_parent_fuel fuel r v).
Proof.
  induction fuel as [|fuel IH]; intros r v h Hc; simpl;
    unfold bind, deref; destruct (h !! r) as [o|] eqn:Hr; simpl; try done;
    destruct o; simpl; unfold store, ret, raise; simpl; try done;
    try (apply parent_attr_store; [by eexists|done]).
  - destruct (fl_next f); simpl; (apply parent_attr_store; [by eexists|done]).
  - destruct (fl_next f) as [n'|]; simpl;
      [|apply parent_attr_store; [by eexists|done]].
    apply (IH n'). apply parent_attr_store; [by eexists|done].
Qed.

Lemma mfor_set_parent_sets (v : option ref) (l : list ref) :
  forall h h',
    mfor l (fun s => set_parent s v) h = Ok tt h' ->
    (forall x, x ∈ l -> exists pv, has_parent h x pv) ->
    forall x, x ∈ l -> has_parent h' x v.
Proof.
  induction l as [|a l IH]; intros h h' H Hattr x Hx;
    [by apply not_elem_of_nil in Hx|].
  change (mfor (a :: l) (fun s => set_parent s v))
    with (bind (set_parent a v) (fun _ => mfor l (fun s => set_parent s v))) in H.
  apply bind_Ok in H as ([] & h1 & Hset & H).
  assert (Hattr1 : forall y, y ∈ l -> exists pv, has_parent h1 y pv).
  { intros y Hy.
    pose proof (set_parent_fuel_keeps_attr y (length h) a v h
                  (Hattr y ltac:(by apply list_elem_of_further))) as Hk.
    simpl in Hk. unfold set_parent, with_size in Hset. by rewrite Hset in Hk. }
  destruct (decide (x ∈ l)) as [Hin|Hnot]; [by eapply IH|].
  apply elem_of_cons in Hx as [->|Hx]; [|done].
  assert (H1 : has_parent h1 a v).
  { destruct (Hattr a ltac:(by apply list_elem_of_here)) as (pv & o & Ho & Hp).
    unfold set_parent, with_size in Hset. by eapply set_parent_fuel_sets. }
  assert (Hk : keeps (fun h => has_parent h a v) id
                 (mfor l (fun s => set_parent s v))).
  { apply pres_mfor. intros y. unfold set_parent. apply pres_with_size. intros n.
    apply set_parent_fuel_keeps_parent. }
  specialize (Hk h1 H1). simpl in Hk. by rewrite H in Hk.
Qed.

(** X18: when [Statement(...)] (or [Param(...)]) returns, the new
    statement is a fresh object, and it is the parent of every name of
    [set_vars], [used_funcs] and [used_vars]. *)
Theorem new_statement_adopts_names (is_param : bool) (module : ref) (code : string)
    (set_vars used_funcs used_vars : list ref) (token_list : list tok_item)
    (start e : pos) (h h' : heap) (r : ref) :
  (forall x, x ∈ set_vars ++ used_funcs ++ used_vars -> exists pv, has_parent h x pv) ->
  new_statement is_param module code set_vars used_funcs used_vars token_list
    start e h = Ok r h' ->
  r = length h
  /\ forall x, x ∈ set_vars ++ used_funcs ++ used_vars -> has_parent h' x (Some r).
Proof.
  intros Hattr H. unfold new_statement in H.
  apply bind_Ok in H as (r0 & h0 & Ha & H).
  unfold alloc in Ha. injection Ha as <- <-.
  apply bind_Ok in H as ([] & h1 & Hm & H). injection H as <- <-.
  split; [done|]. unfold use_as_parent in Hm.
  eapply mfor_set_parent_sets; [exact Hm|].
  intros x Hx. destruct (Hattr x Hx) as (pv & o & Ho & Hp).
  exists pv, o. split; [|done]. unfold heap in *.
  rewrite lookup_app_l; [done|]. by eapply lookup_lt_Some.
Qed.

Lemma new_statement_adopts_names_witness :
  2%nat = length heap_module_name
  /\ forall x, x ∈ [1%nat] ++ [] ++ [] ->
       has_parent
         (final_state (new_statement false 0%nat "x" [1%nat] [] [] [TName 1%nat]
                         (1, 0) (1, 1) heap_module_name))
         x (Some 2%nat).
Proof.
  apply (new_statement_adopts_names false 0%nat "x" [1%nat] [] [] [TName 1%nat]
           (1, 0) (1, 1) heap_module_name
           (final_state (new_statement false 0%nat "x" [1%nat] [] [] [TName 1%nat]
                           (1, 0) (1, 1) heap_module_name))
           2%nat).
  - intros x Hx. apply list_elem_of_singleton in Hx as ->.
    eexists _, _. split; reflexivity.
  - reflexivity.
Defined.

(** ** [_check_user_stmt] and the user position *)

Lemma positions_module_update (h : heap) (pm : ref) (s0 : simple) (b : scope_body)
    (m m1 : module_data) (node : ref) :
  h !! pm = Some (OModule s0 b m) ->
  line_offset m1 = line_offset m ->
  (forall sp, get_start_pos node h = Ok sp h ->
     get_start_pos node (<[pm := OModule s0 b m1]> h)
     = Ok sp (<[pm := OModule s0 b m1]> h))
  /\ (forall ep, get_end_pos node h = Ok ep h ->
        get_end_pos node (<[pm := OModule s0 b m1]> h)
        = Ok ep (<[pm := OModule s0 b m1]> h)).
Proof.
  intros Hm Hoff.
  assert (Hlt : (pm < length h)%nat) by (by eapply lookup_lt_Some).
  assert (Hsimple : forall s, get_simple node h = Ok s h ->
            get_simple node (<[pm := OModule s0 b m1]> h)
            = Ok s (<[pm := OModule s0 b m1]> h)).
  { intros s. unfold get_simple, bind, deref. unfold heap, ref in *.
    destruct (decide (pm = node)) as [->|Hne].
    - rewrite list_lookup_insert_eq by done. rewrite Hm. simpl.
      intros H. injection H as <-. reflexivity.
    - rewrite list_lookup_insert_ne by done.
      destruct (h !! node) as [o|]; [|discriminate]. simpl.
      destruct (obj_simple o); simpl; [|discriminate].
      intros H. injection H as <-. reflexivity. }
  assert (Hoffset : forall r off, get_line_offset r h = Ok off h ->
            get_line_offset r (<[pm := OModule s0 b m1]> h)
            = Ok off (<[pm := OModule s0 b m1]> h)).
  { intros r off. unfold get_line_offset, bind, deref. unfold heap, ref in *.
    destruct (decide (pm = r)) as [->|Hne].
    - rewrite list_lookup_insert_eq by done. rewrite Hm. simpl.
      intros H. injection H as <-. by rewrite Hoff.
    - rewrite list_lookup_insert_ne by done.
      destruct (h !! r) as [o|]; [|discriminate]. simpl.
      destruct o; simpl; try discriminate.
      intros H. injection H as <-. reflexivity. }
  assert (Hro_s : forall g, final_state (get_simple node g) = g).
  { intros g. apply keeps_all_final. intros P. apply keeps_get_simple. }
  assert (Hro_o : forall r g, final_state (get_line_offset r g) = g).
  { intros r g. apply keeps_all_final. intros P. apply keeps_get_line_offset. }
  split.
  - intros sp H. unfold get_start_pos in *.
    apply bind_Ok in H as (s & h1 & Hs & H).
    pose proof (Hro_s h) as E. rewrite Hs in E. simpl in E. subst h1.
    apply bind_Ok in H as (off & h2 & Ho & H).
    pose proof (Hro_o (s_module s) h) as E. rewrite Ho in E. simpl in E. subst h2.
    injection H as <-.
    unfold bind at 1. rewrite (Hsimple _ Hs).
    unfold bind. by rewrite (Hoffset _ _ Ho).
  - intros ep H. unfold get_end_pos in *.
    apply bind_Ok in H as (s & h1 & Hs & H).
    pose proof (Hro_s h) as E. rewrite Hs in E. simpl in E. subst h1.
    unfold bind at 1. rewrite (Hsimple _ Hs).
    destruct (s_end_pos s) as [e|].
    + apply bind_Ok in H as (off & h2 & Ho & H).
      pose proof (Hro_o (s_module s) h) as E. rewrite Ho in E. simpl in E. subst h2.
      injection H as <-. unfold bind. by rewrite (Hoffset _ _ Ho).
    + injection H as <-. reflexivity.
Qed.

(** X19: with a user position and no user statement yet,
    [_check_user_stmt(node)] makes [node] the user statement exactly when
    the user position lies between the start and the end of [node]. *)
Theorem check_user_stmt_records_cursor (p : parser) (node : ref) (s0 : simple)
    (b : scope_body) (m : module_data) (up sp ep : pos) :
  p_heap p !! p_module p = Some (OModule s0 b m) ->
  user_position p = Some up ->
  user_stmt p = None ->
  get_start_pos node (p_heap p) = Ok sp (p_heap p) ->
  get_end_pos node (p_heap p) = Ok (Some ep) (p_heap p) ->
  exists p',
    _check_user_stmt node p = Ok tt p'
    /\ user_stmt p' = (if pos_le sp up && pos_le up ep then Some node else None).
Proof.
  intros Hm Hup Hus Hsp Hep.
  destruct (positions_module_update (p_heap p) (p_module p) s0 b m
              (set_temp_used_names []
                 (set_used_names
                    (add_used_names node (temp_used_names m) (used_names m)) m))
              node Hm eq_refl) as [Hs He].
  specialize (Hs _ Hsp). specialize (He _ Hep).
  unfold _check_user_stmt.
  unfold bind at 1. unfold get at 1.
  unfold bind at 1.
  unfold liftH at 1, zoom at 1, update_module, bind at 1, deref at 1.
  rewrite Hm. unfold store. cbn [p_heap set_p_heap].
  rewrite Hup.
  unfold bind at 1. unfold liftH at 1, zoom at 1. cbn [p_heap set_p_heap].
  rewrite Hs.
  unfold bind at 1. unfold liftH at 1, zoom at 1. cbn [p_heap set_p_heap].
  rewrite He. unfold pos_le_opt.
  destruct (pos_le sp up && pos_le up ep).
  - rewrite Hus. unfold modify. eexists. split; [reflexivity|]. reflexivity.
  - unfold ret. eexists. split; [reflexivity|]. simpl. exact Hus.
Qed.

Lemma check_user_stmt_records_cursor_witness :
  exists p',
    _check_user_stmt 1%nat parser_cursor_on_x = Ok tt p'
    /\ user_stmt p'
       = (if pos_le (0 + 1, 0) (1, 1) && pos_le (1, 1) (0 + 1, 1)
          then Some 1%nat else None).
Proof.
  apply (check_user_stmt_records_cursor parser_cursor_on_x 1%nat
           (Simple None 0%nat (1, 0) None) empty_scope_body
           (ModuleData None [] ∅ [] 0) (1, 1) (0 + 1, 0) (0 + 1, 1)); reflexivity.
Defined.

(** ** What the lazy sub-parser leaves alone *)

Section sub_parser_frame.
Context (r : ref) (o : obj) (Ho : obj_call o = None).

(** Writing a Call or an Array back where one was read leaves [r]. *)
Lemma lookup_store_call (h : heap) (x : ref) (ox o' : obj) (c : call_data) :
  h !! r = Some o -> h !! x = Some ox -> obj_call ox = Some c ->
  <[x := o']> h !! r = Some o.
Proof.
  intros Hr Hx Hc. unfold heap in *. rewrite list_lookup_insert_ne; [done|].
  intros ->. rewrite Hr in Hx. injection Hx as <-. congruence.
Qed.

Lemma keeps_lookup_get_array (P : heap -> Prop) (x : option ref) :
  keeps P id (get_array x).
Proof. unfold get_array; pres_auto. Qed.

Lemma keeps_lookup_get_call (P : heap -> Prop) (x : option ref) :
  keeps P id (get_call x).
Proof. unfold get_call; pres_auto. Qed.

(** An Array method that writes the receiver back. *)
Lemma keeps_lookup_array_update (x : option ref)
    (k : ref * call_data * array_data -> obj) :
  keeps (fun h => h !! r = Some o) id
    (rca <- get_array x ;; store rca.1.1 (k rca)).
Proof.
  intros h Hr. unfold bind, get_array, deref_opt, bind, deref.
  destruct x as [x|]; simpl; [|done].
  destruct (h !! x) as [ox|] eqn:Hx; simpl; [|done].
  destruct ox; simpl; try done.
  by eapply lookup_store_call.
Qed.

Lemma keeps_lookup_add_to_current_field (x : option ref) (tok : item) :
  keeps (fun h => h !! r = Some o) id (add_to_current_field x tok).
Proof.
  apply (keeps_lookup_array_update x
           (fun rca => OArray rca.1.2 (add_to_current_field_data tok rca.2))).
Qed.

Lemma keeps_lookup_add_field (x : option ref) (start : pos) :
  keeps (fun h => h !! r = Some o) id (add_field x start).
Proof.
  apply (keeps_lookup_array_update x
           (fun rca => OArray rca.1.2
              (set_values (values rca.2 ++ [[]])
                 (set_arr_el_pos (arr_el_pos rca.2 ++ [start]) rca.2)))).
Qed.

Lemma keeps_lookup_set_array_type (x : option ref) (ty : array_type) :
  keeps (fun h => h !! r = Some o) id (set_array_type x ty).
Proof.
  apply (keeps_lookup_array_update x
           (fun rca => OArray rca.1.2 (set_a_type ty rca.2))).
Qed.

Lemma keeps_lookup_add_dictionary_key (x : option ref) :
  keeps (fun h => h !! r = Some o) id (add_dictionary_key x).
Proof.
  intros h Hr. unfold add_dictionary_key, bind, get_array, deref_opt, bind, deref.
  destruct x as [x|]; simpl; [|done].
  destruct (h !! x) as [ox|] eqn:Hx; simpl; [|done].
  destruct ox; simpl; try done.
  destruct (a_type a); simpl; try done;
    (destruct (last (values a)); simpl; [by eapply lookup_store_call|done]).
Qed.

Lemma keeps_lookup_update_call (x : ref) (f : call_data -> call_data) :
  keeps (fun h => h !! r = Some o) id (update_call x f).
Proof.
  intros h Hr. unfold update_call, bind, deref.
  destruct (h !! x) as [ox|] eqn:Hx; simpl; [|done].
  destruct (obj_call ox) as [c|] eqn:Hc; simpl; [|done].
  by eapply lookup_store_call.
Qed.

Lemma keeps_lookup_update_stmt (self : ref) (f : stmt_data -> stmt_data) :
  r <> self -> keeps (fun h => h !! r = Some o) id (update_stmt self f).
Proof.
  intros Hne h Hr. unfold update_stmt, bind, get_stmt, bind, deref.
  destruct (h !! self) as [ox|] eqn:Hx; simpl; [|done].
  destruct ox; simpl; try done.
  unfold heap in *. by rewrite list_lookup_insert_ne.
Qed.

#[local] Hint Resolve keeps_lookup_get_array keeps_lookup_get_call
  keeps_lookup_add_to_current_field keeps_lookup_add_field
  keeps_lookup_set_array_type keeps_lookup_add_dictionary_key
  keeps_lookup_update_call keeps_lookup_update_stmt : pres.

Lemma keeps_lookup_is_exact_call (x : option ref) :
  keeps (fun h => h !! r = Some o) id (is_exact_call x).
Proof. unfold is_exact_call; pres_auto. Qed.

Lemma keeps_lookup_result_parent (x : option ref) :
  keeps (fun h => h !! r = Some o) id (result_parent x).
Proof. unfold result_parent; pres_auto. Qed.
#[local] Hint Resolve keeps_lookup_is_exact_call keeps_lookup_result_parent : pres.

Lemma keeps_lookup_ascend (fuel : nat) :
  forall x cb, keeps (fun h => h !! r = Some o) id (ascend fuel x cb).
Proof. induction fuel as [|fuel IH]; intros x cb; simpl; pres_auto. Qed.

Lemma keeps_lookup_array_type_of (x : option ref) :
  keeps (fun h => h !! r = Some o) id (array_type_of x).
Proof. unfold array_type_of; pres_auto. Qed.

Lemma keeps_lookup_set_call_end_pos (x : option ref) (v : option pos) :
  keeps (fun h => h !! r = Some o) id (set_call_end_pos x v).
Proof. unfold set_call_end_pos; pres_auto. Qed.

Lemma keeps_lookup_new_call (name : payload) (ty : call_type) (start : pos)
    (parent : option ref) :
  keeps (fun h => h !! r = Some o) id (new_call name ty start parent).
Proof. unfold new_call; pres_auto. Qed.

Lemma keeps_lookup_new_array (start : pos) (ty : array_type) (ps parent : option ref) :
  keeps (fun h => h !! r = Some o) id (new_array start ty ps parent).
Proof. unfold new_array; pres_auto. Qed.
#[local] Hint Resolve keeps_lookup_ascend keeps_lookup_array_type_of
  keeps_lookup_set_call_end_pos keeps_lookup_new_call keeps_lookup_new_array : pres.

Lemma keeps_lookup_set_next_chain_call (x : option ref) (call : ref) :
  keeps (fun h => h !! r = Some o) id (set_next_chain_call x call).
Proof. unfold set_next_chain_call; pres_auto. Qed.

Lemma keeps_lookup_add_execution (x : option ref) (call : ref) :
  keeps (fun h => h !! r = Some o) id (add_execution x call).
Proof. unfold add_execution; pres_auto. Qed.
#[local] Hint Resolve keeps_lookup_set_next_chain_call keeps_lookup_add_execution
  : pres.

Lemma keeps_lookup_ac_step (literal_eval : string -> option literal) (fuel : nat)
    (L : ac_locals) (token_type : option tok_type) (tok : tokval) (start : pos) :
  keeps (fun h => h !! r = Some o) id (ac_step literal_eval fuel L token_type tok start).
Proof.
  unfold ac_step; cbv zeta. destruct tok as [s|x|x]; simpl;
    [destruct (bool_decide (token_type = Some STRING)
               || bool_decide (token_type = Some NUMBER)); simpl|..];
    pres_auto.
Qed.
#[local] Hint Resolve keeps_lookup_ac_step : pres.

Lemma keeps_lookup_ac_loop (literal_eval : string -> option literal) (fuel : nat)
    (self : ref) (toks : list tok_item) :
  r <> self ->
  forall L, keeps (fun h => h !! r = Some o) id (ac_loop literal_eval fuel self toks L).
Proof.
  intros Hne.
  assert (H : forall n toks, (length toks <= n)%nat ->
            forall L, keeps (fun h => h !! r = Some o) id
                        (ac_loop literal_eval fuel self toks L)).
  { clear toks. induction n as [|n IH]; intros toks Hlen L;
      destruct toks as [|t rest]; simpl in *; try apply pres_ret; try lia.
    assert (IH1 : forall L, keeps (fun h => h !! r = Some o) id
                              (ac_loop literal_eval fuel self rest L)).
    { apply IH. lia. }
    destruct t as [ty text sp|x|x|x]; [|pres_auto..].
    destruct ((ac_level L =? 0) && is_assignment_op text); [pres_auto|].
    destruct (streq text "as"); [|pres_auto].
    destruct rest as [|t2 rest']; [apply pres_ret|].
    apply IH. simpl in Hlen. lia. }
  by apply (H (length toks)).
Qed.
#[local] Hint Resolve keeps_lookup_ac_loop : pres.

Lemma keeps_lookup_ac_close (fuel : nat) :
  forall x v, keeps (fun h => h !! r = Some o) id (ac_close fuel x v).
Proof. induction fuel as [|fuel IH]; intros [x|] v; simpl; pres_auto. Qed.

Lemma keeps_lookup_ac_end_pos (L : ac_locals) :
  keeps (fun h => h !! r = Some o) id (ac_end_pos L).
Proof. unfold ac_end_pos; pres_auto. Qed.
#[local] Hint Resolve keeps_lookup_ac_close keeps_lookup_ac_end_pos : pres.

Lemma keeps_lookup_get_assignment_calls (literal_eval : string -> option literal)
    (self : ref) :
  r <> self ->
  keeps (fun h => h !! r = Some o) id (get_assignment_calls literal_eval self).
Proof.
  intros Hne. unfold get_assignment_calls.
  apply pres_bind; [unfold get_stmt; pres_auto|intros sd].
  destruct (_assignment_calls_calculated sd.2); [apply pres_ret|].
  pres_auto.
Qed.

End sub_parser_frame.

(** X20: [get_assignment_calls] on a statement leaves every other object
    that is no Call and no Array as it is, whether it returns or raises:
    the lazy sub-parser builds its tree beside the tree of the parser and
    writes to the statement's own attributes only. *)
Theorem get_assignment_calls_leaves_tree (literal_eval : string -> option literal)
    (self r : ref) (o : obj) (h : heap) :
  r <> self ->
  obj_call o = None ->
  h !! r = Some o ->
  final_state (get_assignment_calls literal_eval self h) !! r = Some o.
Proof.
  intros Hne Ho Hr.
  by apply (keeps_lookup_get_assignment_calls r o Ho literal_eval self Hne h).
Qed.

Lemma get_assignment_calls_leaves_tree_witness :
  final_state (get_assignment_calls decimal_literal_eval 2%nat heap_statement_x)
    !! 0%nat
  = Some (OModule (Simple None 0%nat (1, 0) None) empty_scope_body
            (ModuleData None [] ∅ [] 0)).
Proof.
  apply (get_assignment_calls_leaves_tree decimal_literal_eval 2%nat 0%nat
           (OModule (Simple None 0%nat (1, 0) None) empty_scope_body
              (ModuleData None [] ∅ [] 0))
           heap_statement_x);
    [discriminate|reflexivity|reflexivity].
Defined.

(** ** [Scope.get_statement_for_position] *)

Lemma read_only_Ok {A} (m : M heap A) (h h' : heap) (a : A) :
  (forall P, keeps P id m) -> m h = Ok a h' -> h' = h.
Proof.
  intros Hk H. pose proof (keeps_all_final m h Hk) as E. by rewrite H in E.
Qed.

Lemma position_sound_ret_None (pos : pos) : position_sound pos (ret None).
Proof. intros h r h' H. injection H as <- <-. split; [done|discriminate]. Qed.

Lemma position_in_flow_chain_sound (rec : ref -> M heap (option ref)) (pos : pos) :
  (forall s, position_sound pos (rec s)) ->
  forall n s, position_sound pos (position_in_flow_chain rec n s).
Proof.
  intros Hrec. induction n as [|n IH]; intros s h r h' H; simpl in H;
    apply bind_Ok in H as (p & h1 & Hp & H);
    apply Hrec in Hp as [-> Hp];
    (destruct p as [x|]; [injection H as <- <-; by split|]);
    apply bind_Ok in H as (o & h2 & Ho & H);
    apply (read_only_Ok _ _ _ _ (fun P => keeps_deref P s)) in Ho as ->;
    destruct o; try discriminate;
    (destruct (fl_next f) as [s'|];
      [|injection H as <- <-; split; [done|discriminate]]).
  - discriminate.
  - by apply IH in H.
Qed.

Lemma position_in_checks_sound (rec : ref -> M heap (option ref)) (n : nat)
    (pos : pos) :
  (forall s, position_sound pos (rec s)) ->
  forall checks, position_sound pos (position_in_checks rec n pos checks).
Proof.
  intros Hrec. induction checks as [|s rest IH]; simpl;
    [apply position_sound_ret_None|].
  intros h r h' H.
  apply bind_Ok in H as (so & h1 & Hso & H).
  apply (read_only_Ok _ _ _ _ (fun P => keeps_deref_opt P s)) in Hso as ->.
  assert (Hleaf :
    (sp <- get_start_pos so.1 ;;
     if pos_le sp pos then
       ep <- get_end_pos so.1 ;;
       if pos_lt_opt pos ep then ret (Some so.1)
       else position_in_checks rec n pos rest
     else position_in_checks rec n pos rest) h = Ok r h' ->
    h' = h /\ forall x, r = Some x -> contains_pos h x pos).
  { clear H. intros H.
    apply bind_Ok in H as (sp & h1 & Hsp & H).
    pose proof (read_only_Ok _ _ _ _ (fun P => keeps_get_start_pos P so.1) Hsp) as ->.
    destruct (pos_le sp pos) eqn:Hle; [|by apply IH in H].
    apply bind_Ok in H as (ep & h2 & Hep & H).
    pose proof (read_only_Ok _ _ _ _ (fun P => keeps_get_end_pos P so.1) Hep) as ->.
    destruct ep as [ep|]; simpl in H; [|by apply IH in H].
    destruct (pos_lt pos ep) eqn:Hlt; [|by apply IH in H].
    injection H as <- <-. split; [done|]. intros x Hx. injection Hx as <-.
    by exists sp, ep. }
  destruct (so.2); try (by apply Hleaf).
  apply bind_Ok in H as (p & h1 & Hp & H).
  apply (position_in_flow_chain_sound rec pos Hrec) in Hp as [-> Hp].
  destruct p as [x|]; [injection H as <- <-; by split|]. by apply IH in H.
Qed.

Lemma position_in_subscopes_sound (rec : ref -> M heap (option ref)) (pos : pos) :
  (forall s, position_sound pos (rec s)) ->
  forall subs, position_sound pos (position_in_subscopes rec pos subs).
Proof.
  intros Hrec. induction subs as [|s rest IH]; simpl;
    [apply position_sound_ret_None|].
  intros h r h' H.
  apply bind_Ok in H as (sp & h1 & Hsp & H).
  pose proof (read_only_Ok _ _ _ _ (fun P => keeps_get_start_pos P s) Hsp) as ->.
  destruct (pos_le sp pos); [|by apply IH in H].
  apply bind_Ok in H as (ep & h2 & Hep & H).
  pose proof (read_only_Ok _ _ _ _ (fun P => keeps_get_end_pos P s) Hep) as ->.
  destruct (pos_le_opt pos ep); [|by apply IH in H].
  apply bind_Ok in H as (p & h1 & Hp & H).
  apply Hrec in Hp as [-> Hp].
  destruct p as [x|]; [injection H as <- <-; by split|]. by apply IH in H.
Qed.

Lemma get_statement_for_position_sound (pos : pos) (include_imports : bool)
    (fuel : nat) :
  forall self,
    position_sound pos (get_statement_for_position fuel self pos include_imports).
Proof.
  induction fuel as [|fuel IH]; intros self h r h' H; simpl in H; [discriminate|].
  apply bind_Ok in H as (o & h1 & Ho & H).
  apply (read_only_Ok _ _ _ _ (fun P => keeps_deref P self)) in Ho as ->.
  apply bind_Ok in H as (b & h1 & Hb & H).
  assert (h1 = h) as ->.
  { destruct (obj_scope o); [by injection Hb as <- <-|discriminate]. }
  apply bind_Ok in H as (found & h1 & Hf & H).
  apply (position_in_checks_sound _ fuel pos IH) in Hf as [-> Hf].
  destruct found as [x|]; [injection H as <- <-; by split|].
  by apply (position_in_subscopes_sound _ pos IH) in H.
Qed.

(** X21: when [get_statement_for_position(pos)] returns a node, the
    position lies in it: the node starts at or before [pos] and ends after
    it; and the search does not modify the tree. *)
Theorem get_statement_for_position_contains (fuel : nat) (self x : ref) (pos : pos)
    (include_imports : bool) (h h' : heap) :
  get_statement_for_position fuel self pos include_imports h = Ok (Some x) h' ->
  h' = h /\ contains_pos h x pos.
Proof.
  intros H. apply get_statement_for_position_sound in H as [-> H].
  split; [done|]. by apply H.
Qed.

Lemma get_statement_for_position_contains_witness :
  final_state (get_statement_for_position 3 0%nat (1, 0) false heap_module_with_x)
  = heap_module_with_x
  /\ contains_pos heap_module_with_x 2%nat (1, 0).
Proof.
  apply (get_statement_for_position_contains 3 0%nat 2%nat (1, 0) false
           heap_module_with_x
           (final_state
              (get_statement_for_position 3 0%nat (1, 0) false heap_module_with_x))).
  vm_compute. reflexivity.
Defined.

(** ** [get_imports] *)

Lemma imports_of_statements_covers (rec : ref -> M heap (list ref)) (h : heap) :
  (forall s l h1, rec s h = Ok l h1 ->
     h1 = h /\ forall os bs i, h !! s = Some os -> obj_scope os = Some bs ->
                               i ∈ imports bs -> i ∈ l) ->
  forall stmts l h',
    imports_of_statements rec stmts h = Ok l h' ->
    h' = h
    /\ forall s os bs i, s ∈ stmts -> h !! s = Some os -> obj_scope os = Some bs ->
                         i ∈ imports bs -> i ∈ l.
Proof.
  intros Hrec. induction stmts as [|s rest IH]; intros l h' H; simpl in H.
  - injection H as <- <-. split; [done|]. intros s os bs i Hs.
    by apply not_elem_of_nil in Hs.
  - apply bind_Ok in H as (o & h1 & Ho & H).
    pose proof (read_only_Ok _ _ _ _ (fun P => keeps_deref P s) Ho) as ->.
    unfold deref in Ho. destruct (h !! s) as [o0|] eqn:Hs; [|discriminate].
    injection Ho as ->.
    apply bind_Ok in H as (i & h1 & Hi & H).
    assert (Hi' : h1 = h /\ forall bs x, obj_scope o = Some bs ->
                                         x ∈ imports bs -> x ∈ i).
    { destruct (obj_scope o) as [b0|] eqn:Hb.
      - apply Hrec in Hi as [-> Hi]. split; [done|].
        intros bs x Hbs Hx. injection Hbs as <-. by eapply Hi.
      - injection Hi as <- <-. split; [done|]. discriminate. }
    destruct Hi' as [-> Hi'].
    apply bind_Ok in H as (j & h1 & Hj & H).
    apply IH in Hj as [-> Hj]. injection H as <- <-. split; [done|].
    intros s' os bs x Hs' Hos Hbs Hx. apply elem_of_app.
    apply elem_of_cons in Hs' as [->|Hs'].
    + left. rewrite Hs in Hos. injection Hos as <-. by eapply Hi'.
    + right. by eapply Hj.
Qed.

Lemma get_imports_covers (fuel : nat) :
  forall self h l h',
    get_imports fuel self h = Ok l h' ->
    h' = h
    /\ forall o b,
         h !! self = Some o -> obj_scope o = Some b ->
         (forall i, i ∈ imports b -> i ∈ l)
         /\ (forall s os bs i, s ∈ statements b -> h !! s = Some os ->
                               obj_scope os = Some bs -> i ∈ imports bs -> i ∈ l).
Proof.
  induction fuel as [|fuel IH]; intros self h l h' H; simpl in H; [discriminate|].
  apply bind_Ok in H as (o & h1 & Ho & H).
  pose proof (read_only_Ok _ _ _ _ (fun P => keeps_deref P self) Ho) as ->.
  unfold deref in Ho. destruct (h !! self) as [o0|] eqn:Hs; [|discriminate].
  injection Ho as ->.
  apply bind_Ok in H as (b & h1 & Hb & H).
  destruct (obj_scope o) as [b0|] eqn:Hsc; [|discriminate].
  injection Hb as -> <-.
  apply bind_Ok in H as (inner & h1 & Hin & H).
  eapply imports_of_statements_covers in Hin as [-> Hin].
  2:{ intros s l0 h2 Hr. apply IH in Hr as [-> Hr]. split; [done|].
      intros os bs i Hos Hbs Hi. by apply (Hr os bs Hos Hbs). }
  enough (Hgoal : h' = h /\ forall o' b', Some o = Some o' -> Some b = Some b' ->
            (forall i, i ∈ imports b' -> i ∈ l)
            /\ (forall s os bs i, s ∈ statements b' -> h !! s = Some os ->
                   obj_scope os = Some bs -> i ∈ imports bs -> i ∈ l)).
  { destruct Hgoal as [-> Hg]. split; [done|]. intros o' b' Ho' Hb'.
    apply (Hg o' b' Ho').
    injection Ho' as <-. by rewrite <- Hsc. }
  assert (Hres : forall l0 : list ref, (forall x, x ∈ imports b ++ inner -> x ∈ l0) ->
            forall o' b', Some o = Some o' -> Some b = Some b' ->
              (forall i, i ∈ imports b' -> i ∈ l0)
              /\ (forall s os bs i, s ∈ statements b' -> h !! s = Some os ->
                     obj_scope os = Some bs -> i ∈ imports bs -> i ∈ l0)).
  { intros l0 Hl0 o' b' Ho' Hb'. injection Ho' as <-. injection Hb' as <-. split.
    - intros i Hi. apply Hl0, elem_of_app. by left.
    - intros s os bs i Hs' Hos Hbs Hi. apply Hl0, elem_of_app. right.
      by eapply Hin. }
  assert (Hplain : ret (imports b ++ inner) h = Ok l h' ->
            h' = h /\ forall o' b', Some o = Some o' -> Some b = Some b' ->
              (forall i, i ∈ imports b' -> i ∈ l)
              /\ (forall s os bs i, s ∈ statements b' -> h !! s = Some os ->
                     obj_scope os = Some bs -> i ∈ imports bs -> i ∈ l)).
  { intros Hr. injection Hr as <- <-. split; [done|]. by apply Hres. }
  destruct o as [ | | |sf bf ff| | | | | | ]; try (by apply Hplain).
  destruct (fl_next ff) as [n|]; [|by apply Hplain].
  apply bind_Ok in H as (more & h1 & Hmore & H).
  apply IH in Hmore as [-> _]. injection H as <- <-. split; [done|].
  apply Hres. intros x Hx. apply elem_of_app. by left.
Qed.

(** X22: the list [get_imports] returns holds every import of the scope and
    every import of the scopes (the Flows) among its statements; the call
    does not modify the tree. *)
Theorem get_imports_includes_flow_imports (fuel : nat) (self : ref) (h h' : heap)
    (l : list ref) (o : obj) (b : scope_body) :
  h !! self = Some o -> obj_scope o = Some b ->
  get_imports fuel self h = Ok l h' ->
  h' = h
  /\ (forall i, i ∈ imports b -> i ∈ l)
  /\ (forall s os bs i, s ∈ statements b -> h !! s = Some os ->
                        obj_scope os = Some bs -> i ∈ imports bs -> i ∈ l).
Proof.
  intros Ho Hb H. apply get_imports_covers in H as [-> H].
  split; [done|]. by apply (H o b).
Qed.

Lemma get_imports_includes_flow_imports_witness :
  final_state (get_imports 3 0%nat heap_imports_in_flow) = heap_imports_in_flow
  /\ (forall i, i ∈ imports (ScopeBody [] [2%nat] [1%nat] "" [] None) ->
                i ∈ [2%nat; 3%nat])
  /\ (forall s os bs i,
        s ∈ statements (ScopeBody [] [2%nat] [1%nat] "" [] None) ->
        heap_imports_in_flow !! s = Some os ->
        obj_scope os = Some bs -> i ∈ imports bs -> i ∈ [2%nat; 3%nat]).
Proof.
  apply (get_imports_includes_flow_imports 3 0%nat heap_imports_in_flow
           (final_state (get_imports 3 0%nat heap_imports_in_flow))
           [2%nat; 3%nat]
           (OModule (Simple None 0%nat (1, 0) None)
              (ScopeBody [] [2%nat] [1%nat] "" [] None) (ModuleData None [] ∅ [] 0))
           (ScopeBody [] [2%nat] [1%nat] "" [] None)); reflexivity.
Defined.

(** ** [Import.get_defined_names] on a dotted name *)

(** X23: for an Import that is not defunct, has no star and no alias, and
    whose namespace has more than one part, [get_defined_names] returns
    one fresh Name: its only part is the first part of the namespace, and
    it takes the start, the end and the parent of the namespace. *)
Theorem import_defines_first_part (h : heap) (self ns : ref) (s sn : simple)
    (i : import_data) (names : list (string * pos)) (sp : pos) (ep : option pos) :
  h !! self = Some (OImport s i) ->
  defunct i = false -> star i = false ->
  (forall a, alias i <> PName a) ->
  namespace i = Some ns ->
  h !! ns = Some (OName sn names) ->
  (1 < length names)%nat ->
  get_start_pos ns h = Ok sp h ->
  get_end_pos ns h = Ok ep h ->
  import_get_defined_names self h
  = Ok [length h]
       (h ++ [OName (Simple (s_parent sn) (s_module s) sp ep)
                ((fun n0 => (n0.1, sp)) <$> take 1 names)]).
Proof.
  intros Hself Hd Hst Hal Hns Hn Hlen Hsp Hep.
  unfold import_get_defined_names, bind at 1, get_import, bind, deref.
  rewrite Hself. simpl. rewrite Hd, Hst.
  destruct (alias i) as [| |a] eqn:Ha; [| |by destruct (Hal a)];
    rewrite Hns; unfold get_names, bind, deref; rewrite Hn; simpl;
    (destruct (1 <? Z.of_nat (length names)) eqn:E;
      [|apply Z.ltb_ge in E; lia]);
    unfold get_start_pos in Hsp; unfold get_end_pos in Hep;
    unfold get_start_pos, get_end_pos; unfold bind in *;
    rewrite Hsp, Hep; unfold get_parent, bind, deref; rewrite Hn; reflexivity.
Qed.

Lemma import_defines_first_part_witness :
  import_get_defined_names 2%nat heap_import_os_path
  = Ok [length heap_import_os_path]
       (heap_import_os_path
        ++ [OName (Simple (s_parent (Simple (Some 2%nat) 0%nat (1, 7) (Some (1, 14))))
                     (s_module (Simple (Some 0%nat) 0%nat (1, 0) (Some (1, 14))))
                     (0 + 1, 7) (Some (0 + 1, 14)))
              ((fun n0 : string * pos => (n0.1, (0 + 1, 7)))
                 <$> take 1 [("os", (1, 7)); ("path", (1, 10))])]).
Proof.
  apply (import_defines_first_part heap_import_os_path 2%nat 1%nat
           (Simple (Some 0%nat) 0%nat (1, 0) (Some (1, 14)))
           (Simple (Some 2%nat) 0%nat (1, 7) (Some (1, 14)))
           (ImportData (Some 1%nat) PNone None false 0 false)
           [("os", (1, 7)); ("path", (1, 10))] (0 + 1, 7) (Some (0 + 1, 14)));
    try reflexivity; try discriminate; simpl; lia.
Defined.

(** ** C5: what [used_names] holds *)





